(** * Splitgraph engine layer and layered-query foreign data wrapper

    A shallow embedding of
    - [splitgraph/engine/__init__.py]: engine configuration, the [savepoint]
      and [switch_engine] context managers, [dump_table_creation],
      [get_change_key];
    - [splitgraph/core/fdw_checkout.py]: [QueryingForeignDataWrapper] with
      [_quals_to_postgres], [_apply_qual_filter], [_run_select_from_staging]
      and [execute].

    Python dictionaries are [gmap]s, Python lists are [list]s with the top of
    a stack at the end (as [append] / [pop] / [[-1]] have it), psycopg2
    [Composed] objects are token lists. *)

From Stdlib Require Import ZArith String Ascii OrdersEx.
From stdpp Require Import base tactics option strings list gmap sorting.

Local Open Scope string_scope.
Local Open Scope list_scope.

(* ===================================================================== *)
(** * psycopg2.sql: composable SQL fragments *)
(* ===================================================================== *)

Module Sql.

(** [SQL(text)] is literal query text, [Identifier(name)] a quoted name.
    A [Composed] is the sequence such pieces are concatenated to; nested
    [Composed] values are kept flattened, which is what [as_string]
    observes. *)
Inductive Composable : Type :=
| SQL (text : string)
| Identifier (name : string).

Definition Composed : Type := list Composable.

#[global] Instance Composable_eq_dec : EqDecision Composable.
Proof. solve_decision. Defined.

(** [sep.join(parts)] on Python strings. *)
Fixpoint str_join (sep : string) (parts : list string) : string :=
  match parts with
  | [] => EmptyString
  | [p] => p
  | p :: rest => p ++ sep ++ str_join sep rest
  end.

(** [SQL(sep).join(seq)]: the items of [seq] with [SQL(sep)] between
    consecutive ones. *)
Fixpoint SQL_join (sep : string) (seq : list Composed) : Composed :=
  match seq with
  | [] => []
  | [c] => c
  | c :: rest => c ++ SQL sep :: SQL_join sep rest
  end.

(** A comma-joined template of one placeholder per name, formatted with
    the names as identifiers: one identifier per placeholder, the literal
    commas between them. *)
Definition identifier_list (names : list string) : Composed :=
  SQL_join "," ((λ c, [Identifier c]) <$> names).

(** [SQL("{}.{}").format(Identifier(schema), Identifier(table))] *)
Definition qualified (schema table : string) : Composed :=
  [Identifier schema; SQL "."; Identifier table].

(** The names quoted in a statement, in order of appearance. *)
Definition identifiers (q : Composed) : list string :=
  omap (λ c, match c with Identifier n => Some n | SQL _ => None end) q.

(** The literal text pieces of a statement, in order of appearance. *)
Definition literals (q : Composed) : list string :=
  omap (λ c, match c with SQL t => Some t | Identifier _ => None end) q.

End Sql.
Export Sql.

(* ===================================================================== *)
(** * Stateful code that may raise *)
(* ===================================================================== *)

Module Effects.

Inductive Outcome (E A : Type) : Type :=
| Returned (a : A)
| Raised (e : E).
Arguments Returned {E A} a.
Arguments Raised {E A} e.

(** A computation over a store [St] that returns or raises. *)
Definition Eff (St E A : Type) : Type := St → St * Outcome E A.

Section Ops.
Context {St E : Type}.

#[global] Instance Eff_ret : MRet (Eff St E) :=
  λ A a s, (s, Returned a).

#[global] Instance Eff_bind : MBind (Eff St E) :=
  λ A B k m s, match m s with
               | (s', Returned a) => k a s'
               | (s', Raised e) => (s', Raised e)
               end.

Definition raise {A} (e : E) : Eff St E A := λ s, (s, Raised e).

Definition gets {A} (f : St → A) : Eff St E A := λ s, (s, Returned (f s)).

Definition modify (f : St → St) : Eff St E unit := λ s, (f s, Returned tt).

(** [try: body finally: fin].  The finaliser runs whether [body] returned
    or raised; the outcome of [body] is kept unless the finaliser itself
    raises. *)
Definition try_finally {A} (body : Eff St E A) (fin : Eff St E unit)
  : Eff St E A :=
  λ s, let '(s1, r) := body s in
       match fin s1 with
       | (s2, Returned _) => (s2, r)
       | (s2, Raised e) => (s2, Raised e)
       end.
End Ops.

End Effects.
Export Effects.

(* ===================================================================== *)
(** * splitgraph.engine: configuration *)
(* ===================================================================== *)

Module Config.

Definition _ENGINE_SPECIFIC_CONFIG : list string :=
  [ "SG_ENGINE_HOST"; "SG_ENGINE_PORT"; "SG_ENGINE_USER"; "SG_ENGINE_PWD";
    "SG_ENGINE_DB_NAME"; "SG_ENGINE_POSTGRES_DB_NAME";
    "SG_ENGINE_ADMIN_USER"; "SG_ENGINE_ADMIN_PWD";
    "SG_ENGINE_FDW_HOST"; "SG_ENGINE_FDW_PORT";
    "SG_ENGINE_OBJECT_PATH"; "SG_NAMESPACE" ].

Definition _ENGINE_CONFIG_DEFAULTS : gmap string string :=
  <["SG_ENGINE_FDW_HOST" := "SG_ENGINE_HOST"]>
    (<["SG_ENGINE_FDW_PORT" := "SG_ENGINE_PORT"]> ∅).

(** [config_dict[k]] on a missing key. *)
Inductive ConfigError : Type := KeyError (key : string).

Section Prepare.
Context {V : Type}.

(** One iteration of the [for key in _ENGINE_SPECIFIC_CONFIG] loop. *)
Definition prepare_step (config_dict : gmap string V) (key : string)
    (result : gmap string V) : ConfigError + gmap string V :=
  match
    match _ENGINE_CONFIG_DEFAULTS !! key with
    | Some source =>
        match config_dict !! source with
        | Some v => inr (<[key := v]> result)
        | None => inl (KeyError source)
        end
    | None => inr result
    end
  with
  | inl e => inl e
  | inr result =>
      match config_dict !! key with
      | Some v => inr (<[key := v]> result)
      | None => inr result
      end
  end.

Fixpoint prepare_loop (config_dict : gmap string V) (keys : list string)
    (result : gmap string V) : ConfigError + gmap string V :=
  match keys with
  | [] => inr result
  | key :: keys =>
      match prepare_step config_dict key result with
      | inl e => inl e
      | inr result => prepare_loop config_dict keys result
      end
  end.

Definition _prepare_engine_config (config_dict : gmap string V)
  : ConfigError + gmap string V :=
  prepare_loop config_dict _ENGINE_SPECIFIC_CONFIG ∅.
(** What the loop leaves under a key it visits: the input's value, else
    the value of the key it falls back to, else what was there. *)
Definition prepared (config_dict result : gmap string V) (k : string)
  : option V :=
  match config_dict !! k with
  | Some v => Some v
  | None =>
      match _ENGINE_CONFIG_DEFAULTS !! k with
      | Some source => config_dict !! source
      | None => result !! k
      end
  end.
End Prepare.

End Config.

(* ===================================================================== *)
(** * splitgraph.engine: the global engine and its scoped override *)
(* ===================================================================== *)

Module GlobalEngine.

Section Globals.
(** [PostgresEngine] instances, the rest of the process state and the
    exceptions a body may raise are left open. *)
Context {PostgresEngine World Exn : Type}.

(** [_ENGINE: Union[str, PostgresEngine]] *)
Inductive EngineRef : Type :=
| EngineName (name : string)
| EngineObject (engine : PostgresEngine).

Record Process : Type := mkProcess {
  _ENGINE : EngineRef;
  world : World
}.

Definition set_ENGINE (e : EngineRef) : Eff Process Exn unit :=
  modify (λ p, mkProcess e (world p)).

(** [@contextmanager def switch_engine(engine)]; the body of the [with]
    block runs where the generator yields. *)
Definition switch_engine {A} (engine : PostgresEngine)
    (body : Eff Process Exn A) : Eff Process Exn A :=
  (_prev_engine ← gets _ENGINE;
   try_finally
     (set_ENGINE (EngineObject engine);; body)
     (set_ENGINE _prev_engine)).
End Globals.

Arguments EngineRef : clear implicits.
Arguments Process : clear implicits.

End GlobalEngine.

(* ===================================================================== *)
(** * splitgraph.engine.SQLEngine: savepoints and DDL *)
(* ===================================================================== *)

Module SQLEngine.

Section Savepoints.
Context {Backend Exn : Type}.

(** The engine object: its savepoint stack (top at the end), the
    statements handed to [run_sql] so far, and the backing connection. *)
Record Engine : Type := mkEngine {
  _savepoint_stack : list string;
  statements : list Composed;
  backend : Backend
}.

(** [run_sql] is abstract in [SQLEngine]; here it records the statement
    it is given. What an implementer does on a database error (roll back
    to the innermost savepoint) is part of the [with] body below. *)
Definition run_sql (statement : Composed) : Eff Engine Exn unit :=
  modify (λ e, mkEngine (_savepoint_stack e) (statements e ++ [statement])
                        (backend e)).

Definition stack_append (name : string) : Eff Engine Exn unit :=
  modify (λ e, mkEngine (_savepoint_stack e ++ [name]) (statements e)
                        (backend e)).

Definition stack_pop : Eff Engine Exn unit :=
  modify (λ e, mkEngine (removelast (_savepoint_stack e)) (statements e)
                        (backend e)).

Definition SAVEPOINT (name : string) : Composed :=
  [SQL "SAVEPOINT "; Identifier name].
Definition RELEASE_SAVEPOINT (name : string) : Composed :=
  [SQL "RELEASE SAVEPOINT "; Identifier name].

(** The [finally] block of [savepoint]:
    [if self._savepoint_stack and self._savepoint_stack[-1] == name]. *)
Definition savepoint_exit (name : string) : Eff Engine Exn unit :=
  (stack ← gets _savepoint_stack;
   if decide (stack ≠ [] ∧ last stack = Some name)
   then (stack_pop;; run_sql (RELEASE_SAVEPOINT name))
   else mret tt).

(** [@contextmanager def savepoint(self, name)] around a [with] body. *)
Definition savepoint {A} (name : string) (body : Eff Engine Exn A)
  : Eff Engine Exn A :=
  (run_sql (SAVEPOINT name);;
   stack_append name;;
   try_finally body (savepoint_exit name)).

(** The engine as the body of [with savepoint(name)] finds it. *)
Definition entered (name : string) (eng : Engine) : Engine :=
  mkEngine (_savepoint_stack eng ++ [name])
           (statements eng ++ [SAVEPOINT name]) (backend eng).

(** What the [finally] block makes of the engine the body leaves. *)
Definition released (name : string) (eng : Engine) : Engine :=
  if decide (last (_savepoint_stack eng) = Some name)
  then mkEngine (removelast (_savepoint_stack eng))
                (statements eng ++ [RELEASE_SAVEPOINT name]) (backend eng)
  else eng.
End Savepoints.

Arguments Engine : clear implicits.

(** A body during which [run_sql] hits a database error: the implementer
    rolls back to the innermost savepoint, taking it off the stack, and the
    error propagates. *)
Definition failing_body : Eff (Engine unit) string unit :=
  run_sql [SQL "ROLLBACK TO "; Identifier "sp"];;
  stack_pop;;
  raise "database error".

(** ** [dump_table_creation] *)

(** A schema spec entry [(ordinal_position, column_name, data_type, is_pk)]. *)
Definition SchemaEntry : Type := Z * string * string * bool.

Definition ordinal_position (e : SchemaEntry) : Z := e.1.1.1.
Definition column_name (e : SchemaEntry) : string := e.1.1.2.
Definition is_pk (e : SchemaEntry) : bool := e.2.

Definition lex (c1 c2 : comparison) : comparison :=
  match c1 with Eq => c2 | _ => c1 end.

Definition bool_compare (b1 b2 : bool) : comparison :=
  match b1, b2 with
  | false, true => Lt
  | true, false => Gt
  | _, _ => Eq
  end.

(** Python's ordering on tuples: lexicographic, the first components
    deciding unless they are equal. *)
Definition pair_compare {A B} (cA : A → A → comparison)
    (cB : B → B → comparison) (p q : A * B) : comparison :=
  lex (cA p.1 q.1) (cB p.2 q.2).

(** Integers by value, strings by code point, [False < True]. *)
Definition entry_compare : SchemaEntry → SchemaEntry → comparison :=
  pair_compare
    (pair_compare (pair_compare Z.compare String_as_OT.compare)
                  String_as_OT.compare)
    bool_compare.

Definition entry_le (a b : SchemaEntry) : Prop := entry_compare a b ≠ Gt.

(** A comparison function that decides a total order. *)
Class TotalCompare {A} (c : A → A → comparison) : Prop := {
  compare_eq x y : c x y = Eq ↔ x = y;
  compare_opp x y : c y x = CompOpp (c x y);
  compare_lt_trans x y z : c x y = Lt → c y z = Lt → c x z = Lt
}.


(** The identifiers of the table a statement is about. *)
Definition target_names (schema : option string) (table : string)
    (temporary : bool) : list string :=
  if temporary then [table]
  else match schema with Some s => [s; table] | None => [] end.

#[global] Instance entry_le_dec : RelDecision entry_le.
Proof. intros a b. unfold entry_le. apply _. Defined.

(** [sorted(schema_spec)] *)
Definition sorted (schema_spec : list SchemaEntry) : list SchemaEntry :=
  merge_sort entry_le schema_spec.

(** *** Text put into a template *)

Definition is_brace (c : ascii) : bool :=
  (Ascii.eqb c "{" || Ascii.eqb c "}")%bool.

(** No brace in the text. *)
Fixpoint brace_free (text : string) : bool :=
  match text with
  | EmptyString => true
  | String c rest => negb (is_brace c) && brace_free rest
  end.

Fixpoint last_char (text : string) : option ascii :=
  match text with
  | EmptyString => None
  | String c EmptyString => Some c
  | String _ rest => last_char rest
  end.

(** What [SQL(template).format(...)] makes of a stretch of its template
    that is meant as literal text. The parser of format strings reads a
    doubled brace as one literal brace and ends the piece of literal text
    there; any other brace opens a replacement field or is an error. In
    the template of [dump_table_creation], where the stretch is a type
    name between the fields of two column names, each of these makes
    [format] raise ([IndexError] for one more [{}] than there are
    arguments, [ValueError] or [KeyError] for anything else): [None]. *)
Fixpoint literal_pieces (text : string) : option (list string) :=
  match text with
  | EmptyString => Some []
  | String c rest =>
      if is_brace c
      then match rest with
           | String c' rest' =>
               if Ascii.eqb c c'
               then cons (String c EmptyString) <$> literal_pieces rest'
               else None
           | EmptyString => None
           end
      else (λ pieces, match pieces with
                      | [] => [String c EmptyString]
                      | piece :: pieces => String c piece :: pieces
                      end) <$> literal_pieces rest
  end.

(** The braces of the text are doubled, so that it can stand in a
    template. *)
Definition format_safe (text : string) : Prop :=
  is_Some (literal_pieces text).

#[global] Instance format_safe_dec text : Decision (format_safe text).
Proof. unfold format_safe. apply _. Defined.

Definition literal (text : string) : option Composed :=
  (λ pieces : list string, SQL <$> pieces) <$> literal_pieces text.

(** What [dump_table_creation] raises: [TypeError] from [Identifier(None)],
    or one of the errors of [format] above. *)
Inductive DumpError : Type := TypeError | FormatError.

(** What formatting the template of one [{} ctype ] per column, joined by
    commas, with the column names as identifiers gives: each name followed
    by the literal pieces of its type, a comma closing every definition
    but the last. *)
Fixpoint column_defs (schema_spec : list SchemaEntry) : option Composed :=
  match schema_spec with
  | [] => Some []
  | [(_, cname, ctype, _)] =>
      pieces ← literal (" " ++ ctype ++ " ");
      Some (Identifier cname :: pieces)
  | (_, cname, ctype, _) :: rest =>
      pieces ← literal (" " ++ ctype ++ " ,");
      defs ← column_defs rest;
      Some (Identifier cname :: pieces ++ defs)
  end.

Definition pk_clause (pk_cols : list string) : Composed :=
  SQL ", PRIMARY KEY (" :: SQL_join "," ((λ c, [Identifier c]) <$> pk_cols)
    ++ [SQL "))"].

(** The statement, or what the code raises instead: the target is built
    first, then the template of the columns is formatted. *)
Definition dump_table_creation (schema : option string) (table : string)
    (schema_spec : list SchemaEntry) (unlogged temporary : bool)
  : DumpError + Composed :=
  let flavour := EmptyString in
  let flavour := if unlogged then "UNLOGGED" else flavour in
  let flavour := if temporary then "TEMPORARY" else flavour in
  let schema_spec := sorted schema_spec in
  match (if temporary then Some [Identifier table]
         else s ← schema; Some (qualified s table)) with
  | None => inl TypeError
  | Some target =>
      match column_defs schema_spec with
      | None => inl FormatError
      | Some defs =>
          let query :=
            SQL ("CREATE " ++ flavour ++ " TABLE ") :: target
              ++ SQL " (" :: defs in
          let pk_cols :=
            column_name <$> filter (λ e, is_pk e = true) schema_spec in
          let query :=
            match pk_cols with
            | [] => query ++ [SQL ")"]
            | _ => query ++ pk_clause pk_cols
            end in
          let query :=
            if unlogged then query ++ [SQL " WITH(autovacuum_enabled=false)"]
            else query in
          inr query
      end
  end.

End SQLEngine.

(* ===================================================================== *)
(** * Multicorn qualifiers and the tables of the object store *)
(* ===================================================================== *)

Module Store.

Section Data.
Context {value : Type}.

(** A row is the mapping from column names to values. *)
Abbreviation Row := (gmap string value).

(** [multicorn.ANY] / [multicorn.ALL] *)
Inductive AnyOrAll : Type := ANY | ALL.

(** A Multicorn [Qual]: [field_name operator value], or, when
    [is_list_operator], [field_name operator ANY|ALL (values)]. *)
Inductive Qual : Type :=
| ScalarQual (field operator : string) (v : value)
| ListQual (field operator : string) (list_any_or_all : AnyOrAll)
           (values : list value).

Definition field_name (q : Qual) : string :=
  match q with ScalarQual f _ _ | ListQual f _ _ _ => f end.

Definition is_list_operator (q : Qual) : bool :=
  match q with ScalarQual _ _ _ => false | ListQual _ _ _ _ => true end.

(** [sg_action_kind]: 0 for insert, 1 for delete, 2 for update. *)
Inductive Action : Type := INSERT | DELETE | UPDATE.

Definition sg_action_code (a : Action) : Z :=
  match a with INSERT => 0 | DELETE => 1 | UPDATE => 2 end.

(** One row of a DIFF object: the change key columns, the action and
    the columns the action sets ([sg_action_data], empty for a delete). *)
Record Change : Type := mkChange {
  change_key : Row;
  sg_action_kind : Action;
  sg_action_data : Row
}.

Record DiffObject : Type := mkDiff {
  diff_id : string;
  changes : list Change
}.

(** A SNAP object with what [get_primary_keys] and
    [get_column_names_types] report for it: lists of (name, type). *)
Record Snapshot : Type := mkSnapshot {
  snap_id : string;
  primary_keys : list (string * string);
  column_names_types : list (string * string);
  snap_rows : list Row
}.

(** [ChangeEngine.get_change_key] *)
Definition get_change_key (t : Snapshot) : list (string * string) :=
  match primary_keys t with
  | [] => column_names_types t
  | pks => pks
  end.

Definition get_column_names (t : Snapshot) : list string :=
  (column_names_types t).*1.
End Data.

Abbreviation Row value := (gmap string value).
Arguments Qual : clear implicits.
Arguments Change : clear implicits.
Arguments DiffObject : clear implicits.
Arguments Snapshot : clear implicits.

#[global] Instance AnyOrAll_eq_dec : EqDecision AnyOrAll.
Proof. solve_decision. Defined.
#[global] Instance Action_eq_dec : EqDecision Action.
Proof. solve_decision. Defined.

End Store.
Export Store.

(* ===================================================================== *)
(** * splitgraph.core.fdw_checkout: the layered-query FDW *)
(* ===================================================================== *)

Module FDW.

(** Calls the FDW makes on its engine and on the named cursor. *)
Inductive EngineCall {value : Type} : Type :=
| RunSql (query : Composed) (arguments : list value)
| ApplyDiffObject (source_schema source_table
                   target_schema target_table : string)
| CursorExecute (query : Composed)
| CursorClose
| DeleteTable (schema table : string)
| Rollback.
Arguments EngineCall : clear implicits.

(** The engine as the FDW sees it: the staging tables of the open
    transaction, each row with its [sg_meta_keep_pk] flag, and the calls
    made so far. *)
Record Engine {value : Type} : Type := mkEngine {
  tables : gmap string (list (Row value * bool));
  calls : list (EngineCall value)
}.
Arguments Engine : clear implicits.
Arguments mkEngine {value} tables calls.

(** The generator [_run_select_from_staging] returns. *)
Inductive GenState {value : Type} : Type :=
| Created                        (* body not entered yet *)
| Suspended (cur : list (Row value))   (* at [yield]; tuples left in the cursor *)
| Finished.
Arguments GenState : clear implicits.

Record Generator {value : Type} : Type := mkGenerator {
  gen_schema : string;
  gen_table : string;
  gen_columns : list string;
  gen_drop_table : bool;
  gen_state : GenState value
}.
Arguments Generator : clear implicits.
Arguments mkGenerator {value} _ _ _ _ _.

(** What a [next()] on the generator observes: a row; [StopIteration],
    from a generator that has finished; or [RuntimeError], which is how a
    [StopIteration] raised inside the body of a generator leaves it
    (PEP 479, the rule from Python 3.7 on). *)
Inductive NextResult {value : Type} : Type :=
| Yielded (row : Row value)
| StopIteration
| RuntimeError.
Arguments NextResult : clear implicits.

Section Wrapper.
Context {value : Type} `{EqDecision value}.

(** How Postgres evaluates the fragment of one qual on the value of its
    column: [Some true], [Some false], or [None] for SQL unknown. *)
Variable pg_qual : Qual value → value → option bool.

(** Constants and helpers imported from the rest of the package. *)
Variable SPLITGRAPH_META_SCHEMA : string.
Variable _generate_where_clause :
  string → string → list string → string → string → Composed.

(** *** Qualifiers *)

(** [_qual_to_pg] *)
Definition _qual_to_pg (qual : Qual value) : Composed * list value :=
  match qual with
  | ListQual field op list_any_or_all value =>
      let operator :=
        (op ++ " " ++ match list_any_or_all with ANY => "ANY" | ALL => "ALL" end)%string in
      let operator :=
        (operator ++ "(ARRAY[" ++ str_join "," ((λ _, "%s") <$> value) ++ "])")%string in
      ([Identifier field; SQL (" " ++ operator)], value)
  | ScalarQual field op v =>
      let operator := (op ++ " %s")%string in
      let value := [v] in
      ([Identifier field; SQL (" " ++ operator)], value)
  end.

(** [_quals_to_postgres]: the loop appends to [sql_objs] and extends
    [vals]. *)
Definition _quals_to_postgres (quals : list (Qual value))
  : Composed * list value :=
  let '(sql_objs, vals) :=
    foldl (λ '(sql_objs, vals) q,
             let '(s, v) := _qual_to_pg q in (sql_objs ++ [s], vals ++ v))
          ([], []) quals in
  (SQL_join " AND " sql_objs, vals).

(** Following the words of the spec: a scalar qual [(field, op, value)]
    yields the fragment [field op %s] with one bound value, a list qual
    [(field, op, ANY|ALL, values)] yields [field op ANY(ARRAY[...])] or
    [field op ALL(ARRAY[...])] with one placeholder and one bound value
    per element. *)
Definition placeholders (n : nat) : string :=
  str_join "," (replicate n "%s").

Definition qual_fragment_spec (qual : Qual value) : Composed * list value :=
  match qual with
  | ScalarQual field op v =>
      ([Identifier field; SQL (" " ++ op ++ " %s")], [v])
  | ListQual field op ANY values =>
      ([Identifier field;
        SQL (" " ++ op ++ " ANY(ARRAY[" ++ placeholders (length values) ++ "])")],
       values)
  | ListQual field op ALL values =>
      ([Identifier field;
        SQL (" " ++ op ++ " ALL(ARRAY[" ++ placeholders (length values) ++ "])")],
       values)
  end.

(** Following the words of the spec: the fragments joined by AND, the
    bound values concatenated in qual order. *)
Definition quals_to_postgres_spec (quals : list (Qual value))
  : Composed * list value :=
  (SQL_join " AND " ((λ q, (qual_fragment_spec q).1) <$> quals),
   concat ((λ q, (qual_fragment_spec q).2) <$> quals)).

(** Three-valued conjunction. *)
Definition and3 (a b : option bool) : option bool :=
  match a, b with
  | Some false, _ | _, Some false => Some false
  | Some true, Some true => Some true
  | _, _ => None
  end.

Definition eval_qual (q : Qual value) (r : Row value) : option bool :=
  r !! field_name q ≫= pg_qual q.

(** The value of [q1 AND q2 AND ...] on a row. *)
Definition eval_quals (quals : list (Qual value)) (r : Row value)
  : option bool :=
  foldr (λ q acc, and3 (eval_qual q r) acc) (Some true) quals.

(** [WHERE quals] selects the row. *)
Definition satisfies (quals : list (Qual value)) (r : Row value) : Prop :=
  eval_quals quals r = Some true.

(** [WHERE NOT (quals)] selects the row. *)
Definition fails (quals : list (Qual value)) (r : Row value) : Prop :=
  eval_quals quals r = Some false.

#[global] Instance satisfies_dec quals r : Decision (satisfies quals r).
Proof. unfold satisfies. apply _. Defined.

#[global] Instance fails_dec quals r : Decision (fails quals r).
Proof. unfold fails. apply _. Defined.

(** *** Tables *)

(** The values a row has in the given columns. *)
Definition row_key (cols : list string) (r : Row value)
  : list (option value) :=
  (λ c, r !! c) <$> cols.

Section Apply.
(** Rows carry what the target table has besides the columns of the
    object: nothing for a checked-out table, [sg_meta_keep_pk] for a
    staging table. *)
Context {A : Type}.

Definition delete_change (ri_cols : list string) (t : list (Row value * A))
    (c : Change value) : list (Row value * A) :=
  filter (λ x, row_key ri_cols x.1 ≠ row_key ri_cols (change_key c)) t.

Definition update_change (ri_cols : list string) (t : list (Row value * A))
    (c : Change value) : list (Row value * A) :=
  (λ x, if decide (row_key ri_cols x.1 = row_key ri_cols (change_key c))
        then (sg_action_data c ∪ x.1, x.2) else x) <$> t.

Definition insert_change (default : A) (t : list (Row value * A))
    (c : Change value) : list (Row value * A) :=
  t ++ [(change_key c ∪ sg_action_data c, default)].

Definition changes_of (kind : Action) (d : DiffObject value)
  : list (Change value) :=
  filter (λ c, sg_action_kind c = kind) (changes d).

(** Modelled from the spec: what [engine.apply_diff_object] does is the
    [apply_diff] of section 4.2 (its code is not part of the sources at
    hand): for each record, INSERT / UPDATE / DELETE against the target
    by change key; all DELETEs, then UPDATEs, then INSERTs. An inserted
    row takes the column defaults of the target for the columns the
    object does not have. *)
Definition apply_diff (ri_cols : list string) (default : A)
    (d : DiffObject value) (t : list (Row value * A))
  : list (Row value * A) :=
  let t := foldl (delete_change ri_cols) t (changes_of DELETE d) in
  let t := foldl (update_change ri_cols) t (changes_of UPDATE d) in
  foldl (insert_change default) t (changes_of INSERT d).
End Apply.

(** Modelled from the spec: the fully materialized table of an image,
    the snapshot with all diffs applied in chain order (section 4.5). *)
Definition materialize (snap : Snapshot value)
    (diff_chain : list (DiffObject value)) : list (Row value) :=
  (foldl (λ t d, apply_diff (get_change_key snap).*1 () d t)
         ((λ r, (r, ())) <$> snap_rows snap) diff_chain).*1.

(** [INSERT ... ON CONFLICT DO NOTHING] of one row into a staging table
    whose primary key is [pks] (no constraint when [pks] is empty). *)
Definition insert_on_conflict_do_nothing (pks : list string)
    (t : list (Row value * bool)) (x : Row value * bool)
  : list (Row value * bool) :=
  if decide (pks ≠ [] ∧ Exists (λ y, row_key pks y.1 = row_key pks x.1) t)
  then t else t ++ [x].

Definition insert_select (pks : list string)
    (rows : list (Row value * bool)) (t : list (Row value * bool))
  : list (Row value * bool) :=
  foldl (insert_on_conflict_do_nothing pks) t rows.

(** The SELECT of step 1: the rows of the SNAP joined with the object on
    the change key, for the records with [sg_action_kind=2], each with
    [TRUE] for [sg_meta_keep_pk]. *)
Definition updated_snap_rows (ri_cols : list string)
    (snap : Snapshot value) (d : DiffObject value)
  : list (Row value * bool) :=
  s ← snap_rows snap;
  c ← changes d;
  if decide (row_key ri_cols s = row_key ri_cols (change_key c)
             ∧ sg_action_code (sg_action_kind c) = 2%Z)
  then [(s, true)] else [].

(** The SELECT of step 2: the rows of the SNAP, under [WHERE quals] when
    there are quals, each with [FALSE] for [sg_meta_keep_pk]. *)
Definition matching_snap_rows (quals : list (Qual value))
    (snap : Snapshot value) : list (Row value * bool) :=
  (λ s, (s, false)) <$>
    match quals with
    | [] => snap_rows snap
    | _ => filter (satisfies quals) (snap_rows snap)
    end.

(** The DELETE of [_apply_qual_filter]:
    [WHERE sg_meta_keep_pk = FALSE AND NOT (quals)]. *)
Definition qual_filter_rows (quals : list (Qual value))
    (t : list (Row value * bool)) : list (Row value * bool) :=
  filter (λ x, ¬ (x.2 = false ∧ fails quals x.1)) t.

(** The dictionary built from [zip(columns, tuple)] for a tuple of a
    SELECT of [columns]: the row restricted to those columns. *)
Definition project (columns : list string) (r : Row value) : Row value :=
  filter (λ kv, kv.1 ∈ columns) r.

(** *** The wrapper and its engine *)

(** What [__init__] resolves: the SNAP of the table and its chain of
    DIFF objects, in the order [execute] walks it. *)
Record Wrapper : Type := mkWrapper {
  snap : Snapshot value;
  diff_chain : list (DiffObject value)
}.

Definition log (c : EngineCall value) (eng : Engine value) : Engine value :=
  mkEngine (tables eng) (calls eng ++ [c]).

(** [engine.run_sql(query, arguments)], with what the statement does to
    the staging tables. *)
Definition run_sql (query : Composed) (arguments : list value)
    (effect : gmap string (list (Row value * bool)) →
              gmap string (list (Row value * bool)))
    (eng : Engine value) : Engine value :=
  mkEngine (effect (tables eng)) (calls eng ++ [RunSql query arguments]).

(** [engine.apply_diff_object(source_schema, source_table, target_schema,
    target_table)] on a staging table: inserted rows take the default
    [TRUE] of [sg_meta_keep_pk]. *)
Definition apply_diff_object (ri_cols : list string)
    (source_schema : string) (d : DiffObject value)
    (target_schema target_table : string) (eng : Engine value)
  : Engine value :=
  mkEngine (alter (apply_diff ri_cols true d) target_table (tables eng))
           (calls eng ++ [ApplyDiffObject source_schema (diff_id d)
                                          target_schema target_table]).

(** [engine.delete_table(schema, table)] *)
Definition delete_table (schema table : string) (eng : Engine value)
  : Engine value :=
  mkEngine (delete table (tables eng)) (calls eng ++ [DeleteTable schema table]).

(** [engine.rollback()]: the staging tables of the transaction are gone. *)
Definition rollback (eng : Engine value) : Engine value :=
  mkEngine ∅ (calls eng ++ [Rollback]).

(** The rows a SELECT on the named table of the meta schema sees: the
    SNAP, or a staging table of the transaction (staging names are
    random and never those of stored objects). *)
Definition table_rows (self : Wrapper) (eng : Engine value) (table : string)
  : list (Row value) :=
  if decide (table = snap_id (snap self)) then snap_rows (snap self)
  else match tables eng !! table with
       | Some t => t.*1
       | None => []
       end.

(** *** [_apply_qual_filter] *)

Definition qual_filter_query (schema table : string) (qual_sql : Composed)
  : Composed :=
  (SQL "DELETE FROM " :: qualified schema table ++ [SQL " WHERE "])
    ++ (SQL "sg_meta_keep_pk = FALSE AND NOT (" :: qual_sql ++ [SQL ")"]).

(** [quals] are the qualifiers [qual_sql] and [qual_vals] render. *)
Definition _apply_qual_filter (quals : list (Qual value))
    (schema table : string) (qual_sql : Composed) (qual_vals : list value)
    (eng : Engine value) : Engine value :=
  run_sql (qual_filter_query schema table qual_sql) qual_vals
          (alter (qual_filter_rows quals) table) eng.

(** *** [_run_select_from_staging] *)

Definition select_query (schema table : string) (columns : list string)
  : Composed :=
  (SQL "SELECT " :: identifier_list columns)
    ++ SQL " FROM " :: qualified schema table.

(** Calling the generator function runs none of its body. *)
Definition _run_select_from_staging (schema table : string)
    (columns : list string) (drop_table : bool) : Generator value :=
  mkGenerator schema table columns drop_table Created.

Definition set_state (g : Generator value) (st : GenState value)
  : Generator value :=
  mkGenerator (gen_schema g) (gen_table g) (gen_columns g)
              (gen_drop_table g) st.

(** The [except StopIteration] clause: close the cursor, delete the
    staging table if asked to, end the transaction. *)
Definition on_exhausted (g : Generator value) (eng : Engine value)
  : Engine value :=
  let eng := log CursorClose eng in
  let eng := if gen_drop_table g
             then delete_table (gen_schema g) (gen_table g) eng
             else eng in
  rollback eng.

(** One turn of the [while True] loop with [cur] holding the tuples not
    fetched yet: [next(cur)] gives a tuple to yield, or raises
    [StopIteration]; the [except] clause handles it and ends with
    [raise StopIteration], which leaves the generator as [RuntimeError]. *)
Definition loop_turn (g : Generator value) (cur : list (Row value))
    (eng : Engine value)
  : NextResult value * Generator value * Engine value :=
  match cur with
  | r :: rest =>
      (Yielded (project (gen_columns g) r), set_state g (Suspended rest), eng)
  | [] => (RuntimeError, set_state g Finished, on_exhausted g eng)
  end.

(** [next(generator)] *)
Definition next (self : Wrapper) (g : Generator value) (eng : Engine value)
  : NextResult value * Generator value * Engine value :=
  match gen_state g with
  | Created =>
      let eng :=
        log (CursorExecute (select_query (gen_schema g) (gen_table g)
                                         (gen_columns g))) eng in
      loop_turn g (table_rows self eng (gen_table g)) eng
  | Suspended cur => loop_turn g cur eng
  | Finished => (StopIteration, g, eng)
  end.

(** [generator.close()], also what dropping the generator does:
    [GeneratorExit] is raised at the [yield]; the [except StopIteration]
    clause does not handle it, so the generator ends there. *)
Definition close (g : Generator value) (eng : Engine value)
  : Generator value * Engine value :=
  (set_state g Finished, eng).

(** The caller calling [next] until the generator yields no row: the
    rows yielded until then, whether the generator ends with
    [StopIteration] or with an exception; [None] when [fuel] calls of
    [next] do not reach the end. *)
Fixpoint iterate (fuel : nat) (self : Wrapper) (g : Generator value)
    (eng : Engine value)
  : option (list (Row value) * Generator value * Engine value) :=
  match fuel with
  | O => None
  | S fuel =>
      match next self g eng with
      | (Yielded row, g, eng) =>
          '(rows, g, eng) ← iterate fuel self g eng;
          Some (row :: rows, g, eng)
      | (_, g, eng) => Some ([], g, eng)
      end
  end.

(** What ends that iteration: the result of the first [next] that yields
    no row. *)
Fixpoint ending (fuel : nat) (self : Wrapper) (g : Generator value)
    (eng : Engine value) : option (NextResult value) :=
  match fuel with
  | O => None
  | S fuel =>
      match next self g eng with
      | (Yielded _, g, eng) => ending fuel self g eng
      | (result, _, _) => Some result
      end
  end.

(** The tuples a stream has still to yield. *)
Definition pending (self : Wrapper) (g : Generator value) (eng : Engine value)
  : list (Row value) :=
  match gen_state g with
  | Created => table_rows self eng (gen_table g)
  | Suspended cur => cur
  | Finished => []
  end.

(** What a stream whose body has not been entered runs first. *)
Definition opening_calls (g : Generator value) : list (EngineCall value) :=
  match gen_state g with
  | Created =>
      [CursorExecute (select_query (gen_schema g) (gen_table g) (gen_columns g))]
  | _ => []
  end.

(** *** [execute] *)

Definition create_staging_query (staging_table snap_id : string) : Composed :=
  (SQL "CREATE TABLE " :: qualified SPLITGRAPH_META_SCHEMA staging_table)
    ++ (SQL " AS SELECT * FROM " :: qualified SPLITGRAPH_META_SCHEMA snap_id)
    ++ [SQL " LIMIT 1 WITH NO DATA"].

Definition add_keep_pk_query (staging_table : string) : Composed :=
  (SQL "ALTER TABLE " :: qualified SPLITGRAPH_META_SCHEMA staging_table)
    ++ [SQL " ADD COLUMN sg_meta_keep_pk BOOLEAN DEFAULT TRUE"].

Definition add_primary_key_query (staging_table : string)
    (pks : list (string * string)) : Composed :=
  (SQL "ALTER TABLE " :: qualified SPLITGRAPH_META_SCHEMA staging_table)
    ++ (SQL " ADD PRIMARY KEY (" ::
          SQL_join "," ((λ p : string * string, [Identifier p.1]) <$> pks))
    ++ [SQL ")"].

Definition insert_into_staging (staging_table : string)
    (all_cols_sql : Composed) : Composed :=
  (SQL "INSERT INTO " :: qualified SPLITGRAPH_META_SCHEMA staging_table)
    ++ (SQL " (" :: all_cols_sql ++ [SQL ",sg_meta_keep_pk)"]).

(** The statement of step 1 for one object of the chain. *)
Definition insert_updated_query (staging_table snap_id object_id : string)
    (ri_cols all_cols : list string) : Composed :=
  insert_into_staging staging_table (identifier_list all_cols)
    ++ (SQL " (SELECT " ::
          SQL_join "," ((λ c, [Identifier snap_id; SQL "."; Identifier c])
                          <$> all_cols)
          ++ [SQL ",TRUE"])
    ++ [SQL " FROM "; Identifier SPLITGRAPH_META_SCHEMA; SQL ".";
        Identifier snap_id; SQL " JOIN ";
        Identifier SPLITGRAPH_META_SCHEMA; SQL "."; Identifier object_id;
        SQL " ON "]
    ++ _generate_where_clause SPLITGRAPH_META_SCHEMA snap_id ri_cols
                              object_id SPLITGRAPH_META_SCHEMA
    ++ [SQL " WHERE "; Identifier object_id;
        SQL ".sg_action_kind=2) ON CONFLICT DO NOTHING"].

(** The statement of step 2. *)
Definition insert_matching_query (staging_table snap_id : string)
    (all_cols : list string) (quals : list (Qual value))
    (qual_sql : Composed) : Composed :=
  insert_into_staging staging_table (identifier_list all_cols)
    ++ (SQL " (SELECT " :: identifier_list all_cols ++ [SQL ",FALSE"])
    ++ (SQL " FROM " :: qualified SPLITGRAPH_META_SCHEMA snap_id)
    ++ match quals with
       | [] => []
       | _ => SQL " WHERE " :: qual_sql
       end
    ++ [SQL ") ON CONFLICT DO NOTHING"].

(** [pk_only_quals = all(q.field_name in ri_cols for q in quals)] *)
Definition pk_only_quals (ri_cols : list string) (quals : list (Qual value))
  : bool :=
  forallb (λ q, bool_decide (field_name q ∈ ri_cols)) quals.

(** [execute(quals, columns)]; [staging_table] is what
    [get_random_object_id()] returns. The result is the generator handed
    to the caller and the engine as [execute] leaves it. Logging is left
    out; the table has at least one column (so that unzipping the change
    key does not fail). *)
Definition execute (self : Wrapper) (staging_table : string)
    (quals : list (Qual value)) (columns : list string)
    (eng : Engine value) : Generator value * Engine value :=
  let '(qual_sql, qual_vals) := _quals_to_postgres quals in
  match diff_chain self with
  | [] =>
      (_run_select_from_staging SPLITGRAPH_META_SCHEMA
         (snap_id (snap self)) columns false, eng)
  | _ =>
      let eng :=
        run_sql (create_staging_query staging_table (snap_id (snap self)))
                [] (<[staging_table := []]>) eng in
      let eng := run_sql (add_keep_pk_query staging_table) [] id eng in
      let pks := primary_keys (snap self) in
      let eng :=
        match pks with
        | [] => eng
        | _ => run_sql (add_primary_key_query staging_table pks) [] id eng
        end in
      let ri_cols := (get_change_key (snap self)).*1 in
      let all_cols := get_column_names (snap self) in
      let eng :=
        if pk_only_quals ri_cols quals then eng
        else
          foldl (λ eng object,
                   run_sql (insert_updated_query staging_table
                              (snap_id (snap self)) (diff_id object)
                              ri_cols all_cols)
                           []
                           (alter (insert_select pks.*1
                                     (updated_snap_rows ri_cols (snap self) object))
                                  staging_table)
                           eng)
                eng (diff_chain self) in
      let eng :=
        run_sql (insert_matching_query staging_table (snap_id (snap self))
                   all_cols quals qual_sql)
                qual_vals
                (alter (insert_select pks.*1 (matching_snap_rows quals (snap self)))
                       staging_table)
                eng in
      let eng :=
        foldl (λ eng object,
                 let eng :=
                   apply_diff_object ri_cols SPLITGRAPH_META_SCHEMA
                     object SPLITGRAPH_META_SCHEMA staging_table eng in
                 match quals with
                 | [] => eng
                 | _ => _apply_qual_filter quals SPLITGRAPH_META_SCHEMA
                          staging_table qual_sql qual_vals eng
                 end)
              eng (removelast (diff_chain self)) in
      let eng :=
        match last (diff_chain self) with
        | Some object =>
            apply_diff_object ri_cols SPLITGRAPH_META_SCHEMA
              object SPLITGRAPH_META_SCHEMA staging_table eng
        | None => eng
        end in
      (_run_select_from_staging SPLITGRAPH_META_SCHEMA staging_table
         columns true, eng)
  end.

(** *** What [execute] computes *)

(** The staging table after steps 1 and 2. *)
Definition seeded_staging (self : Wrapper) (quals : list (Qual value))
  : list (Row value * bool) :=
  let pks := (primary_keys (snap self)).*1 in
  let ri_cols := (get_change_key (snap self)).*1 in
  let t :=
    if pk_only_quals ri_cols quals then []
    else foldl (λ t object,
                  insert_select pks
                    (updated_snap_rows ri_cols (snap self) object) t)
               [] (diff_chain self) in
  insert_select pks (matching_snap_rows quals (snap self)) t.

(** One turn of the loop of step 3. *)
Definition apply_then_filter (ri_cols : list string)
    (quals : list (Qual value)) (t : list (Row value * bool))
    (object : DiffObject value) : list (Row value * bool) :=
  let t := apply_diff ri_cols true object t in
  match quals with
  | [] => t
  | _ => qual_filter_rows quals t
  end.

(** The staging table [execute] hands to the generator. *)
Definition layered_staging (self : Wrapper) (quals : list (Qual value))
  : list (Row value * bool) :=
  let ri_cols := (get_change_key (snap self)).*1 in
  let t := foldl (apply_then_filter ri_cols quals)
                 (seeded_staging self quals)
                 (removelast (diff_chain self)) in
  match last (diff_chain self) with
  | Some object => apply_diff ri_cols true object t
  | None => t
  end.

(** The statements of [execute] on its slow path, in order. *)
Definition setup_calls (self : Wrapper) (staging_table : string)
  : list (EngineCall value) :=
  [RunSql (create_staging_query staging_table (snap_id (snap self))) [];
   RunSql (add_keep_pk_query staging_table) []]
  ++ match primary_keys (snap self) with
     | [] => []
     | pks => [RunSql (add_primary_key_query staging_table pks) []]
     end.

Definition step1_calls (self : Wrapper) (staging_table : string)
  : list (EngineCall value) :=
  (λ object,
     RunSql (insert_updated_query staging_table (snap_id (snap self))
               (diff_id object) (get_change_key (snap self)).*1
               (get_column_names (snap self))) [])
    <$> diff_chain self.

Definition step2_call (self : Wrapper) (staging_table : string)
    (quals : list (Qual value)) : EngineCall value :=
  RunSql (insert_matching_query staging_table (snap_id (snap self))
            (get_column_names (snap self)) quals (_quals_to_postgres quals).1)
         (_quals_to_postgres quals).2.

Definition apply_call (staging_table : string) (object : DiffObject value)
  : EngineCall value :=
  ApplyDiffObject SPLITGRAPH_META_SCHEMA (diff_id object)
                  SPLITGRAPH_META_SCHEMA staging_table.

Definition filter_call (staging_table : string) (quals : list (Qual value))
  : EngineCall value :=
  RunSql (qual_filter_query SPLITGRAPH_META_SCHEMA staging_table
            (_quals_to_postgres quals).1)
         (_quals_to_postgres quals).2.

Definition step3_calls (staging_table : string) (quals : list (Qual value))
    (objects : list (DiffObject value)) : list (EngineCall value) :=
  objects ≫= λ object,
    apply_call staging_table object ::
      match quals with
      | [] => []
      | _ => [filter_call staging_table quals]
      end.

(** *** The staging table as a part of the materialized table *)

(** Some object of the chain has an UPDATE record for the change key of
    the row. *)
Definition updated_by (ri_cols : list string)
    (chain : list (DiffObject value)) (r : Row value) : Prop :=
  Exists (λ d, Exists (λ c, sg_action_kind c = UPDATE
                            ∧ row_key ri_cols r
                              = row_key ri_cols (change_key c))
                      (changes d)) chain.

(** Where a row of the snapshot starts out: in the staging table with
    [sg_meta_keep_pk] set (step 1), in it with the flag cleared (step 2),
    or not in it. *)
Definition initial_tag (self : Wrapper) (quals : list (Qual value))
    (s : Row value) : option bool :=
  let ri_cols := (get_change_key (snap self)).*1 in
  if decide (pk_only_quals ri_cols quals = false
             ∧ updated_by ri_cols (diff_chain self) s)
  then Some true
  else if decide (satisfies quals s) then Some false else None.

(** Rows of the materialized table, each with its place in the staging
    table. *)
Definition tagged_snapshot (self : Wrapper) (quals : list (Qual value))
  : list (Row value * option bool) :=
  (λ s, (s, initial_tag self quals s)) <$> snap_rows (snap self).

(** Keep the rows a tag map retains, under the tag it gives them. *)
Definition retag {A B} (h : A → option B) (t : list (Row value * A))
  : list (Row value * B) :=
  omap (λ x, (λ b, (x.1, b)) <$> h x.2) t.

(** The rows that are in the staging table. *)
Definition present (t : list (Row value * option bool))
  : list (Row value * bool) :=
  retag id t.

(** What holds of a row outside the rows kept for a later UPDATE: its
    flag says whether it satisfies the quals, and unless the quals are
    on the change key only, no later object updates it. *)
Definition settled (ri_cols : list string) (quals : list (Qual value))
    (rest : list (DiffObject value)) (x : Row value * option bool) : Prop :=
  x.2 ≠ Some true →
  (satisfies quals x.1 ↔ x.2 = Some false)
  ∧ (pk_only_quals ri_cols quals = false → ¬ updated_by ri_cols rest x.1).

(** The discipline of change tracking: an UPDATE record does not set a
    column of the change key. *)
Definition key_preserving (ri_cols : list string)
    (chain : list (DiffObject value)) : Prop :=
  ∀ d c col, d ∈ chain → c ∈ changes d → sg_action_kind c = UPDATE →
             col ∈ ri_cols → sg_action_data c !! col = None.
End Wrapper.

Arguments Wrapper : clear implicits.

#[global] Instance EngineCall_eq_dec {value : Type} `{EqDecision value} :
  EqDecision (EngineCall value).
Proof. solve_decision. Defined.

End FDW.

(* ===================================================================== *)
(** * A small repository to run the wrapper on *)
(* ===================================================================== *)

Module Scenario.
Import FDW.

Inductive Val : Type :=
| VNull
| VInt (z : Z)
| VText (s : string).

#[global] Instance Val_eq_dec : EqDecision Val.
Proof. solve_decision. Defined.

(** The operator [=] of Postgres on these values: unknown on NULL. *)
Definition pg_eq (x y : Val) : option bool :=
  match x, y with
  | VNull, _ | _, VNull => None
  | _, _ => Some (bool_decide (x = y))
  end.

(** Quals with [=]; [= ANY] holds when some element is equal, [= ALL] when
    all are. Other operators do not occur here and evaluate to unknown. *)
Definition pg_qual (q : Qual Val) (x : Val) : option bool :=
  match q with
  | ScalarQual _ "=" v => pg_eq x v
  | ListQual _ "=" ANY values =>
      if bool_decide (Exists (λ v, pg_eq x v = Some true) values) then Some true
      else if bool_decide (Forall (λ v, pg_eq x v = Some false) values)
           then Some false else None
  | ListQual _ "=" ALL values =>
      if bool_decide (Exists (λ v, pg_eq x v = Some false) values) then Some false
      else if bool_decide (Forall (λ v, pg_eq x v = Some true) values)
           then Some true else None
  | _ => None
  end.

Definition META : string := "splitgraph_meta".

(** Equality of the two tables on the given columns, as an ON clause. *)
Definition where_clause (schema table : string) (cols : list string)
    (table_2 schema_2 : string) : Composed :=
  SQL_join " AND "
    ((λ c, [Identifier schema; SQL "."; Identifier table; SQL ".";
            Identifier c; SQL " = ";
            Identifier schema_2; SQL "."; Identifier table_2; SQL ".";
            Identifier c]) <$> cols).

Definition row (id : Z) (v : string) : Row Val :=
  <["id" := VInt id]> (<["v" := VText v]> ∅).

(** [t(id PK, v)] with rows [(1,'a'), (2,'b'), (3,'c')]. *)
Definition snap_t : Snapshot Val :=
  mkSnapshot "o_snap" [("id", "integer")]
             [("id", "integer"); ("v", "text")]
             [row 1 "a"; row 2 "b"; row 3 "c"].

(** The same rows in a table without primary key. *)
Definition snap_nopk : Snapshot Val :=
  mkSnapshot "o_snap" []
             [("id", "integer"); ("v", "text")]
             [row 1 "a"; row 2 "b"; row 3 "c"].

(** UPDATE row 3 to [v='a']. *)
Definition diff_update_3 : DiffObject Val :=
  mkDiff "o_diff1"
         [mkChange (<["id" := VInt 3]> ∅) UPDATE (<["v" := VText "a"]> ∅)].

(** INSERT [(4,'a')]. *)
Definition diff_insert_4 : DiffObject Val :=
  mkDiff "o_diff2"
         [mkChange (<["id" := VInt 4]> ∅) INSERT (<["v" := VText "a"]> ∅)].

(** [WHERE v = 'a'] and [WHERE id = 2]. *)
Definition quals_v_a : list (Qual Val) := [ScalarQual "v" "=" (VText "a")].
Definition quals_id_2 : list (Qual Val) := [ScalarQual "id" "=" (VInt 2)].

Definition empty_engine : Engine Val := mkEngine ∅ [].

Definition run_execute (self : Wrapper Val) (quals : list (Qual Val))
    (columns : list string) : Generator Val * Engine Val :=
  execute pg_qual META where_clause self "o_staging" quals columns
          empty_engine.

(** [list(execute(quals, columns))] *)
Definition run_query (self : Wrapper Val) (quals : list (Qual Val))
    (columns : list string) : option (list (Row Val)) :=
  let '(g, eng) := run_execute self quals columns in
  '(rows, _, _) ← iterate 100 self g eng; Some rows.

End Scenario.

(* ===================================================================== *)
(** * psycopg2: rendering a statement and binding its arguments *)
(* ===================================================================== *)

Module Params.

Definition dquote : ascii := ascii_of_nat 34.

(** The name with every double quote doubled. *)
Fixpoint escape_ident (name : string) : string :=
  match name with
  | EmptyString => EmptyString
  | String c rest =>
      if Ascii.eqb c dquote
      then String dquote (String dquote (escape_ident rest))
      else String c (escape_ident rest)
  end.

(** [quote_ident]: how an [Identifier] is rendered. *)
Definition quote_ident (name : string) : string :=
  String dquote (escape_ident name ++ String dquote EmptyString).

Definition render (c : Composable) : string :=
  match c with
  | SQL text => text
  | Identifier name => quote_ident name
  end.

(** [Composed.as_string]: the pieces rendered and concatenated. *)
Fixpoint as_string (q : Composed) : string :=
  match q with
  | [] => EmptyString
  | c :: q => (render c ++ as_string q)%string
  end.

(** The [%s] placeholders the driver finds when it formats a statement
    text with its arguments, reading left to right: [%s] takes one
    argument, [%%] is a literal percent sign. [pending] says that the
    previous character was an unmatched [%]. *)
Fixpoint scan (pending : bool) (s : string) : nat :=
  match s with
  | EmptyString => 0
  | String c rest =>
      if pending
      then if Ascii.eqb c "s" then S (scan false rest) else scan false rest
      else scan (Ascii.eqb c "%") rest
  end.

Fixpoint pending_after (pending : bool) (s : string) : bool :=
  match s with
  | EmptyString => pending
  | String c rest =>
      if pending then pending_after false rest
      else pending_after (Ascii.eqb c "%") rest
  end.

(** The number of arguments a statement needs. *)
Definition count_placeholders (q : Composed) : nat :=
  scan false (as_string q).

(** No percent sign in the text. *)
Fixpoint percent_free (s : string) : bool :=
  match s with
  | EmptyString => true
  | String c rest => negb (Ascii.eqb c "%") && percent_free rest
  end.

(** The text takes [n] arguments and does not end in an unmatched percent
    sign. *)
Definition text_takes (s : string) (n : nat) : Prop :=
  scan false s = n ∧ pending_after false s = false.

Definition takes (q : Composed) (n : nat) : Prop :=
  text_takes (as_string q) n.

End Params.

(* ===================================================================== *)
(** * splitgraph.core.fdw_checkout: what a caller sees of a stream *)
(* ===================================================================== *)

Module Client.
Import FDW.

Section Client.
Context {value : Type} `{EqDecision value}.

Definition operator (q : Qual value) : string :=
  match q with ScalarQual _ op _ | ListQual _ op _ _ => op end.

(** A qual without its bound values: the column, the operator and, for a
    list operator, ANY or ALL and the number of elements. *)
Definition qual_shape (q : Qual value)
  : string * string * option (AnyOrAll * nat) :=
  match q with
  | ScalarQual field op _ => (field, op, None)
  | ListQual field op list_any_or_all values =>
      (field, op, Some (list_any_or_all, length values))
  end.

(** What the holder of a generator can do with it. *)
Inductive StreamOp : Type := CallNext | CallClose.

Definition run_op (self : Wrapper value) (st : Generator value * Engine value)
    (op : StreamOp) : Generator value * Engine value :=
  match op with
  | CallNext => let '(_, g, eng) := next self st.1 st.2 in (g, eng)
  | CallClose => close st.1 st.2
  end.

Definition run_ops (self : Wrapper value) (ops : list StreamOp)
    (g : Generator value) (eng : Engine value)
  : Generator value * Engine value :=
  foldl (run_op self) (g, eng) ops.

Definition is_rollback (c : EngineCall value) : bool :=
  match c with Rollback => true | _ => false end.

Definition is_delete_table (c : EngineCall value) : bool :=
  match c with DeleteTable _ _ => true | _ => false end.

Definition is_cursor_close (c : EngineCall value) : bool :=
  match c with CursorClose => true | _ => false end.

Definition count_calls (p : EngineCall value → bool) (eng : Engine value)
  : nat :=
  length (filter (λ c, p c = true) (calls eng)).

(** The statements with their argument lists among the calls. *)
Definition sql_calls (l : list (EngineCall value))
  : list (Composed * list value) :=
  omap (λ c, match c with
             | RunSql query arguments => Some (query, arguments)
             | _ => None
             end) l.
End Client.

End Client.

(* ===================================================================== *)
(** * splitgraph.engine: the registry of engines *)
(* ===================================================================== *)

Module Registry.
Import Config GlobalEngine.

Section GetEngine.
Context {PostgresEngine : Type}.

(** The constructor call
    [PostgresEngine(conn_params=..., name=..., autocommit=...)]; the class
    lives in [splitgraph.engine.postgres.engine]. *)
Variable new_engine :
  gmap string (option string) → string → bool → PostgresEngine.

(** The globals [get_engine] works on besides [_ENGINE]: the map
    [_ENGINES], the settings of [CONFIG], its [remotes] entry and
    [splitgraph.config.IN_FDW]. *)
Record Globals : Type := mkGlobals {
  _ENGINES : gmap string PostgresEngine;
  CONFIG : gmap string string;
  CONFIG_remotes : option (gmap string (gmap string string));
  IN_FDW : bool
}.

Definition set_ENGINES (f : gmap string PostgresEngine → gmap string PostgresEngine)
    (p : Process PostgresEngine Globals) : Process PostgresEngine Globals :=
  mkProcess (_ENGINE p)
            (mkGlobals (f (_ENGINES (world p))) (CONFIG (world p))
                       (CONFIG_remotes (world p)) (IN_FDW (world p))).

Definition lift {St A} (r : ConfigError + A) : Eff St ConfigError A :=
  match r with
  | inl e => raise e
  | inr a => mret a
  end.

(** [d[key]] *)
Definition item {V} (d : gmap string V) (key : string) : ConfigError + V :=
  match d !! key with
  | Some v => inr v
  | None => inl (KeyError key)
  end.

(** The connection parameters of a new engine called [name]. *)
Definition conn_params_of (name : string) (use_socket use_fdw_params : bool)
  : Eff (Process PostgresEngine Globals) ConfigError
        (gmap string (option string)) :=
  conn_params ←
    (if decide (name = "LOCAL")
     then
       config ← gets (λ p, CONFIG (world p));
       conn_params ← lift (_prepare_engine_config (Some <$> config));
       mret (if use_socket
             then <["SG_ENGINE_PORT" := None]>
                    (<["SG_ENGINE_HOST" := None]> conn_params)
             else conn_params)
     else
       remotes ← gets (λ p, CONFIG_remotes (world p));
       remotes ← lift (match remotes with
                       | Some remotes => inr remotes
                       | None => inl (KeyError "remotes")
                       end);
       remote ← lift (item remotes name);
       lift (_prepare_engine_config (Some <$> remote)));
  if use_fdw_params
  then
    host ← lift (item conn_params "SG_ENGINE_FDW_HOST");
    let conn_params := <["SG_ENGINE_HOST" := host]> conn_params in
    port ← lift (item conn_params "SG_ENGINE_FDW_PORT");
    mret (<["SG_ENGINE_PORT" := port]> conn_params)
  else mret conn_params.

(** [get_engine(name, use_socket, use_fdw_params, autocommit)]; [name]
    and [use_fdw_params] default to [None]. *)
Definition get_engine (name : option string) (use_socket : bool)
    (use_fdw_params : option bool) (autocommit : bool)
  : Eff (Process PostgresEngine Globals) ConfigError PostgresEngine :=
  use_fdw_params ← match use_fdw_params with
                   | None => gets (λ p, IN_FDW (world p))
                   | Some b => mret b
                   end;
  current ← gets _ENGINE;
  match
    match name with
    | None | Some EmptyString =>
        match current with
        | EngineObject engine => inl engine
        | EngineName name => inr name
        end
    | Some name => inr name
    end
  with
  | inl engine => mret engine
  | inr name =>
      engines ← gets (λ p, _ENGINES (world p));
      match engines !! name with
      | Some engine => mret engine
      | None =>
          conn_params ← conn_params_of name use_socket use_fdw_params;
          let engine := new_engine conn_params name autocommit in
          modify (set_ENGINES (<[name := engine]>));;
          mret engine
      end
  end.
End GetEngine.

Arguments Globals : clear implicits.

End Registry.

(* ===================================================================== *)
(** * splitgraph.engine.SQLEngine: table management *)
(* ===================================================================== *)

Module Tables.
Import SQLEngine.

(** [class ResultShape(Enum)] *)
Inductive ResultShape : Type :=
| NONE | ONE_ONE | ONE_MANY | MANY_ONE | MANY_MANY.

Section Implementer.
Context {Backend Exn Arg Result : Type}.

(** What the implementer of [run_sql] does on its connection with a
    statement, its arguments ([None] when there are none) and the shape
    asked for: a result, or an exception. *)
Variable run_sql_impl :
  Composed → option (list Arg) → ResultShape → Eff Backend Exn Result.

(** A Python [str] and an [int] passed as query arguments. *)
Variable text_arg : string → Arg.
Variable int_arg : Z → Arg.

(** The exceptions of [dump_table_creation] among those of the engine. *)
Variable dump_error : DumpError → Exn.

(** The other methods [copy_table] reads the catalogue with. *)
Variable table_exists : string → string → Eff (Engine Backend) Exn bool.
Variable get_primary_keys :
  string → string → Eff (Engine Backend) Exn (list (string * string)).
Variable get_column_names_types :
  string → string → Eff (Engine Backend) Exn (list (string * string)).

(** [self.run_sql(statement, arguments, return_shape)]: the statement is
    recorded and handed to the implementer. *)
Definition run_sql (statement : Composed) (arguments : option (list Arg))
    (return_shape : ResultShape) : Eff (Engine Backend) Exn Result :=
  λ e, let '(b, r) := run_sql_impl statement arguments return_shape (backend e) in
       (mkEngine (_savepoint_stack e) (statements e ++ [statement]) b, r).

Definition SET_search_path : Composed := [SQL "SET search_path TO %s"].
Definition RESET_search_path : Composed := [SQL "SET search_path TO public"].

(** [run_sql_in(schema, sql, arguments, return_shape)] *)
Definition run_sql_in (schema : string) (sql : Composed)
    (arguments : option (list Arg)) (return_shape : ResultShape)
  : Eff (Engine Backend) Exn Result :=
  run_sql SET_search_path (Some [text_arg schema]) NONE;;
  result ← run_sql sql arguments return_shape;
  run_sql RESET_search_path (Some [text_arg schema]) NONE;;
  mret result.

(** [create_table(schema, table, schema_spec, unlogged, temporary)] *)
Definition create_table (schema : option string) (table : string)
    (schema_spec : list SchemaEntry) (unlogged temporary : bool)
  : Eff (Engine Backend) Exn unit :=
  match dump_table_creation schema table schema_spec unlogged temporary with
  | inr query => run_sql query None NONE;; mret tt
  | inl e => raise (dump_error e)
  end.

(** *** [get_full_table_schema] *)

Definition _convert_type (ctype : string) : string :=
  if decide (ctype ≠ "character") then ctype else "character varying".

(** The list [get_full_table_schema] builds from [results], the rows
    [(ordinal_position, column_name, data_type)] its query returns, and
    from what [get_primary_keys] returns. *)
Definition get_full_table_schema (results : list (Z * string * string))
    (primary_keys : list (string * string)) : list SchemaEntry :=
  let pks := primary_keys.*1 in
  (λ '(o, n, dt), (o, n, _convert_type dt, bool_decide (n ∈ pks))) <$> results.

(** *** [copy_table] *)

Definition chunk_sql (chunk_key : list (string * string)) : Composed :=
  SQL "(" :: SQL_join "," ((λ p : string * string, [Identifier p.1]) <$> chunk_key)
    ++ [SQL ")"].

(** The statement and the arguments [copy_table] hands to [run_sql],
    given whether the target exists, the primary keys of the source and
    the chunk key. [limit] and [after_pk] are used when they are truthy:
    not [None], and not [0] or the empty tuple. *)
Definition copy_table_query
    (source_schema source_table target_schema target_table : string)
    (with_pk_constraints : bool) (limit : option Z)
    (after_pk : option (list Arg)) (target_exists : bool)
    (pks chunk_key : list (string * string)) : Composed * list Arg :=
  let query :=
    if negb target_exists
    then (SQL "CREATE TABLE " :: qualified target_schema target_table)
           ++ SQL " AS SELECT * FROM " :: qualified source_schema source_table
    else (SQL "INSERT INTO " :: qualified target_schema target_table)
           ++ SQL " SELECT * FROM " :: qualified source_schema source_table in
  let query_args : list Arg := [] in
  let '(query, query_args) :=
    match after_pk with
    | Some (a :: after_pk) =>
        (query ++ (SQL " WHERE " :: chunk_sql chunk_key)
           ++ [SQL (" > (" ++ str_join "," (replicate (length chunk_key) "%s")
                      ++ ")")],
         query_args ++ a :: after_pk)
    | _ => (query, query_args)
    end in
  let '(query, query_args) :=
    match limit with
    | Some limit =>
        if decide (limit = 0%Z) then (query, query_args)
        else (query ++ (SQL " ORDER BY " :: chunk_sql chunk_key)
                ++ [SQL " LIMIT %s"],
              query_args ++ [int_arg limit])
    | None => (query, query_args)
    end in
  let query :=
    match pks with
    | _ :: _ =>
        if with_pk_constraints
        then query
               ++ (SQL ";ALTER TABLE " :: qualified target_schema target_table)
               ++ (SQL " ADD PRIMARY KEY (" ::
                     SQL_join "," ((λ p : string * string, [Identifier p.1]) <$> pks))
               ++ [SQL ")"]
        else query
    | [] => query
    end in
  (query, query_args).

(** [copy_table(source_schema, source_table, target_schema, target_table,
    with_pk_constraints, limit, after_pk)] *)
Definition copy_table
    (source_schema source_table target_schema target_table : string)
    (with_pk_constraints : bool) (limit : option Z)
    (after_pk : option (list Arg)) : Eff (Engine Backend) Exn unit :=
  target_exists ← table_exists target_schema target_table;
  pks ← get_primary_keys source_schema source_table;
  chunk_key ← match pks with
              | [] => get_column_names_types source_schema source_table
              | _ => mret pks
              end;
  let '(query, query_args) :=
    copy_table_query source_schema source_table target_schema target_table
      with_pk_constraints limit after_pk target_exists pks chunk_key in
  run_sql query (Some query_args) MANY_MANY;; mret tt.
End Implementer.

End Tables.

(* ===================================================================== *)
(** * splitgraph.cloud.project.utils: merging project files *)
(* ===================================================================== *)

Module Project.

(** What the model classes raise on data they do not accept. *)
Inductive ValidationError : Type := validation_error.

(** [resolve_optional(func)]: [truthy x] is [bool(x)]; [ret] is how
    a value the wrapper returns as it is appears in the result of the
    wrapped function, which may raise. *)
Definition resolve_optional {T R} (truthy : T → bool) (ret : option T → R)
    (func : T → T → R) (left right : option T) : R :=
  match left with
  | Some l =>
      if truthy l
      then match right with
           | Some r => if truthy r then func l r else ret left
           | None => ret left
           end
      else ret right
  | None => ret right
  end.

(** The items of a list comprehension whose element expression may raise:
    evaluated left to right, the first exception ending it. *)
Fixpoint collect {A B} (f : A → ValidationError + B) (l : list A)
  : ValidationError + list B :=
  match l with
  | [] => inr []
  | x :: l =>
      match f x with
      | inl e => inl e
      | inr y =>
          match collect f l with
          | inl e => inl e
          | inr ys => inr (y :: ys)
          end
      end
  end.

Section Merge.
(** The models of [splitgraph.cloud.models] are left open: a credential,
    the values of the fields of [Metadata] and [External], and how the
    two classes turn into dictionaries
    ([.dict(by_alias=True, exclude_unset=True)], for [External] with its
    items in iteration order) and back ([parse_obj], which validates). *)
Context {Credential Metadata External MField EField : Type}.
Variable Metadata_dict : Metadata → gmap string MField.
Variable Metadata_parse_obj : gmap string MField → ValidationError + Metadata.
Variable External_items : External → list (string * EField).
Variable External_parse_obj : gmap string EField → ValidationError + External.

(** The merge of two mappings held in a field of [External], the left
    one missing when the field is unset there: the right entries over
    the left ones. *)
Variable spread : option EField → EField → EField.

(** A dictionary is truthy when it is not empty, a model object always. *)
Definition nonempty {V} (d : gmap string V) : bool := bool_decide (d ≠ ∅).
Definition always {T} (x : T) : bool := true.

(** [merge_credentials] *)
Definition merge_credentials
  : option (gmap string Credential) → option (gmap string Credential)
    → option (gmap string Credential) :=
  resolve_optional nonempty (λ creds, creds) (λ left right, Some (right ∪ left)).

(** [merge_metadata] *)
Definition merge_metadata
  : option Metadata → option Metadata → ValidationError + option Metadata :=
  resolve_optional always inr
    (λ left right,
       match Metadata_parse_obj (Metadata_dict right ∪ Metadata_dict left) with
       | inl e => inl e
       | inr merged => inr (Some merged)
       end).

(** One turn of the loop of [merge_external] over the items of the right
    object. *)
Definition merge_external_field (left_d : gmap string EField)
    (item : string * EField) : gmap string EField :=
  let '(field_name, field_value) := item in
  if decide (field_name ∈ ["credential_id"; "credential"])
  then <[field_name := field_value]>
         (delete "credential_id" (delete "credential" left_d))
  else if decide (field_name = "tables")
  then <[field_name := spread (left_d !! field_name) field_value]> left_d
  else <[field_name := field_value]> left_d.

(** The dictionary built from a list of items: a later item replaces an
    earlier one with the same key. *)
Definition dict {K V} `{Countable K} (items : list (K * V)) : gmap K V :=
  list_to_map (reverse items).

(** [left_d] as [merge_external] hands it to [External.parse_obj]. *)
Definition merge_external_dict (left right : External) : gmap string EField :=
  foldl merge_external_field (dict (External_items left))
        (External_items right).

(** [merge_external] *)
Definition merge_external
  : option External → option External → ValidationError + option External :=
  resolve_optional always inr
    (λ left right,
       match External_parse_obj (merge_external_dict left right) with
       | inl e => inl e
       | inr merged => inr (Some merged)
       end).

Record Repository : Type := mkRepository {
  namespace : string;
  repository : string;
  metadata : option Metadata;
  external : option External
}.

(** [merge_repository]: the arguments of the constructor are evaluated in
    the order they are written. *)
Definition merge_repository
  : option Repository → option Repository
    → ValidationError + option Repository :=
  resolve_optional always inr
    (λ left right,
       match merge_metadata (metadata left) (metadata right) with
       | inl e => inl e
       | inr merged_metadata =>
           match merge_external (external left) (external right) with
           | inl e => inl e
           | inr merged_external =>
               inr (Some (mkRepository (namespace left) (repository left)
                                       merged_metadata merged_external))
           end
       end).

Definition repo_key (r : Repository) : string * string :=
  (namespace r, repository r).

(** [merge_repository_lists] *)
Definition merge_repository_lists (left right : list Repository)
  : ValidationError + list Repository :=
  let left_by_repo := dict ((λ r, (repo_key r, r)) <$> left) in
  let right_by_repo := dict ((λ r, (repo_key r, r)) <$> right) in
  let all_repos := repo_key <$> left in
  let all_repos :=
    all_repos ++ (repo_key <$>
                    filter (λ r, left_by_repo !! repo_key r = None) right) in
  match
    collect (λ repo, merge_repository (left_by_repo !! repo)
                                      (right_by_repo !! repo))
            all_repos
  with
  | inl e => inl e
  | inr result => inr (omap id result)
  end.

Record RepositoriesYAML : Type := mkRepositoriesYAML {
  credentials : option (gmap string Credential);
  repositories : list Repository
}.

(** [merge_project_files] *)
Definition merge_project_files (left right : RepositoriesYAML)
  : ValidationError + RepositoriesYAML :=
  let merged_credentials :=
    merge_credentials (credentials left) (credentials right) in
  match merge_repository_lists (repositories left) (repositories right) with
  | inl e => inl e
  | inr merged => inr (mkRepositoriesYAML merged_credentials merged)
  end.
End Merge.

End Project.

(* ===================================================================== *)
(** * Properties: engine configuration *)
(* ===================================================================== *)

Section ConfigProperties.
Import Config.
Context {V : Type}.
Implicit Types (config_dict result : gmap string V).

Lemma prepare_step_inr config_dict key result result' :
  prepare_step config_dict key result = inr result' →
  result' !! key = prepared config_dict result key
  ∧ ∀ k, k ≠ key → result' !! k = result !! k.
Proof.
  unfold prepare_step, prepared.
  destruct (_ENGINE_CONFIG_DEFAULTS !! key) as [source|];
    [destruct (config_dict !! source) as [d|] eqn:Hd; [|done]|];
    destruct (config_dict !! key) as [v|] eqn:Hv; intros [= <-];
    split; intros; simplify_map_eq; done.
Qed.

Lemma prepare_step_is_inr config_dict key result :
  (∀ source, _ENGINE_CONFIG_DEFAULTS !! key = Some source →
             is_Some (config_dict !! source)) ↔
  ∃ result', prepare_step config_dict key result = inr result'.
Proof.
  unfold prepare_step.
  destruct (_ENGINE_CONFIG_DEFAULTS !! key) as [source|].
  - destruct (config_dict !! source) as [d|] eqn:Hd.
    + split; [intros _; destruct (config_dict !! key); eauto|].
      intros _ ? [= <-]. by rewrite Hd.
    + split; [intros Hs; destruct (Hs source eq_refl); congruence|].
      intros [? [=]].
  - split; [intros _; destruct (config_dict !! key); eauto|done].
Qed.

Lemma prepare_loop_lookup config_dict keys : ∀ result res,
  NoDup keys →
  prepare_loop config_dict keys result = inr res →
  ∀ k, res !! k = if decide (k ∈ keys) then prepared config_dict result k
                  else result !! k.
Proof.
  induction keys as [|key keys IH]; intros result res Hnd Hloop k;
    simpl in Hloop.
  { injection Hloop as <-. case_decide; [set_solver|done]. }
  apply NoDup_cons in Hnd as [Hkey Hnd].
  destruct (prepare_step config_dict key result) as [|result'] eqn:Hstep;
    [done|].
  apply prepare_step_inr in Hstep as [Hk Hother].
  rewrite (IH _ _ Hnd Hloop k).
  destruct (decide (k ∈ keys)) as [Hin|Hin],
           (decide (k ∈ key :: keys)) as [Hin'|Hin'];
    try (exfalso; set_solver).
  - assert (k ≠ key) by (intros ->; done).
    unfold prepared. by rewrite Hother.
  - assert (k = key) as -> by set_solver. done.
  - apply Hother. set_solver.
Qed.

Lemma prepare_loop_is_inr config_dict keys : ∀ result,
  (∀ key source, key ∈ keys → _ENGINE_CONFIG_DEFAULTS !! key = Some source →
                 is_Some (config_dict !! source)) ↔
  ∃ res, prepare_loop config_dict keys result = inr res.
Proof.
  induction keys as [|key keys IH]; intros result; simpl.
  { split; [eauto|]. intros _ ? ? ?%elem_of_nil. done. }
  split.
  - intros Hall.
    destruct (proj1 (prepare_step_is_inr config_dict key result)) as [r' ->].
    { intros. eapply Hall; [left|done]. }
    apply IH. intros. eapply Hall; [by right|done].
  - intros [res Hres] k source Hk Hsrc.
    destruct (prepare_step config_dict key result) as [|r'] eqn:Hstep; [done|].
    apply elem_of_cons in Hk as [->|Hk].
    + eapply prepare_step_is_inr; eauto.
    + eapply IH; eauto.
Qed.

Lemma _ENGINE_SPECIFIC_CONFIG_NoDup : NoDup _ENGINE_SPECIFIC_CONFIG.
Proof. unfold _ENGINE_SPECIFIC_CONFIG. repeat constructor; set_solver. Qed.

(** C8. In the configuration [_prepare_engine_config] produces,
    [SG_ENGINE_FDW_HOST] is the input's [SG_ENGINE_FDW_HOST] when that key
    is present and the input's [SG_ENGINE_HOST] otherwise, and likewise
    [SG_ENGINE_FDW_PORT] falls back to [SG_ENGINE_PORT]; a configuration is
    produced exactly when the input has both fall-back keys. *)
Theorem prepare_engine_config_fdw_defaults config_dict :
  (∀ res, _prepare_engine_config config_dict = inr res →
     res !! "SG_ENGINE_FDW_HOST" =
       match config_dict !! "SG_ENGINE_FDW_HOST" with
       | Some v => Some v
       | None => config_dict !! "SG_ENGINE_HOST"
       end
     ∧ res !! "SG_ENGINE_FDW_PORT" =
       match config_dict !! "SG_ENGINE_FDW_PORT" with
       | Some v => Some v
       | None => config_dict !! "SG_ENGINE_PORT"
       end)
  ∧ (is_Some (config_dict !! "SG_ENGINE_HOST")
     ∧ is_Some (config_dict !! "SG_ENGINE_PORT")
     ↔ ∃ res, _prepare_engine_config config_dict = inr res).
Proof.
  split.
  - intros res Hres.
    pose proof (prepare_loop_lookup _ _ _ _ _ENGINE_SPECIFIC_CONFIG_NoDup Hres)
      as Hlook.
    split.
    + rewrite (Hlook "SG_ENGINE_FDW_HOST"). done.
    + rewrite (Hlook "SG_ENGINE_FDW_PORT"). done.
  - unfold _prepare_engine_config. rewrite <- prepare_loop_is_inr. split.
    + intros [Hh Hp] key source Hkey Hsrc.
      unfold _ENGINE_CONFIG_DEFAULTS in Hsrc.
      apply lookup_insert_Some in Hsrc as [[<- <-]|[_ Hsrc]]; [done|].
      apply lookup_insert_Some in Hsrc as [[<- <-]|[_ Hsrc]]; [done|].
      done.
    + intros Hall. split.
      * apply (Hall "SG_ENGINE_FDW_HOST"); [|done].
        unfold _ENGINE_SPECIFIC_CONFIG. set_solver.
      * apply (Hall "SG_ENGINE_FDW_PORT"); [|done].
        unfold _ENGINE_SPECIFIC_CONFIG. set_solver.
Qed.
End ConfigProperties.

Lemma prepare_engine_config_fdw_defaults_witness :
  let config_dict : gmap string string :=
    <["SG_ENGINE_HOST" := "localhost"]>
      (<["SG_ENGINE_PORT" := "5432"]>
         (<["SG_ENGINE_FDW_PORT" := "5433"]> ∅)) in
  ∃ res, Config._prepare_engine_config config_dict = inr res
         ∧ res !! "SG_ENGINE_FDW_HOST" = Some "localhost"
         ∧ res !! "SG_ENGINE_FDW_PORT" = Some "5433".
Proof.
  intros config_dict.
  destruct (prepare_engine_config_fdw_defaults config_dict) as [Hprop Hex].
  destruct (proj1 Hex) as [res Hres].
  { split; vm_compute; eauto. }
  exists res. split; [done|].
  destruct (Hprop res Hres) as [-> ->]. split; reflexivity.
Defined.

(* ===================================================================== *)
(** * Properties: the scoped engine override *)
(* ===================================================================== *)

Section SwitchEngineProperties.
Import GlobalEngine.
Context {PostgresEngine World Exn A : Type}.
Implicit Types (p : Process PostgresEngine World)
               (body : Eff (Process PostgresEngine World) Exn A).

Lemma switch_engine_unfold engine body p :
  switch_engine engine body p =
  let inside := body (mkProcess (EngineObject engine) (world p)) in
  (mkProcess (_ENGINE p) (world inside.1), inside.2).
Proof.
  unfold switch_engine, try_finally, set_ENGINE, modify, gets, mbind, Eff_bind.
  simpl. by destruct (body _) as [p' [a|e]].
Qed.

(** C9. Whatever the body does, and whether it returns or raises, after
    [switch_engine(e)] exits the global [_ENGINE] is what it was before
    entry; the body runs in a process whose [_ENGINE] is [e] (reading the
    global first thing inside gives [e]), and its outcome is passed on. *)
Theorem switch_engine_restores engine body p :
  _ENGINE (switch_engine engine body p).1 = _ENGINE p
  ∧ (switch_engine engine body p).2
    = (body (mkProcess (EngineObject engine) (world p))).2
  ∧ world (switch_engine engine body p).1
    = world (body (mkProcess (EngineObject engine) (world p))).1
  ∧ (switch_engine engine (gets _ENGINE) p).2
    = @Returned Exn _ (EngineObject engine).
Proof.
  rewrite switch_engine_unfold. simpl. repeat split; done.
Qed.
End SwitchEngineProperties.

(* ===================================================================== *)
(** * Properties: savepoints *)
(* ===================================================================== *)

Section SavepointProperties.
Import SQLEngine.
Context {Backend Exn A : Type}.
Implicit Types (eng : Engine Backend) (body : Eff (Engine Backend) Exn A).

Lemma savepoint_unfold name body eng :
  savepoint (Exn:=Exn) name body eng =
  (released name (body (entered name eng)).1, (body (entered name eng)).2).
Proof.
  unfold savepoint, try_finally, savepoint_exit, run_sql, stack_append,
    stack_pop, modify, gets, mbind, Eff_bind, mret, Eff_ret, released, entered.
  simpl. destruct (body _) as [e1 r]. simpl.
  destruct (decide (_savepoint_stack e1 ≠ [] ∧ _)) as [[Hne Hlast]|Hn].
  - rewrite decide_True by done. done.
  - rewrite decide_False; [done|].
    intros Hlast. apply Hn. split; [|done].
    intros E. by rewrite E in Hlast.
Qed.

(** C7 (as amended). [savepoint(name)] runs [SAVEPOINT name] and pushes
    [name] before the body.  On every exit path, normal or error, the
    outcome of the body is passed on and the [finally] block pops [name]
    and runs [RELEASE SAVEPOINT name] exactly when [name] is on top of the
    stack at that point; otherwise it runs nothing and leaves the stack
    alone.  So when the body leaves the stack as it found it, the stack on
    exit is the stack on entry and the release is the last statement
    run. *)
Theorem savepoint_scoped name body eng e1 r :
  body (entered name eng) = (e1, r) →
  _savepoint_stack (entered name eng) = _savepoint_stack eng ++ [name]
  ∧ statements (entered name eng) = statements eng ++ [SAVEPOINT name]
  ∧ (savepoint name body eng).2 = r
  ∧ (last (_savepoint_stack e1) = Some name →
     (savepoint name body eng).1
     = mkEngine (removelast (_savepoint_stack e1))
                (statements e1 ++ [RELEASE_SAVEPOINT name]) (backend e1))
  ∧ (last (_savepoint_stack e1) ≠ Some name →
     (savepoint name body eng).1 = e1)
  ∧ (_savepoint_stack e1 = _savepoint_stack eng ++ [name] →
     _savepoint_stack (savepoint name body eng).1 = _savepoint_stack eng
     ∧ last (statements (savepoint name body eng).1)
       = Some (RELEASE_SAVEPOINT name)).
Proof.
  intros Hbody. rewrite savepoint_unfold, Hbody. simpl.
  split; [done|]. split; [done|]. split; [done|].
  unfold released. split; [|split].
  - intros Hlast. by rewrite decide_True.
  - intros Hlast. by rewrite decide_False.
  - intros Hstack. rewrite Hstack, last_snoc, decide_True by done. simpl.
    by rewrite removelast_last, last_snoc.
Qed.
End SavepointProperties.

(** C7 (as stated) fails: on this error exit no [RELEASE SAVEPOINT] is run. *)
Lemma savepoint_release_not_on_every_exit :
  let eng := SQLEngine.mkEngine [] [] tt in
  let out := SQLEngine.savepoint "sp" SQLEngine.failing_body eng in
  out.2 = Raised "database error"
  ∧ SQLEngine.statements out.1
    = [SQLEngine.SAVEPOINT "sp"; [SQL "ROLLBACK TO "; Identifier "sp"]]
  ∧ SQLEngine.RELEASE_SAVEPOINT "sp" ∉ SQLEngine.statements out.1.
Proof.
  simpl. split; [reflexivity|]. split; [reflexivity|].
  vm_compute. intros H. repeat (apply elem_of_cons in H as [H|H]; [discriminate|]).
  by apply elem_of_nil in H.
Qed.

Lemma savepoint_scoped_witness :
  let eng := SQLEngine.mkEngine ["outer"] [] tt in
  let out := SQLEngine.savepoint (Exn:=string) "sp" (mret 7%Z) eng in
  out.2 = Returned 7%Z
  ∧ SQLEngine._savepoint_stack out.1 = ["outer"]
  ∧ last (SQLEngine.statements out.1) = Some (SQLEngine.RELEASE_SAVEPOINT "sp").
Proof.
  intros eng out.
  destruct (savepoint_scoped (Exn:=string) "sp" (mret 7%Z) eng
              (SQLEngine.entered "sp" eng) (Returned 7%Z) eq_refl)
    as (_ & _ & Hr & _ & _ & Hbal).
  split; [exact Hr|]. apply Hbal. reflexivity.
Defined.

(* ===================================================================== *)
(** * Properties: table DDL *)
(* ===================================================================== *)

Section CompareProperties.
Import SQLEngine.

#[local] Instance Z_TotalCompare : TotalCompare Z.compare.
Proof.
  split.
  - apply Z.compare_eq_iff.
  - intros x y. apply Z.compare_antisym.
  - intros x y z. rewrite !Z.compare_lt_iff. lia.
Qed.

#[local] Instance bool_TotalCompare : TotalCompare bool_compare.
Proof. split; intros [] []; try intros []; simpl; try done; split; done. Qed.

#[local] Instance string_TotalCompare : TotalCompare String_as_OT.compare.
Proof.
  pose proof String_as_OT.lt_strorder as [Hirr Htr].
  assert (∀ x, String_as_OT.compare x x = Eq) as Hrefl.
  { intros x. destruct (String_as_OT.compare_spec x x) as [?|Hlt|Hlt];
      [done|by apply Hirr in Hlt..]. }
  split.
  - intros x y. split; [|intros ->; apply Hrefl].
    by destruct (String_as_OT.compare_spec x y).
  - intros x y.
    destruct (String_as_OT.compare_spec x y) as [->|Hxy|Hyx]; simpl.
    + apply Hrefl.
    + destruct (String_as_OT.compare_spec y x) as [->|Hyx|Hxy']; [|  |done].
      * by apply Hirr in Hxy.
      * destruct (Hirr x). by apply (Htr x y x).
    + exact Hyx.
  - intros x y z. apply Htr.
Qed.

Lemma compare_refl `{TotalCompare A c} x : c x x = Eq.
Proof. by apply (compare_eq (c:=c)). Qed.

Lemma compare_gt_lt `{TotalCompare A c} x y : c x y = Gt ↔ c y x = Lt.
Proof.
  rewrite (compare_opp (c:=c) x y). destruct (c x y); simpl; split; done.
Qed.

#[local] Instance pair_TotalCompare `{TotalCompare A cA, TotalCompare B cB} :
  TotalCompare (pair_compare cA cB).
Proof.
  split; unfold pair_compare, lex.
  - intros [a b] [a' b']; simpl.
    destruct (cA a a') eqn:Ha.
    + apply compare_eq in Ha as ->. rewrite compare_eq. naive_solver.
    + split; [done|]. intros [= -> ->]. by rewrite compare_refl in Ha.
    + split; [done|]. intros [= -> ->]. by rewrite compare_refl in Ha.
  - intros [a b] [a' b']; simpl.
    rewrite (compare_opp (c:=cA) a a'), (compare_opp (c:=cB) b b').
    by destruct (cA a a').
  - intros [a b] [a' b'] [a'' b'']; simpl.
    destruct (cA a a') eqn:H1; [|intros _|done].
    + apply compare_eq in H1 as ->.
      destruct (cA a' a'') eqn:H2; [|done..].
      apply compare_lt_trans.
    + destruct (cA a' a'') eqn:H2; [|intros _|done].
      * apply compare_eq in H2 as ->. by rewrite H1.
      * by rewrite (compare_lt_trans _ _ _ H1 H2).
Qed.

#[local] Instance entry_TotalCompare : TotalCompare entry_compare.
Proof. unfold entry_compare. apply _. Qed.

#[local] Instance entry_le_total : Total entry_le.
Proof.
  intros a b. unfold entry_le.
  destruct (entry_compare a b) eqn:Hab; [by left..|].
  right. apply compare_gt_lt in Hab. by rewrite Hab.
Qed.

#[local] Instance entry_le_antisymm : AntiSymm (=) entry_le.
Proof.
  intros a b Hab Hba. unfold entry_le in *.
  destruct (entry_compare a b) eqn:Hc; [by apply compare_eq in Hc| |done].
  apply compare_gt_lt in Hc. done.
Qed.

#[local] Instance entry_le_trans : Transitive entry_le.
Proof.
  intros a b c Hab Hbc. unfold entry_le in *.
  destruct (entry_compare a b) eqn:H1; [| |done].
  - by apply compare_eq in H1 as ->.
  - destruct (entry_compare b c) eqn:H2; [| |done].
    + apply compare_eq in H2 as <-. by rewrite H1.
    + by rewrite (compare_lt_trans _ _ _ H1 H2).
Qed.

Lemma entry_le_ordinal a b :
  entry_le a b → (ordinal_position a ≤ ordinal_position b)%Z.
Proof.
  destruct a as [[[o n] t] p], b as [[[o' n'] t'] p'].
  unfold entry_le, entry_compare, pair_compare, lex, ordinal_position; simpl.
  destruct (o ?= o')%Z eqn:Ho; intros Hle.
  - rewrite Z.compare_eq_iff in Ho. lia.
  - rewrite Z.compare_lt_iff in Ho. lia.
  - by destruct Hle.
Qed.

(** Sorting forgets the order the entries were given in. *)
Lemma sorted_Permutation spec1 spec2 :
  spec1 ≡ₚ spec2 → sorted spec1 = sorted spec2.
Proof.
  intros Hp. unfold sorted. apply (Sorted_unique entry_le).
  - apply Sorted_merge_sort, _.
  - apply Sorted_merge_sort, _.
  - by rewrite !merge_sort_Permutation.
Qed.

Lemma sorted_by_ordinal spec :
  Sorted (λ a b, (ordinal_position a ≤ ordinal_position b)%Z) (sorted spec).
Proof.
  pose proof (Sorted_merge_sort entry_le spec) as Hs.
  unfold sorted. induction Hs as [|x l Hs IH Hhd]; constructor; [done|].
  destruct Hhd; constructor. by apply entry_le_ordinal.
Qed.
End CompareProperties.

Section DumpTableCreationProperties.
Import SQLEngine.

Lemma identifiers_app q1 q2 :
  identifiers (q1 ++ q2) = identifiers q1 ++ identifiers q2.
Proof. unfold identifiers. apply omap_app. Qed.

Lemma identifiers_join_names sep names :
  identifiers (SQL_join sep ((λ c, [Identifier c]) <$> names)) = names.
Proof.
  induction names as [|c [|c' names] IH]; [done..|].
  simpl in *. by rewrite IH.
Qed.

(** Induction on a text two characters at a time. *)
Lemma string_ind2 (P : string → Prop) :
  P EmptyString → (∀ c, P (String c EmptyString)) →
  (∀ c c' s, P s → P (String c' s) → P (String c (String c' s))) →
  ∀ s, P s.
Proof.
  intros H0 H1 H2.
  assert (∀ s, P s ∧ ∀ c, P (String c s)) as H; [|intros s; apply H].
  induction s as [|a s [IH1 IH2]]; [split; [done|apply H1]|].
  split; [apply IH2|]. intros c. by apply H2.
Qed.

Lemma literal_pieces_cons c rest :
  literal_pieces (String c rest)
  = if is_brace c
    then match rest with
         | String c' rest' =>
             if Ascii.eqb c c'
             then cons (String c EmptyString) <$> literal_pieces rest'
             else None
         | EmptyString => None
         end
    else (λ pieces, match pieces with
                    | [] => [String c EmptyString]
                    | piece :: pieces => String c piece :: pieces
                    end) <$> literal_pieces rest.
Proof. reflexivity. Qed.

Lemma literal_pieces_nil text :
  literal_pieces text = Some [] → text = EmptyString.
Proof.
  destruct text as [|c rest]; [done|]. rewrite literal_pieces_cons.
  destruct (is_brace c).
  - destruct rest as [|c' rest']; [done|].
    destruct (Ascii.eqb c c'); [|done]. by destruct (literal_pieces rest').
  - by destruct (literal_pieces rest) as [[|? ?]|].
Qed.

(** Text without braces is one piece. *)
Lemma literal_pieces_brace_free text :
  brace_free text = true →
  literal_pieces text
  = Some (match text with EmptyString => [] | _ => [text] end).
Proof.
  induction text as [|c rest IH]; [done|]. cbn [brace_free].
  intros [Hc Hrest]%andb_prop. apply negb_true_iff in Hc.
  rewrite literal_pieces_cons, Hc, (IH Hrest). by destruct rest.
Qed.

Lemma last_char_cons c text x :
  last_char text = Some x → last_char (String c text) = Some x.
Proof. by destruct text. Qed.

Lemma last_char_app text suffix x :
  last_char suffix = Some x → last_char (text ++ suffix) = Some x.
Proof.
  intros Hx. induction text as [|c text IH]; [done|].
  change (last_char (String c (text ++ suffix)) = Some x).
  by apply last_char_cons.
Qed.

(** A piece of literal text ends with a brace or where the text ends. *)
Lemma literal_pieces_last text : ∀ pieces,
  literal_pieces text = Some pieces →
  Forall (λ piece, ∃ c, last_char piece = Some c
                        ∧ (is_brace c = true ∨ last_char text = Some c))
         pieces.
Proof.
  induction text as [|c|c c' s IH1 IH2] using string_ind2; intros pieces Hp.
  - injection Hp as <-. constructor.
  - rewrite literal_pieces_cons in Hp.
    destruct (is_brace c) eqn:Hc; [done|]. injection Hp as <-.
    constructor; [|constructor]. exists c. eauto.
  - rewrite literal_pieces_cons in Hp. destruct (is_brace c) eqn:Hc.
    + destruct (Ascii.eqb c c') eqn:Hcc; [|done].
      destruct (literal_pieces s) as [ps|] eqn:Hs; [|done].
      injection Hp as <-. constructor; [exists c; eauto|].
      eapply Forall_impl; [by apply IH1|].
      intros piece (x & Hx & [Hb|Hl]); exists x; (split; [done|]);
        [by left|right]. by do 2 apply last_char_cons.
    + destruct (literal_pieces (String c' s)) as [[|p ps]|] eqn:Hs; [| |done].
      * by apply literal_pieces_nil in Hs.
      * injection Hp as <-. specialize (IH2 _ eq_refl).
        apply Forall_cons in IH2 as [(x & Hx & Hor) Hrest]. constructor.
        -- exists x. split; [by apply last_char_cons|].
           destruct Hor; [by left|right; by apply last_char_cons].
        -- eapply Forall_impl; [done|].
           intros piece (y & Hy & [?|?]); exists y; (split; [done|]);
             [by left|right; by apply last_char_cons].
Qed.

Lemma is_brace_not_space c : is_brace c = true → Ascii.eqb c " " = false.
Proof.
  unfold is_brace. intros [Hc|Hc]%orb_prop; apply Ascii.eqb_eq in Hc as ->;
    done.
Qed.

(** A type name between a space and the end of a column definition: the
    stretch of the template is literal text exactly when the braces of
    the type name are doubled. *)
Lemma format_safe_app text suffix :
  suffix = " " ∨ suffix = " ," →
  format_safe (text ++ suffix) ↔ format_safe text.
Proof.
  intros Hsuf. unfold format_safe.
  induction text as [|c|c c' s IH1 IH2] using string_ind2.
  - split; intros _; [by eexists|]. destruct Hsuf as [-> | ->]; by eexists.
  - change (String c EmptyString ++ suffix)%string with (String c suffix).
    rewrite !literal_pieces_cons. destruct (is_brace c) eqn:Hc.
    + destruct Hsuf as [-> | ->]; by rewrite (is_brace_not_space c Hc).
    + rewrite !fmap_is_Some. split; intros _; [by eexists|].
      destruct Hsuf as [-> | ->]; by eexists.
  - change (String c (String c' s) ++ suffix)%string
      with (String c (String c' (s ++ suffix))).
    rewrite !literal_pieces_cons. destruct (is_brace c).
    + destruct (Ascii.eqb c c'); [|done]. by rewrite !fmap_is_Some.
    + rewrite !fmap_is_Some. apply IH2.
Qed.

Lemma literal_segment_is_Some ctype suffix :
  suffix = " " ∨ suffix = " ," →
  is_Some (literal (" " ++ ctype ++ suffix)) ↔ format_safe ctype.
Proof.
  intros Hsuf. unfold literal. rewrite fmap_is_Some.
  change (" " ++ ctype ++ suffix)%string with (String " " (ctype ++ suffix)).
  rewrite literal_pieces_cons. change (is_brace " ") with false. cbv iota.
  rewrite fmap_is_Some. by apply format_safe_app.
Qed.

Lemma column_defs_one e :
  column_defs [e]
  = pieces ← literal (" " ++ e.1.2 ++ " ");
    Some (Identifier (column_name e) :: pieces).
Proof. by destruct e as [[[o n] t] p]. Qed.

Lemma column_defs_more e e' spec :
  column_defs (e :: e' :: spec)
  = pieces ← literal (" " ++ e.1.2 ++ " ,");
    defs ← column_defs (e' :: spec);
    Some (Identifier (column_name e) :: pieces ++ defs).
Proof. by destruct e as [[[o n] t] p]. Qed.

(** The column definitions can be formatted exactly when the braces of
    every type name are doubled. *)
Lemma column_defs_is_Some spec :
  is_Some (column_defs spec) ↔ Forall (λ e, format_safe e.1.2) spec.
Proof.
  induction spec as [|e [|e' spec] IH].
  - split; [constructor|by eexists].
  - rewrite column_defs_one, Forall_singleton.
    rewrite <- (literal_segment_is_Some e.1.2 " ") by eauto.
    destruct (literal _); split; intros [? ?]; by eauto.
  - rewrite column_defs_more, Forall_cons, <- IH.
    rewrite <- (literal_segment_is_Some e.1.2 " ,") by eauto.
    destruct (literal _), (column_defs (e' :: spec));
      split; first [intros [[? ?] [? ?]]|intros [? ?]]; by eauto.
Qed.

Lemma identifiers_literal text pieces :
  literal text = Some pieces → identifiers pieces = [].
Proof.
  unfold literal. destruct (literal_pieces text) as [ps|]; [|done].
  intros [= <-]. by induction ps.
Qed.

Lemma identifiers_column_defs spec : ∀ defs,
  column_defs spec = Some defs → identifiers defs = column_name <$> spec.
Proof.
  induction spec as [|e [|e' spec] IH]; intros defs Hdefs.
  - by injection Hdefs as <-.
  - rewrite column_defs_one in Hdefs.
    destruct (literal _) as [pieces|] eqn:Hl; [|done]. injection Hdefs as <-.
    change (identifiers (Identifier ?n :: ?l)) with (n :: identifiers l).
    by rewrite (identifiers_literal _ _ Hl).
  - rewrite column_defs_more in Hdefs.
    destruct (literal _) as [pieces|] eqn:Hl; [|done].
    destruct (column_defs (e' :: spec)) as [defs'|]; [|done].
    injection Hdefs as <-.
    change (identifiers (Identifier ?n :: ?l)) with (n :: identifiers l).
    rewrite identifiers_app, (identifiers_literal _ _ Hl), (IH defs' eq_refl).
    done.
Qed.

(** The pieces of the column definitions: names, and pieces of the text
    of a type name that is followed by a space, or by a space and a
    comma. *)
Lemma elem_of_column_defs spec : ∀ defs c,
  column_defs spec = Some defs → c ∈ defs →
  (∃ name, c = Identifier name)
  ∨ ∃ e suffix pieces piece,
      e ∈ spec ∧ (suffix = " " ∨ suffix = " ,")
      ∧ literal_pieces (" " ++ e.1.2 ++ suffix) = Some pieces
      ∧ piece ∈ pieces ∧ c = SQL piece.
Proof.
  assert (∀ text pieces c, literal text = Some pieces → c ∈ pieces →
            ∃ ps piece, literal_pieces text = Some ps ∧ piece ∈ ps
                        ∧ c = SQL piece) as Hlit.
  { unfold literal. intros text pieces c Hl Hc.
    destruct (literal_pieces text) as [ps|]; [|done]. injection Hl as <-.
    apply list_elem_of_fmap in Hc as (piece & -> & Hp). eauto. }
  induction spec as [|e [|e' spec] IH]; intros defs c Hdefs Hc.
  - injection Hdefs as <-. by apply elem_of_nil in Hc.
  - rewrite column_defs_one in Hdefs.
    destruct (literal _) as [pieces|] eqn:Hl; [|done]. injection Hdefs as <-.
    apply elem_of_cons in Hc as [->|Hc]; [eauto|]. right.
    destruct (Hlit _ _ _ Hl Hc) as (ps & piece & Hps & Hp & ->).
    exists e, " ", ps, piece. repeat split; eauto. left.
  - rewrite column_defs_more in Hdefs.
    destruct (literal _) as [pieces|] eqn:Hl; [|done].
    destruct (column_defs (e' :: spec)) as [defs'|]; [|done].
    injection Hdefs as <-.
    apply elem_of_cons in Hc as [->|Hc]; [eauto|].
    apply elem_of_app in Hc as [Hc|Hc].
    + right. destruct (Hlit _ _ _ Hl Hc) as (ps & piece & Hps & Hp & ->).
      exists e, " ,", ps, piece. repeat split; eauto. left.
    + destruct (IH defs' c eq_refl Hc)
        as [?|(e0 & suffix & ps & piece & He0 & ? & ? & ? & ?)]; [eauto|].
      right. exists e0, suffix, ps, piece. repeat split; eauto. by right.
Qed.

Lemma column_defs_no_pk_clause spec defs :
  column_defs spec = Some defs → SQL ", PRIMARY KEY (" ∉ defs.
Proof.
  intros Hdefs Hin.
  destruct (elem_of_column_defs _ _ _ Hdefs Hin)
    as [[? [=]]|(e & suffix & ps & piece & _ & Hsuf & Hps & Hp & [= <-])].
  apply literal_pieces_last in Hps.
  rewrite Forall_forall in Hps. destruct (Hps _ Hp) as (x & Hx & Hor).
  injection Hx as <-. destruct Hor as [?|Hlast]; [done|].
  change (" " ++ e.1.2 ++ suffix)%string
    with (String " " (e.1.2 ++ suffix)) in Hlast.
  destruct Hsuf as [-> | ->].
  - rewrite (last_char_cons _ _ " ") in Hlast; [done|].
    by apply last_char_app.
  - rewrite (last_char_cons _ _ ",") in Hlast; [done|].
    by apply last_char_app.
Qed.

Lemma pk_clause_identifiers pk_cols :
  identifiers (pk_clause pk_cols) = pk_cols.
Proof.
  unfold pk_clause. simpl. rewrite identifiers_app, identifiers_join_names.
  simpl. apply app_nil_r.
Qed.

(** The statement [dump_table_creation] returns, when it returns one. *)
Lemma dump_table_creation_inr schema table spec unlogged temporary q :
  dump_table_creation schema table spec unlogged temporary = inr q →
  ∃ target defs,
    (if temporary then Some [Identifier table]
     else s ← schema; Some (qualified s table)) = Some target
    ∧ column_defs (sorted spec) = Some defs
    ∧ q = (SQL ("CREATE " ++ (if temporary then "TEMPORARY"
                              else if unlogged then "UNLOGGED"
                              else EmptyString) ++ " TABLE ")
             :: target ++ SQL " (" :: defs)
          ++ match column_name <$> filter (λ e, is_pk e = true) (sorted spec)
             with
             | [] => [SQL ")"]
             | pk_cols => pk_clause pk_cols
             end
          ++ (if unlogged then [SQL " WITH(autovacuum_enabled=false)"]
              else []).
Proof.
  unfold dump_table_creation. intros Hq.
  set (pk_cols := column_name <$> filter _ _) in *.
  match type of Hq with
  | match ?t with _ => _ end = _ => destruct t as [target|] eqn:Htarget
  end; [|done].
  destruct (column_defs (sorted spec)) as [defs|]; [|done].
  exists target, defs. split; [done|]. split; [done|].
  injection Hq as <-.
  destruct temporary, unlogged, pk_cols;
    cbn [app]; rewrite <- ?(assoc_L (++)), ?app_nil_r; by cbn [app].
Qed.

(** When [dump_table_creation] returns a statement. *)
Lemma dump_table_creation_is_inr schema table spec unlogged temporary :
  (temporary = true ∨ is_Some schema) ∧ Forall (λ e, format_safe e.1.2) spec
  ↔ ∃ q, dump_table_creation schema table spec unlogged temporary = inr q.
Proof.
  assert (Forall (λ e, format_safe e.1.2) spec
          ↔ is_Some (column_defs (sorted spec))) as ->.
  { rewrite column_defs_is_Some. unfold sorted.
    by rewrite merge_sort_Permutation. }
  unfold dump_table_creation. split.
  - intros [Htarget [defs ->]].
    destruct temporary; [by eexists|].
    destruct Htarget as [[=]|[s ->]]. by eexists.
  - intros [q Hq].
    destruct temporary, schema as [s|]; cbn in Hq; try done;
      (split; [eauto|]);
      by destruct (column_defs (sorted spec)); [eexists|].
Qed.

(** C10. [dump_table_creation] sorts the schema spec first: two specs that
    are permutations of each other give the same result. It is a
    statement exactly when the table is temporary or has a schema name and
    the braces in the type names, if there are any, are doubled as the
    template of the column definitions needs them (the code raises
    otherwise); in the statement the columns come in ordinal order, and
    the PRIMARY KEY clause is there exactly when some entry has [is_pk]
    set. *)
Theorem dump_table_creation_canonical schema table spec1 spec2
    unlogged temporary :
  spec1 ≡ₚ spec2 →
  dump_table_creation schema table spec1 unlogged temporary
  = dump_table_creation schema table spec2 unlogged temporary
  ∧ ((temporary = true ∨ is_Some schema)
     ∧ Forall (λ e, format_safe e.1.2) spec1
     ↔ ∃ q, dump_table_creation schema table spec1 unlogged temporary
            = inr q)
  ∧ ∀ q, dump_table_creation schema table spec1 unlogged temporary = inr q →
      sorted spec1 ≡ₚ spec1
      ∧ Sorted (λ a b, (ordinal_position a ≤ ordinal_position b)%Z)
               (sorted spec1)
      ∧ identifiers q
        = target_names schema table temporary
            ++ (column_name <$> sorted spec1)
            ++ (column_name <$> filter (λ e, is_pk e = true) (sorted spec1))
      ∧ (SQL ", PRIMARY KEY (" ∈ q ↔ ∃ e, e ∈ spec1 ∧ is_pk e = true).
Proof.
  intros Hperm. split.
  { unfold dump_table_creation. by rewrite (sorted_Permutation _ _ Hperm). }
  split; [apply dump_table_creation_is_inr|].
  intros q Hq.
  assert (sorted spec1 ≡ₚ spec1) as Hsp by apply merge_sort_Permutation.
  split; [done|]. split; [apply sorted_by_ordinal|].
  apply dump_table_creation_inr in Hq as (target & defs & Htarget & Hdefs & ->).
  assert (identifiers target = target_names schema table temporary
          ∧ SQL ", PRIMARY KEY (" ∉ target) as [Htn Htpk].
  { unfold target_names.
    destruct temporary; [|destruct schema as [s|]; [|done]];
      injection Htarget as <-; (split; [done|]); unfold qualified;
      intros H; repeat (apply elem_of_cons in H as [H|H]; [done|]);
      by apply elem_of_nil in H. }
  set (pks := filter (λ e, is_pk e = true) (sorted spec1)) in *.
  assert ((∃ e, e ∈ spec1 ∧ is_pk e = true) ↔ pks ≠ []) as Hpk.
  { split.
    - intros (e & He & Hp) Hnil.
      assert (e ∈ pks) as Hin by (apply list_elem_of_filter; by rewrite Hsp).
      rewrite Hnil in Hin. by apply elem_of_nil in Hin.
    - intros Hne. destruct pks as [|e pks'] eqn:Heq; [done|].
      assert (e ∈ pks) as Hin by (rewrite Heq; left).
      apply list_elem_of_filter in Hin as [Hp Hin].
      exists e. by rewrite <- Hsp. }
  rewrite Hpk.
  set (head := SQL _ :: target ++ SQL " (" :: defs).
  assert (SQL ", PRIMARY KEY (" ∉ head) as Hhead.
  { unfold head. rewrite elem_of_cons, elem_of_app, elem_of_cons.
    pose proof (column_defs_no_pk_clause _ _ Hdefs).
    intros [Hc|[?|[?|?]]];
      first [done | by destruct temporary, unlogged]. }
  assert (identifiers head
          = target_names schema table temporary
              ++ (column_name <$> sorted spec1)) as Hids.
  { unfold head. change (identifiers (SQL ?t :: ?l)) with (identifiers l).
    rewrite identifiers_app, Htn.
    change (identifiers (SQL ?t :: ?l)) with (identifiers l).
    by rewrite (identifiers_column_defs _ _ Hdefs). }
  destruct pks as [|e pks'] eqn:Heq; cbn [fmap list_fmap].
  - (* no primary key *)
    split.
    + rewrite !identifiers_app, Hids.
      destruct unlogged; simpl; by rewrite !app_nil_r.
    + split; [|done]. rewrite !elem_of_app.
      intros [?|[Hc|Hw]]; [done| |].
      * by apply list_elem_of_singleton in Hc.
      * destruct unlogged; [by apply list_elem_of_singleton in Hw|].
        by apply elem_of_nil in Hw.
  - change (column_name e :: (column_name <$> pks'))
      with (column_name <$> e :: pks').
    split.
    + rewrite !identifiers_app, Hids, pk_clause_identifiers.
      destruct unlogged; simpl; by rewrite ?app_nil_r, <- ?(assoc_L (++)).
    + split; [done|]. intros _. rewrite !elem_of_app. right. left.
      unfold pk_clause. left.
Qed.
End DumpTableCreationProperties.

Lemma dump_table_creation_canonical_witness :
  let spec1 : list SQLEngine.SchemaEntry :=
    [(2%Z, "v", "text", false); (1%Z, "id", "integer", true)] in
  let spec2 : list SQLEngine.SchemaEntry :=
    [(1%Z, "id", "integer", true); (2%Z, "v", "text", false)] in
  ∃ q,
    SQLEngine.dump_table_creation (Some "public") "t" spec1 false false = inr q
    ∧ SQLEngine.dump_table_creation (Some "public") "t" spec2 false false
      = inr q
    ∧ identifiers q = ["public"; "t"; "id"; "v"; "id"]
    ∧ SQL ", PRIMARY KEY (" ∈ q.
Proof.
  intros spec1 spec2.
  destruct (dump_table_creation_canonical (Some "public") "t" spec1 spec2
              false false) as (Hsame & Hmade & Hprops).
  { apply perm_swap. }
  destruct (proj1 Hmade) as [q Hq].
  { split; [right; by eexists|]. repeat constructor; by eexists. }
  exists q. split; [exact Hq|]. split; [by rewrite <- Hsame|].
  destruct (Hprops q Hq) as (_ & _ & Hids & Hpk).
  split; [rewrite Hids; reflexivity|].
  apply Hpk. exists (1%Z, "id", "integer", true). split; [|reflexivity].
  right. left.
Defined.

(* ===================================================================== *)
(** * Properties: qualifier translation *)
(* ===================================================================== *)

Section QualTranslation.
Import FDW.
Context {value : Type}.
Implicit Types (q : Qual value) (quals : list (Qual value)).

Lemma string_app_assoc (s1 s2 s3 : string) :
  ((s1 ++ s2) ++ s3 = s1 ++ s2 ++ s3)%string.
Proof.
  induction s1 as [|a s1 IH]; [done|].
  change (String a ((s1 ++ s2) ++ s3) = String a (s1 ++ s2 ++ s3))%string.
  by f_equal.
Qed.

Lemma placeholders_fmap (values : list value) :
  str_join "," ((λ _, "%s") <$> values) = placeholders (length values).
Proof.
  unfold placeholders.
  induction values as [|v [|v' values] IH]; [done..|].
  simpl in *. by rewrite IH.
Qed.

(** What [_qual_to_pg] returns for one qual is the fragment of the spec. *)
Lemma _qual_to_pg_spec q : _qual_to_pg q = qual_fragment_spec q.
Proof.
  destruct q as [field op v|field op [] values]; simpl; [done|..];
    by rewrite placeholders_fmap, !string_app_assoc.
Qed.

(** The loop of [_quals_to_postgres], started from any accumulators. *)
Lemma quals_loop quals : ∀ sql_objs vals,
  foldl (λ '(sql_objs, vals) q,
           let '(s, v) := _qual_to_pg q in (sql_objs ++ [s], vals ++ v))
        (sql_objs, vals) quals
  = (sql_objs ++ ((λ q, (qual_fragment_spec q).1) <$> quals),
     vals ++ concat ((λ q, (qual_fragment_spec q).2) <$> quals)).
Proof.
  induction quals as [|q quals IH]; intros sql_objs vals; simpl.
  { by rewrite !app_nil_r. }
  rewrite _qual_to_pg_spec. destruct (qual_fragment_spec q) as [s v] eqn:Hq.
  rewrite IH. simpl. by rewrite <- !(assoc_L (++)).
Qed.

(** C6. For every list of quals, [_quals_to_postgres] returns the
    fragments of the quals joined by AND and their bound values
    concatenated in qual order; a scalar qual gives [field op %s] with one
    bound value, a list qual [field op ANY(ARRAY[...])] or
    [field op ALL(ARRAY[...])] with as many placeholders and bound values
    as it has elements. *)
Theorem _quals_to_postgres_spec quals :
  _quals_to_postgres quals = quals_to_postgres_spec quals
  ∧ Forall (λ q, length (qual_fragment_spec q).2
                 = if is_list_operator q
                   then match q with
                        | ListQual _ _ _ values => length values
                        | ScalarQual _ _ _ => 1
                        end
                   else 1) quals
  ∧ length (_quals_to_postgres quals).2
    = sum_list ((λ q, length (qual_fragment_spec q).2) <$> quals).
Proof.
  assert (_quals_to_postgres quals = quals_to_postgres_spec quals) as Heq.
  { unfold _quals_to_postgres, quals_to_postgres_spec.
    by rewrite quals_loop. }
  split; [done|]. split.
  - apply Forall_forall. by intros [field op v|field op [] values] _.
  - rewrite Heq. unfold quals_to_postgres_spec. cbn [snd].
    clear Heq. induction quals as [|q quals IH]; [done|].
    csimpl. rewrite length_app. by f_equal.
Qed.
End QualTranslation.

(* ===================================================================== *)
(** * Properties: what [execute] runs and what it leaves behind *)
(* ===================================================================== *)

Section ExecuteStructure.
Import FDW.
Context {value : Type} `{EqDecision value}.
Variable pg_qual : Qual value → value → option bool.
Variable META : string.
Variable where_clause :
  string → string → list string → string → string → Composed.

Implicit Types (self : Wrapper value) (eng : Engine value)
               (quals : list (Qual value)) (t : list (Row value * bool)).

(** A loop of [run_sql] calls that each rewrite the staging table. *)
Lemma run_sql_loop {X} (query : X → Composed) (args : list value)
    (effect : X → list (Row value * bool) → list (Row value * bool))
    staging_table (l : list X) : ∀ eng,
  foldl (λ eng x, run_sql (query x) args (alter (effect x) staging_table) eng)
        eng l
  = mkEngine
      (alter (λ t, foldl (λ t x, effect x t) t l) staging_table (tables eng))
      (calls eng ++ ((λ x, RunSql (query x) args) <$> l)).
Proof.
  induction l as [|x l IH]; intros eng; simpl.
  - rewrite alter_id by done. rewrite app_nil_r. by destruct eng.
  - rewrite IH. unfold run_sql. simpl. f_equal.
    + by rewrite alter_alter_eq.
    + by rewrite <- (assoc_L (++)).
Qed.

(** The loop of step 3. *)
Lemma apply_filter_loop ri_cols staging_table quals
    (l : list (DiffObject value)) : ∀ eng,
  foldl (λ eng object,
           let eng := apply_diff_object ri_cols META object META
                        staging_table eng in
           match quals with
           | [] => eng
           | _ => _apply_qual_filter pg_qual quals META staging_table
                    (_quals_to_postgres quals).1 (_quals_to_postgres quals).2
                    eng
           end) eng l
  = mkEngine
      (alter (λ t, foldl (apply_then_filter pg_qual ri_cols quals) t l)
             staging_table (tables eng))
      (calls eng ++ step3_calls META staging_table quals l).
Proof.
  induction l as [|d l IH]; intros eng; simpl.
  - rewrite alter_id by done. rewrite app_nil_r. by destruct eng.
  - rewrite IH. unfold step3_calls at 2. csimpl. fold (step3_calls META staging_table quals l).
    unfold apply_then_filter at 2.
    destruct quals as [|q0 quals'];
      unfold _apply_qual_filter, run_sql, apply_diff_object; simpl;
      f_equal; rewrite ?alter_alter_eq, <- ?(assoc_L (++)); done.
Qed.

(** The slow path of [execute]: the calls it makes, in order, and the
    staging table it leaves. *)
Lemma execute_slow_path self staging_table quals columns eng :
  diff_chain self ≠ [] →
  execute pg_qual META where_clause self staging_table quals columns eng
  = (_run_select_from_staging META staging_table columns true,
     mkEngine
       (<[staging_table := layered_staging pg_qual self quals]> (tables eng))
       (calls eng
          ++ setup_calls META self staging_table
          ++ (if pk_only_quals (get_change_key (snap self)).*1 quals then []
              else step1_calls META where_clause self staging_table)
          ++ [step2_call META self staging_table quals]
          ++ step3_calls META staging_table quals (removelast (diff_chain self))
          ++ match last (diff_chain self) with
             | Some object => [apply_call META staging_table object]
             | None => []
             end)).
Proof.
  intros Hne. unfold execute.
  destruct (_quals_to_postgres quals) as [qual_sql qual_vals] eqn:Hq.
  destruct (diff_chain self) as [|d0 ds] eqn:Hchain; [done|].
  rewrite <- Hchain. clear Hne.
  replace qual_sql with (_quals_to_postgres quals).1 by (by rewrite Hq).
  replace qual_vals with (_quals_to_postgres quals).2 by (by rewrite Hq).
  f_equal.
  rewrite (apply_filter_loop _ staging_table quals).
  unfold layered_staging, seeded_staging, setup_calls, step2_call.
  destruct (pk_only_quals _ quals) eqn:Hpk.
  - destruct (primary_keys (snap self)) as [|pk pks] eqn:Hpks;
      destruct (last (diff_chain self)) as [dn|];
      unfold apply_diff_object, run_sql, apply_call; simpl;
      f_equal;
      rewrite ?alter_insert_eq, <- ?(assoc_L (++)); simpl;
      rewrite ?app_nil_r; done.
  - rewrite run_sql_loop.
    destruct (primary_keys (snap self)) as [|pk pks] eqn:Hpks;
      destruct (last (diff_chain self)) as [dn|];
      unfold apply_diff_object, run_sql, apply_call, step1_calls;
      simpl; f_equal;
      rewrite ?alter_insert_eq, <- ?(assoc_L (++)); simpl;
      rewrite ?app_nil_r; done.
Qed.

(** The fast path of [execute] touches nothing. *)
Lemma execute_fast_path self staging_table quals columns eng :
  diff_chain self = [] →
  execute pg_qual META where_clause self staging_table quals columns eng
  = (_run_select_from_staging META (snap_id (snap self)) columns false, eng).
Proof.
  intros Hnil. unfold execute. rewrite Hnil.
  by destruct (_quals_to_postgres quals).
Qed.
End ExecuteStructure.

(* ===================================================================== *)
(** * Properties: the row stream *)
(* ===================================================================== *)

Section RowStream.
Import FDW.
Context {value : Type} `{EqDecision value}.
Implicit Types (self : Wrapper value) (eng : Engine value)
               (g : Generator value) (cur : list (Row value)).

(** Iterating a generator suspended at its [yield] gives the tuples left
    in the cursor, then runs the [except StopIteration] clause once. *)
Lemma iterate_suspended self cur : ∀ g eng fuel,
  gen_state g = Suspended cur →
  length cur < fuel →
  iterate fuel self g eng
  = Some (project (gen_columns g) <$> cur, set_state g Finished,
          on_exhausted g eng).
Proof.
  induction cur as [|r cur IH]; intros g eng fuel Hst Hfuel;
    (destruct fuel as [|fuel]; [simpl in Hfuel; lia|]);
    simpl; unfold next; rewrite Hst; simpl.
  - done.
  - rewrite (IH (set_state g (Suspended cur)) eng fuel);
      [done|done|simpl in Hfuel; lia].
Qed.

(** Iterating a fresh generator: the SELECT is sent on the first [next],
    every row of the table is yielded, restricted to the columns asked
    for. *)
Lemma iterate_created self g eng fuel :
  gen_state g = Created →
  length (table_rows self eng (gen_table g)) < fuel →
  iterate fuel self g eng
  = Some (project (gen_columns g) <$> table_rows self eng (gen_table g),
          set_state g Finished,
          on_exhausted g
            (log (CursorExecute (select_query (gen_schema g) (gen_table g)
                                              (gen_columns g))) eng)).
Proof.
  intros Hst Hfuel.
  set (eng1 := log (CursorExecute (select_query (gen_schema g) (gen_table g)
                                                (gen_columns g))) eng).
  assert (table_rows self eng1 (gen_table g) = table_rows self eng (gen_table g))
    as Hrows by done.
  destruct fuel as [|fuel]; [lia|].
  simpl. unfold next. rewrite Hst. fold eng1. rewrite Hrows.
  destruct (table_rows self eng (gen_table g)) as [|r cur] eqn:Hcur; simpl.
  - done.
  - rewrite (iterate_suspended self cur (set_state g (Suspended cur)) eng1 fuel);
      [done|done|simpl in Hfuel; lia].
Qed.

Lemma literals_app (q1 q2 : Composed) :
  literals (q1 ++ q2) = literals q1 ++ literals q2.
Proof. unfold literals. apply omap_app. Qed.

Lemma literals_identifier_list columns :
  literals (identifier_list columns) = replicate (pred (length columns)) ",".
Proof.
  unfold identifier_list.
  induction columns as [|c [|c' columns] IH]; [done..|].
  simpl in *. by rewrite IH.
Qed.

(** The text of [SELECT columns FROM schema.table]: there is no WHERE
    clause in it. *)
Lemma select_query_literals schema table columns :
  literals (select_query schema table columns)
  = ["SELECT "] ++ replicate (pred (length columns)) "," ++ [" FROM "; "."].
Proof.
  unfold select_query, qualified.
  change (SQL "SELECT " :: ?l) with ([SQL "SELECT "] ++ l).
  rewrite !literals_app, literals_identifier_list. done.
Qed.
End RowStream.

(* ===================================================================== *)
(** * Properties: qualifiers on rows *)
(* ===================================================================== *)

Section QualSemantics.
Import FDW.
Context {value : Type} `{EqDecision value}.
Variable pg_qual : Qual value → value → option bool.
Implicit Types (r : Row value) (quals : list (Qual value)).

Lemma project_lookup columns r c :
  c ∈ columns → project columns r !! c = r !! c.
Proof.
  intros Hc. unfold project. apply option_eq. intros x.
  rewrite map_lookup_filter_Some. naive_solver.
Qed.

(** The value of the quals depends on the row through the columns they
    name only. *)
Lemma eval_quals_agree quals r r' :
  (∀ q, q ∈ quals → r !! field_name q = r' !! field_name q) →
  eval_quals pg_qual quals r = eval_quals pg_qual quals r'.
Proof.
  induction quals as [|q quals IH]; intros Hagree; simpl; [done|].
  unfold eval_qual. rewrite (Hagree q) by left.
  rewrite IH; [done|]. intros q' Hq'. apply Hagree. by right.
Qed.

Lemma satisfies_project quals columns r :
  (∀ q, q ∈ quals → field_name q ∈ columns) →
  satisfies pg_qual quals (project columns r) ↔ satisfies pg_qual quals r.
Proof.
  intros Hcols. unfold satisfies.
  rewrite (eval_quals_agree quals (project columns r) r); [done|].
  intros q Hq. by apply project_lookup, Hcols.
Qed.

Lemma fails_not_satisfies quals r :
  fails pg_qual quals r → ¬ satisfies pg_qual quals r.
Proof. unfold fails, satisfies. congruence. Qed.

Lemma filter_fmap {A B} (f : A → B) (P : B → Prop) `{∀ x, Decision (P x)}
    (l : list A) :
  filter P (f <$> l) = f <$> filter (λ x, P (f x)) l.
Proof.
  induction l as [|x l IH]; [done|]. csimpl.
  rewrite !filter_cons. destruct (decide (P (f x))); csimpl; by rewrite IH.
Qed.

(** The executor re-applying the quals to projected rows. *)
Lemma filter_satisfies_project quals columns (rows : list (Row value)) :
  (∀ q, q ∈ quals → field_name q ∈ columns) →
  filter (satisfies pg_qual quals) (project columns <$> rows)
  = project columns <$> filter (satisfies pg_qual quals) rows.
Proof.
  intros Hcols. rewrite filter_fmap. f_equal.
  apply list_filter_iff. intros r. by apply satisfies_project.
Qed.
End QualSemantics.

(* ===================================================================== *)
(** * Properties: the fast path *)
(* ===================================================================== *)

Section FastPath.
Import FDW.
Context {value : Type} `{EqDecision value}.
Variable pg_qual : Qual value → value → option bool.
Variable META : string.
Variable where_clause :
  string → string → list string → string → string → Composed.

(** C2 (as amended). When the diff chain is empty, [execute] runs nothing
    itself and returns a stream over the snapshot; iterating it sends
    [SELECT cols FROM S], a statement without WHERE clause, and yields
    every row of the snapshot restricted to [cols], then closes the cursor
    and rolls back without dropping any table.  The quals are not pushed
    down on this path: they are applied by the executor, and when every
    qual names a requested column that gives the rows of
    [SELECT cols FROM S WHERE Q]. *)
Theorem fast_path_select self staging_table quals columns eng fuel :
  diff_chain self = [] →
  length (snap_rows (snap self)) < fuel →
  let '(g, eng1) :=
    execute pg_qual META where_clause self staging_table quals columns eng in
  eng1 = eng
  ∧ iterate fuel self g eng1
    = Some (project columns <$> snap_rows (snap self),
            set_state g Finished,
            mkEngine ∅
              (calls eng
                 ++ [CursorExecute
                       (select_query META (snap_id (snap self)) columns);
                     CursorClose; Rollback]))
  ∧ literals (select_query META (snap_id (snap self)) columns)
    = ["SELECT "] ++ replicate (pred (length columns)) ","
        ++ [" FROM "; "."]
  ∧ ((∀ q, q ∈ quals → field_name q ∈ columns) →
     filter (satisfies pg_qual quals)
            (project columns <$> snap_rows (snap self))
     = project columns <$>
         filter (satisfies pg_qual quals) (snap_rows (snap self))).
Proof.
  intros Hnil Hfuel.
  rewrite (execute_fast_path pg_qual META where_clause) by done.
  split; [done|]. split; [|split].
  - rewrite (iterate_created self); simpl.
    + unfold table_rows. rewrite decide_True by done.
      unfold on_exhausted, rollback, log. simpl.
      by rewrite <- !(assoc_L (++)).
    + done.
    + unfold table_rows. by rewrite decide_True.
  - apply select_query_literals.
  - apply filter_satisfies_project.
Qed.
End FastPath.

(** C2 (as stated) fails: on the snapshot [(1,'a'), (2,'b'), (3,'c')] with
    an empty chain and the qual [v = 'a'], the stream has all three rows,
    while [SELECT id, v FROM S WHERE v = 'a'] has one; the statement sent has
    no WHERE clause. *)
Lemma fast_path_quals_not_applied :
  let self := FDW.mkWrapper Scenario.snap_t [] in
  let columns := ["id"; "v"] in
  Scenario.run_query self Scenario.quals_v_a columns
  = Some [Scenario.row 1 "a"; Scenario.row 2 "b"; Scenario.row 3 "c"]
  ∧ FDW.project columns <$>
      filter (FDW.satisfies Scenario.pg_qual Scenario.quals_v_a)
             (snap_rows Scenario.snap_t)
    = [Scenario.row 1 "a"]
  ∧ " WHERE " ∉ literals (FDW.select_query Scenario.META "o_snap" columns).
Proof.
  split; [by vm_compute|]. split; [by vm_compute|].
  vm_compute. intros Hin.
  repeat (apply elem_of_cons in Hin as [Hin|Hin]; [discriminate|]).
  by apply elem_of_nil in Hin.
Qed.

Lemma fast_path_select_witness :
  let self := FDW.mkWrapper Scenario.snap_t [] in
  (FDW.execute Scenario.pg_qual Scenario.META Scenario.where_clause self
     "o_staging" Scenario.quals_v_a ["id"; "v"] Scenario.empty_engine).2
  = Scenario.empty_engine.
Proof.
  intros self.
  pose proof (fast_path_select Scenario.pg_qual Scenario.META
                Scenario.where_clause self "o_staging" Scenario.quals_v_a
                ["id"; "v"] Scenario.empty_engine 4 eq_refl) as Hfast.
  destruct (FDW.execute _ _ _ _ _ _ _ _) as [g eng1].
  apply Hfast. simpl. lia.
Defined.

(* ===================================================================== *)
(** * Properties: when step 1 is skipped *)
(* ===================================================================== *)

Section SkippingStepOne.
Import FDW.
Context {value : Type} `{EqDecision value}.
Variable pg_qual : Qual value → value → option bool.
Variable META : string.
Variable where_clause :
  string → string → list string → string → string → Composed.
Implicit Types (self : Wrapper value) (quals : list (Qual value)).

Lemma pk_only_quals_spec ri_cols quals :
  pk_only_quals ri_cols quals = true
  ↔ ∀ q, q ∈ quals → field_name q ∈ ri_cols.
Proof.
  unfold pk_only_quals. induction quals as [|q quals IH]; simpl.
  - split; [|done]. intros _ q Hq. by apply elem_of_nil in Hq.
  - rewrite andb_true_iff, IH, bool_decide_eq_true. split.
    + intros [Hq Hall] q' [->|Hq']%elem_of_cons; auto.
    + intros Hall. split; [apply Hall; left|].
      intros q' Hq'. apply Hall. by right.
Qed.

(** Without a primary key every column is in the change key, so quals on
    columns of the table are always on the change key only. *)
Lemma pk_only_quals_no_pk self quals :
  primary_keys (snap self) = [] →
  (∀ q, q ∈ quals → field_name q ∈ get_column_names (snap self)) →
  pk_only_quals (get_change_key (snap self)).*1 quals = true.
Proof.
  intros Hpk Hcols. apply pk_only_quals_spec.
  unfold get_change_key. by rewrite Hpk.
Qed.

(** C3 (as amended). On the slow path step 1 is skipped exactly when
    every column the quals refer to is in the change key of the table:
    its primary-key columns when it has a primary key, all of its columns
    otherwise.  So for a table without primary key, quals on its columns
    always skip step 1; when the step is run it is one statement per
    object of the chain, before the statement of step 2. *)
Theorem step1_skipped_iff self staging_table quals columns eng :
  diff_chain self ≠ [] →
  let ri_cols := (get_change_key (snap self)).*1 in
  let out :=
    (execute pg_qual META where_clause self staging_table quals columns eng).2 in
  ri_cols = match primary_keys (snap self) with
            | [] => get_column_names (snap self)
            | pks => pks.*1
            end
  ∧ (pk_only_quals ri_cols quals = true
     ↔ ∀ q, q ∈ quals → field_name q ∈ ri_cols)
  ∧ (∃ rest,
       calls out
       = calls eng ++ setup_calls META self staging_table
           ++ (if pk_only_quals ri_cols quals then []
               else step1_calls META where_clause self staging_table)
           ++ step2_call META self staging_table quals :: rest)
  ∧ length (step1_calls META where_clause self staging_table)
    = length (diff_chain self)
  ∧ (primary_keys (snap self) = [] →
     (∀ q, q ∈ quals → field_name q ∈ get_column_names (snap self)) →
     pk_only_quals ri_cols quals = true).
Proof.
  intros Hne ri_cols out. split; [|split; [|split; [|split]]].
  - unfold ri_cols, get_change_key, get_column_names.
    by destruct (primary_keys (snap self)).
  - apply pk_only_quals_spec.
  - unfold out.
    rewrite (execute_slow_path pg_qual META where_clause) by done. simpl.
    eexists. reflexivity.
  - unfold step1_calls. by rewrite length_fmap.
  - apply pk_only_quals_no_pk.
Qed.
End SkippingStepOne.

(** C3 (as stated) fails: the table has no primary key and the qual is on
    [v], which is not a primary-key column, yet step 1 is skipped: none of
    its statements is among the calls [execute] makes. *)
Lemma step1_skipped_without_primary_key :
  let self := FDW.mkWrapper Scenario.snap_nopk [Scenario.diff_update_3] in
  let out := (Scenario.run_execute self Scenario.quals_v_a ["id"; "v"]).2 in
  ¬ (∀ q, q ∈ Scenario.quals_v_a →
          field_name q ∈ (primary_keys Scenario.snap_nopk).*1)
  ∧ FDW.step1_calls Scenario.META Scenario.where_clause self "o_staging" ≠ []
  ∧ Forall (λ c, c ∉ FDW.calls out)
           (FDW.step1_calls Scenario.META Scenario.where_clause self "o_staging")
  ∧ length (FDW.calls out) = 4.
Proof.
  intros self out. split; [|split; [|split]].
  - intros Hall. specialize (Hall _ (list_elem_of_here _ _)).
    simpl in Hall. by apply elem_of_nil in Hall.
  - done.
  - unfold out. refine (bool_decide_unpack _ _). by vm_compute.
  - by vm_compute.
Qed.

Lemma step1_skipped_iff_witness :
  let self := FDW.mkWrapper Scenario.snap_t [Scenario.diff_update_3] in
  FDW.pk_only_quals (get_change_key (FDW.snap self)).*1 Scenario.quals_id_2 = true
  ↔ ∀ q, q ∈ Scenario.quals_id_2 → field_name q ∈ ["id"].
Proof.
  intros self.
  apply (step1_skipped_iff Scenario.pg_qual Scenario.META Scenario.where_clause
           self "o_staging" Scenario.quals_id_2 ["v"] Scenario.empty_engine).
  simpl. discriminate.
Defined.

(* ===================================================================== *)
(** * Properties: the life of the cursor *)
(* ===================================================================== *)

Section CursorLifecycle.
Import FDW.
Context {value : Type} `{EqDecision value}.
Implicit Types (self : Wrapper value) (eng : Engine value)
               (g : Generator value) (cur : list (Row value)).

(** C5 (as amended). A slow-path stream that has not finished releases its
    resources when it is iterated to the end: the [next] that finds the
    cursor exhausted closes the cursor, drops the staging table and rolls
    back the transaction, in that order, and the generator is finished
    from then on, a later [next] leaving the engine alone.  When the caller
    cancels the stream before that, the generator is finished without any
    of this being run, then or later: the engine is left as it is. *)
Theorem stream_release self g eng fuel :
  gen_drop_table g = true →
  gen_state g ≠ Finished →
  length (pending self g eng) < fuel →
  (∃ eng_end,
     iterate fuel self g eng
     = Some (project (gen_columns g) <$> pending self g eng,
             set_state g Finished, eng_end)
     ∧ calls eng_end
       = calls eng ++ opening_calls g
           ++ [CursorClose; DeleteTable (gen_schema g) (gen_table g); Rollback]
     ∧ tables eng_end = ∅
     ∧ (next self (set_state g Finished) eng_end).2 = eng_end)
  ∧ close g eng = (set_state g Finished, eng)
  ∧ (next self (close g eng).1 (close g eng).2).2 = eng.
Proof.
  intros Hdrop Hst Hfuel. split; [|done].
  unfold pending, opening_calls in *.
  destruct (gen_state g) as [|cur|] eqn:Hg; [| |done].
  - eexists. split; [by apply iterate_created|].
    unfold on_exhausted, rollback, delete_table, log. rewrite Hdrop. simpl.
    split; [by rewrite <- !(assoc_L (++))|done].
  - eexists. split; [by apply iterate_suspended|].
    unfold on_exhausted, rollback, delete_table, log. rewrite Hdrop. simpl.
    split; [by rewrite <- !(assoc_L (++))|done].
Qed.
End CursorLifecycle.

(** C5 (as stated) fails on cancellation: the caller takes one row of a
    slow-path query, with rows still to come, and closes the stream; no
    table is dropped and nothing is rolled back, the staging table is
    still there. *)
Lemma stream_cancelled_without_release :
  let self := FDW.mkWrapper Scenario.snap_t [Scenario.diff_update_3] in
  let started := Scenario.run_execute self Scenario.quals_v_a ["id"; "v"] in
  let first := FDW.next self started.1 started.2 in
  let closed := FDW.close first.1.2 first.2 in
  (∃ row, first.1.1 = FDW.Yielded row)
  ∧ (∃ r cur, FDW.gen_state first.1.2 = FDW.Suspended (r :: cur))
  ∧ FDW.gen_drop_table closed.1 = true
  ∧ FDW.gen_state closed.1 = FDW.Finished
  ∧ FDW.Rollback ∉ FDW.calls closed.2
  ∧ FDW.DeleteTable Scenario.META "o_staging" ∉ FDW.calls closed.2
  ∧ is_Some (FDW.tables closed.2 !! "o_staging").
Proof.
  intros self started first closed.
  split; [eexists; by vm_compute|]. split; [do 2 eexists; by vm_compute|].
  split; [by vm_compute|]. split; [by vm_compute|].
  split; [|split].
  - unfold closed, first, started. refine (bool_decide_unpack _ _). by vm_compute.
  - unfold closed, first, started. refine (bool_decide_unpack _ _). by vm_compute.
  - eexists. by vm_compute.
Qed.

Lemma stream_release_witness :
  let g := FDW.mkGenerator Scenario.META "o_staging" ["id"] true
             (FDW.Suspended [Scenario.row 1 "a"]) in
  let eng := FDW.mkEngine (<["o_staging" := [(Scenario.row 1 "a", false)] ]> ∅) [] in
  FDW.close g eng = (FDW.set_state g FDW.Finished, eng).
Proof.
  intros g eng.
  apply (stream_release (FDW.mkWrapper Scenario.snap_t []) g eng 2 eq_refl).
  - discriminate.
  - simpl. lia.
Defined.

(* ===================================================================== *)
(** * Properties: applying objects to tagged tables *)
(* ===================================================================== *)

Section Retagging.
Import FDW.
Context {value : Type} `{EqDecision value}.
Context {A B : Type} (h : A → option B).
Implicit Types (t : list (Row value * A)) (c : Change value)
               (d : DiffObject value).

Lemma retag_delete_change ri_cols t c :
  retag h (delete_change ri_cols t c) = delete_change ri_cols (retag h t) c.
Proof.
  unfold retag, delete_change.
  induction t as [|x t IH]; [done|].
  rewrite filter_cons. csimpl.
  destruct (decide (row_key ri_cols x.1 ≠ row_key ri_cols (change_key c)))
    as [Hk|Hk]; csimpl; destruct (h x.2) as [b|]; csimpl;
    rewrite ?filter_cons; simpl; rewrite ?IH;
    try rewrite decide_True by done; try rewrite decide_False by done; done.
Qed.

Lemma retag_update_change ri_cols t c :
  retag h (update_change ri_cols t c) = update_change ri_cols (retag h t) c.
Proof.
  unfold retag, update_change.
  induction t as [|x t IH]; [done|]. csimpl. rewrite IH.
  destruct (decide (row_key ri_cols x.1 = row_key ri_cols (change_key c)));
    simpl; destruct (h x.2) as [b|]; csimpl; [|done| |done].
  - by rewrite decide_True.
  - by rewrite decide_False.
Qed.

Lemma retag_insert_change default default' t c :
  h default = Some default' →
  retag h (insert_change default t c) = insert_change default' (retag h t) c.
Proof.
  intros Hd. unfold retag, insert_change. rewrite omap_app. csimpl.
  by rewrite Hd.
Qed.

Lemma retag_foldl (f : list (Row value * A) → Change value → list (Row value * A))
    (f' : list (Row value * B) → Change value → list (Row value * B))
    (cs : list (Change value)) :
  (∀ t c, retag h (f t c) = f' (retag h t) c) →
  ∀ t, retag h (foldl f t cs) = foldl f' (retag h t) cs.
Proof.
  intros Hf. induction cs as [|c cs IH]; intros t; simpl; [done|].
  by rewrite IH, Hf.
Qed.

(** Applying an object commutes with retagging, the default tag of
    inserted rows being carried along. *)
Lemma retag_apply_diff ri_cols default default' d t :
  h default = Some default' →
  retag h (apply_diff ri_cols default d t)
  = apply_diff ri_cols default' d (retag h t).
Proof.
  intros Hd. unfold apply_diff.
  rewrite (retag_foldl _ (insert_change default'))
    by (intros; by apply retag_insert_change).
  rewrite (retag_foldl _ (update_change ri_cols))
    by (intros; apply retag_update_change).
  by rewrite (retag_foldl _ (delete_change ri_cols))
    by (intros; apply retag_delete_change).
Qed.

Lemma retag_apply_chain ri_cols default default' (chain : list (DiffObject value)) :
  h default = Some default' →
  ∀ t, retag h (foldl (λ t d, apply_diff ri_cols default d t) t chain)
       = foldl (λ u d, apply_diff ri_cols default' d u) (retag h t) chain.
Proof.
  intros Hd. induction chain as [|d chain IH]; intros t; simpl; [done|].
  by rewrite IH, (retag_apply_diff _ _ default').
Qed.
End Retagging.

Section ApplyPermutation.
Import FDW.
Context {value : Type} `{EqDecision value} {A : Type}.
Implicit Types (t : list (Row value * A)).

Lemma foldl_Permutation {X} (f : list (Row value * A) → X → list (Row value * A))
    (xs : list X) :
  (∀ x t t', t ≡ₚ t' → f t x ≡ₚ f t' x) →
  ∀ t t', t ≡ₚ t' → foldl f t xs ≡ₚ foldl f t' xs.
Proof.
  intros Hf. induction xs as [|x xs IH]; intros t t' Ht; simpl; [done|].
  apply IH, Hf, Ht.
Qed.

Lemma apply_diff_Permutation ri_cols default (d : DiffObject value) t t' :
  t ≡ₚ t' →
  apply_diff ri_cols default d t ≡ₚ apply_diff ri_cols default d t'.
Proof.
  intros Ht. unfold apply_diff.
  apply foldl_Permutation.
  { intros c t1 t2 H12. unfold insert_change. by rewrite H12. }
  apply foldl_Permutation.
  { intros c t1 t2 H12. unfold update_change. by rewrite H12. }
  apply foldl_Permutation; [|done].
  intros c t1 t2 H12. unfold delete_change. by rewrite H12.
Qed.
End ApplyPermutation.

(* ===================================================================== *)
(** * Properties: the staging table follows the materialized table *)
(* ===================================================================== *)

Section Simulation.
Import FDW.
Context {value : Type} `{EqDecision value}.
Variable pg_qual : Qual value → value → option bool.
Variable ri_cols : list string.
Variable quals : list (Qual value).

Implicit Types (r : Row value) (c : Change value) (d : DiffObject value)
               (rest chain : list (DiffObject value))
               (m : list (Row value * option bool))
               (t : list (Row value * bool)).

Local Notation settled := (settled pg_qual ri_cols quals).
Local Notation apply_tagged :=
  (λ m d, apply_diff ri_cols (Some true) d m).

Lemma foldl_invariant {X Y} (P : X → Prop) (f : X → Y → X) (ys : list Y) :
  (∀ x y, y ∈ ys → P x → P (f x y)) → ∀ x, P x → P (foldl f x ys).
Proof.
  induction ys as [|y ys IH]; intros Hf x Hx; simpl; [done|].
  apply IH.
  - intros x' y' Hy'. apply Hf. by right.
  - apply Hf; [left|done].
Qed.

Lemma filter_all {X} (P : X → Prop) `{∀ x, Decision (P x)} (l : list X) :
  Forall P l → filter P l = l.
Proof.
  induction 1 as [|x l Hx Hl IH]; [done|].
  by rewrite filter_cons_True, IH.
Qed.

Lemma updated_by_key chain r r' :
  row_key ri_cols r = row_key ri_cols r' →
  updated_by ri_cols chain r ↔ updated_by ri_cols chain r'.
Proof. intros Hk. unfold updated_by. by rewrite Hk. Qed.

Lemma updated_by_cons d rest r :
  updated_by ri_cols (d :: rest) r
  ↔ Exists (λ c, sg_action_kind c = UPDATE
                 ∧ row_key ri_cols r = row_key ri_cols (change_key c))
           (changes d)
    ∨ updated_by ri_cols rest r.
Proof. unfold updated_by. apply Exists_cons. Qed.

Lemma settled_later d rest x : settled (d :: rest) x → settled rest x.
Proof.
  intros Hs Htag. destruct (Hs Htag) as [Hsat Hupd]. split; [done|].
  intros Hpk Hu. apply (Hupd Hpk). apply updated_by_cons. by right.
Qed.

(** An UPDATE that leaves the change key alone leaves the key of the row
    it is applied to alone. *)
Lemma row_key_update c r :
  (∀ col, col ∈ ri_cols → sg_action_data c !! col = None) →
  row_key ri_cols (sg_action_data c ∪ r) = row_key ri_cols r.
Proof.
  intros Hc. unfold row_key. apply list_fmap_ext.
  intros i col Hcol. apply lookup_union_r, Hc.
  by eapply list_elem_of_lookup_2.
Qed.

Lemma settled_update d rest c x :
  c ∈ changes d →
  sg_action_kind c = UPDATE →
  (∀ col, col ∈ ri_cols → sg_action_data c !! col = None) →
  settled (d :: rest) x →
  settled (d :: rest)
    (if decide (row_key ri_cols x.1 = row_key ri_cols (change_key c))
     then (sg_action_data c ∪ x.1, x.2) else x).
Proof.
  intros Hc Hkind Hkey Hs.
  destruct (decide (row_key ri_cols x.1 = row_key ri_cols (change_key c)))
    as [Hmatch|]; [|done].
  intros Htag. simpl in *. destruct (Hs Htag) as [Hsat Hupd].
  destruct (pk_only_quals ri_cols quals) eqn:Hpk.
  - split; [|done]. rewrite <- Hsat. unfold satisfies.
    rewrite (eval_quals_agree _ quals (sg_action_data c ∪ x.1) x.1); [done|].
    intros q Hq. apply lookup_union_r, Hkey.
    by apply (proj1 (pk_only_quals_spec ri_cols quals) Hpk).
  - destruct (Hupd eq_refl). apply updated_by_cons. left.
    apply Exists_exists. by exists c.
Qed.

(** Applying an object keeps the rows settled, for the rest of the
    chain. *)
Lemma settled_apply d rest m :
  (∀ c col, c ∈ changes d → sg_action_kind c = UPDATE →
            col ∈ ri_cols → sg_action_data c !! col = None) →
  Forall (settled (d :: rest)) m →
  Forall (settled rest) (apply_tagged m d).
Proof.
  intros Hkey Hm. unfold apply_diff.
  apply foldl_invariant.
  { intros m' c _ Hm'. unfold insert_change.
    apply Forall_app. split; [done|].
    apply Forall_singleton. by intros []. }
  eapply Forall_impl; [|apply settled_later].
  apply foldl_invariant.
  { intros m' c [Hkind Hc]%list_elem_of_filter Hm'. unfold update_change.
    apply Forall_fmap. eapply Forall_impl; [exact Hm'|].
    intros x Hx. simpl. apply settled_update; eauto. }
  apply foldl_invariant; [|done].
  intros m' c _ Hm'. unfold delete_change.
  apply Forall_forall. intros x [_ Hx]%list_elem_of_filter.
  by eapply Forall_forall in Hm'.
Qed.

Lemma elem_of_present m x : x ∈ present m ↔ (x.1, Some x.2) ∈ m.
Proof.
  unfold present, retag. rewrite list_elem_of_omap. split.
  - intros ([r [b|]] & Hin & Hx); simpl in Hx; [|done].
    by injection Hx as <-.
  - intros Hin. exists (x.1, Some x.2). split; [done|]. by destruct x.
Qed.

(** On settled rows the qual filter has nothing to delete. *)
Lemma qual_filter_present rest m :
  Forall (settled rest) m →
  qual_filter_rows pg_qual quals (present m) = present m.
Proof.
  intros Hm. unfold qual_filter_rows. apply filter_all.
  apply Forall_forall. intros x Hx%elem_of_present [Hflag Hfail].
  eapply Forall_forall in Hm; [|exact Hx].
  destruct x as [r b]. simpl in *. subst b.
  destruct (Hm ltac:(done)) as [Hsat _].
  by apply (fails_not_satisfies pg_qual quals r), Hsat.
Qed.

Lemma qual_filter_Permutation t t' :
  t ≡ₚ t' → qual_filter_rows pg_qual quals t ≡ₚ qual_filter_rows pg_qual quals t'.
Proof. intros Ht. unfold qual_filter_rows. by rewrite Ht. Qed.

(** One turn of the loop of step 3 on the staging table is the object
    applied to the tagged table. *)
Lemma apply_then_filter_present d rest t m :
  (∀ c col, c ∈ changes d → sg_action_kind c = UPDATE →
            col ∈ ri_cols → sg_action_data c !! col = None) →
  t ≡ₚ present m →
  Forall (settled (d :: rest)) m →
  apply_then_filter pg_qual ri_cols quals t d ≡ₚ present (apply_tagged m d)
  ∧ apply_then_filter pg_qual ri_cols quals t d
    = filter (λ x, ¬ (x.2 = false ∧ ¬ satisfies pg_qual quals x.1))
             (apply_diff ri_cols true d t)
  ∧ Forall (settled rest) (apply_tagged m d)
  ∧ apply_diff ri_cols true d t ≡ₚ present (apply_tagged m d).
Proof.
  intros Hkey Ht Hm.
  pose proof (settled_apply d rest m Hkey Hm) as Hm1.
  assert (apply_diff ri_cols true d t ≡ₚ present (apply_tagged m d))
    as Happ.
  { unfold present. rewrite (retag_apply_diff id _ _ true) by done.
    by apply apply_diff_Permutation. }
  assert (Forall (λ x, x.2 = false → satisfies pg_qual quals x.1)
                 (apply_diff ri_cols true d t)) as Hsat.
  { apply Forall_forall. intros x Hx Hflag. rewrite Happ in Hx.
    apply elem_of_present in Hx. eapply Forall_forall in Hm1; [|exact Hx].
    destruct x as [r b]. simpl in *. subst b.
    by apply (proj1 (Hm1 ltac:(done))). }
  split; [|split; [|done]].
  - unfold apply_then_filter. destruct quals as [|q0 quals'] eqn:Hq; [done|].
    rewrite <- Hq in *.
    rewrite (qual_filter_Permutation _ _ Happ).
    by rewrite (qual_filter_present rest).
  - rewrite (filter_all (λ x, ¬ (x.2 = false ∧ ¬ satisfies pg_qual quals x.1))).
    2:{ eapply Forall_impl; [exact Hsat|]. intros x Hx [Hflag Hn]. auto. }
    unfold apply_then_filter. destruct quals as [|q0 quals'] eqn:Hq; [done|].
    rewrite <- Hq in *. unfold qual_filter_rows. apply filter_all.
    eapply Forall_impl; [exact Hsat|]. intros x Hx [Hflag Hfail].
    by apply (fails_not_satisfies pg_qual quals x.1), Hx.
Qed.

(** The loop of step 3. *)
Lemma apply_loop_present l : ∀ rest t m,
  key_preserving ri_cols (l ++ rest) →
  t ≡ₚ present m →
  Forall (settled (l ++ rest)) m →
  foldl (apply_then_filter pg_qual ri_cols quals) t l
    ≡ₚ present (foldl apply_tagged m l)
  ∧ Forall (settled rest) (foldl apply_tagged m l).
Proof.
  induction l as [|d l IH]; intros rest t m Hkey Ht Hm; simpl; [done|].
  destruct (apply_then_filter_present d (l ++ rest) t m) as (Hp & _ & Hs & _);
    [|done|done|].
  { intros c col Hc Hkind Hcol. eapply (Hkey d); eauto. left. }
  apply IH; [|done|done].
  intros d' c col Hd'. apply Hkey. by right.
Qed.

(** Rows that are settled and not in the staging table do not satisfy the
    quals: leaving them out loses nothing. *)
Lemma filter_satisfies_present m :
  Forall (settled []) m →
  filter (satisfies pg_qual quals) (present m).*1
  = filter (satisfies pg_qual quals) m.*1.
Proof.
  induction 1 as [|[r [b|]] m Hx Hm IH]; [done| |].
  - change (present ((r, Some b) :: m)) with ((r, b) :: present m).
    csimpl. rewrite !filter_cons. simpl. by rewrite IH.
  - change (present ((r, None) :: m)) with (present m).
    csimpl. rewrite IH.
    rewrite filter_cons_False; [done|]. simpl.
    intros Hsat. by apply (Hx ltac:(done)) in Hsat.
Qed.
End Simulation.

(* ===================================================================== *)
(** * Properties: steps 1 and 2 *)
(* ===================================================================== *)

Section Seeding.
Import FDW.
Context {value : Type} `{EqDecision value}.
Variable pg_qual : Qual value → value → option bool.
Implicit Types (r s : Row value) (t rows : list (Row value * bool))
               (x y : Row value * bool) (self : Wrapper value)
               (quals : list (Qual value)).

Lemma NoDup_fmap_eq {X Y} (f : X → Y) (l : list X) a b :
  NoDup (f <$> l) → a ∈ l → b ∈ l → f a = f b → a = b.
Proof.
  induction l as [|z l IH]; csimpl; intros Hnd Ha Hb Hf.
  { by apply elem_of_nil in Ha. }
  apply NoDup_cons in Hnd as [Hz Hnd].
  apply elem_of_cons in Ha as [->|Ha]; apply elem_of_cons in Hb as [->|Hb];
    [done| | |by apply IH].
  - destruct Hz. rewrite Hf. by apply list_elem_of_fmap_2.
  - destruct Hz. rewrite <- Hf. by apply list_elem_of_fmap_2.
Qed.

(** Without a primary key nothing conflicts. *)
Lemma insert_select_no_pk rows : ∀ t, insert_select [] rows t = t ++ rows.
Proof.
  unfold insert_select.
  induction rows as [|x rows IH]; intros t; simpl; [by rewrite app_nil_r|].
  rewrite IH. unfold insert_on_conflict_do_nothing.
  rewrite decide_False by (by intros [? _]).
  by rewrite <- (assoc_L (++)).
Qed.

Lemma insert_select_app pks rows1 rows2 t :
  insert_select pks (rows1 ++ rows2) t
  = insert_select pks rows2 (insert_select pks rows1 t).
Proof. unfold insert_select. apply foldl_app. Qed.

Section WithKey.
Variable pks : list string.
Hypothesis pks_nonempty : pks ≠ [].

Local Notation keyof := (λ x : Row value * bool, row_key pks x.1).

Lemma elem_of_insert_one t x y :
  y ∈ insert_on_conflict_do_nothing pks t x
  ↔ y ∈ t ∨ (y = x ∧ ¬ Exists (λ z, keyof z = keyof x) t).
Proof.
  unfold insert_on_conflict_do_nothing.
  destruct (decide (pks ≠ [] ∧ _)) as [[_ Hex]|Hn].
  - naive_solver.
  - rewrite elem_of_app, list_elem_of_singleton. naive_solver.
Qed.

(** Rows inserted by one statement, the rows with one key being one
    row: what is new is what has no row of its key in the table yet. *)
Lemma elem_of_insert_select rows :
  (∀ x y, x ∈ rows → y ∈ rows → keyof x = keyof y → x = y) →
  ∀ t y, y ∈ insert_select pks rows t
         ↔ y ∈ t ∨ (y ∈ rows ∧ ¬ Exists (λ z, keyof z = keyof y) t).
Proof.
  unfold insert_select.
  induction rows as [|x rows IH]; intros Hinj t y; simpl.
  { rewrite elem_of_nil. naive_solver. }
  rewrite IH by (intros; apply Hinj; by try right).
  rewrite elem_of_insert_one, elem_of_cons.
  assert (∀ z, Exists (λ z', keyof z' = keyof z)
                      (insert_on_conflict_do_nothing pks t x)
               ↔ Exists (λ z', keyof z' = keyof z) t
                 ∨ (keyof x = keyof z
                    ∧ ¬ Exists (λ z', keyof z' = keyof x) t)) as Hex.
  { intros z. rewrite !Exists_exists. split.
    - intros (z' & [Hz'|[-> Hn]]%elem_of_insert_one & Hk); [eauto|].
      right. split; [done|]. by rewrite Exists_exists in Hn.
    - intros [(z' & Hz' & Hk)|[Hk Hn]].
      + exists z'. split; [|done]. apply elem_of_insert_one. by left.
      + exists x. split; [|done]. apply elem_of_insert_one. right.
        split; [done|]. by rewrite Exists_exists. }
  rewrite Hex. split.
  - intros [[?|[-> ?]]|[Hy Hn]]; [by left|by right; split; [left|]|].
    right. split; [by right|]. tauto.
  - intros [?|[[->|Hy] Hn]]; [by left; left|by left; right|].
    destruct (decide (keyof x = keyof y)) as [Hk|Hk].
    + assert (x = y) as -> by (apply Hinj; [left|by right|done]).
      left. by right.
    + right. split; [done|]. tauto.
Qed.

Lemma insert_select_NoDup rows : ∀ t,
  NoDup (keyof <$> t) → NoDup (keyof <$> insert_select pks rows t).
Proof.
  unfold insert_select.
  induction rows as [|x rows IH]; intros t Ht; simpl; [done|].
  apply IH. unfold insert_on_conflict_do_nothing.
  destruct (decide (pks ≠ [] ∧ _)) as [|Hn]; [done|].
  rewrite fmap_app. csimpl. apply NoDup_app. split; [done|]. split.
  - intros k Hk ->%list_elem_of_singleton. apply Hn. split; [done|].
    apply list_elem_of_fmap in Hk as (z & Hz & Hin).
    apply Exists_exists. eauto.
  - apply NoDup_singleton.
Qed.
End WithKey.

Lemma sg_action_code_update (a : Action) : sg_action_code a = 2%Z ↔ a = UPDATE.
Proof. by destruct a. Qed.

(** The rows step 1 selects: the rows of the SNAP some object of the chain
    updates. *)
Lemma elem_of_updated_snap_rows ri_cols (snap : Snapshot value)
    (chain : list (DiffObject value)) x :
  x ∈ chain ≫= updated_snap_rows ri_cols snap
  ↔ x.2 = true ∧ x.1 ∈ snap_rows snap ∧ updated_by ri_cols chain x.1.
Proof.
  unfold updated_by, updated_snap_rows.
  rewrite list_elem_of_bind, Exists_exists. split.
  - intros (d & Hx & Hd).
    apply list_elem_of_bind in Hx as (s & Hx & Hs).
    apply list_elem_of_bind in Hx as (c & Hx & Hc).
    destruct (decide _) as [[Hk Hu%sg_action_code_update]|];
      [|by apply elem_of_nil in Hx].
    apply list_elem_of_singleton in Hx as ->. simpl.
    do 2 (split; [done|]). exists d. split; [done|].
    apply Exists_exists. by exists c.
  - intros (Hflag & Hs & d & Hd & Hex).
    apply Exists_exists in Hex as (c & Hc & Hkind & Hk).
    exists d. split; [|done].
    apply list_elem_of_bind. exists x.1. split; [|done].
    apply list_elem_of_bind. exists c. split; [|done].
    rewrite decide_True by (by rewrite sg_action_code_update).
    apply list_elem_of_singleton. destruct x; simpl in *. by subst.
Qed.

Lemma step1_fold pks ri_cols (snap : Snapshot value)
    (chain : list (DiffObject value)) : ∀ t,
  foldl (λ t object,
           insert_select pks (updated_snap_rows ri_cols snap object) t)
        t chain
  = insert_select pks (chain ≫= updated_snap_rows ri_cols snap) t.
Proof.
  induction chain as [|d chain IH]; intros t; csimpl; [done|].
  by rewrite IH, insert_select_app.
Qed.

Lemma matching_snap_rows_filter quals (snap : Snapshot value) :
  matching_snap_rows pg_qual quals snap
  = (λ s, (s, false)) <$> filter (satisfies pg_qual quals) (snap_rows snap).
Proof.
  unfold matching_snap_rows. destruct quals as [|q quals]; [|done].
  f_equal. symmetry. apply filter_all. by apply Forall_forall.
Qed.

Lemma elem_of_matching_snap_rows quals (snap : Snapshot value) x :
  x ∈ matching_snap_rows pg_qual quals snap
  ↔ x.2 = false ∧ x.1 ∈ snap_rows snap ∧ satisfies pg_qual quals x.1.
Proof.
  rewrite matching_snap_rows_filter, list_elem_of_fmap.
  setoid_rewrite list_elem_of_filter. destruct x as [r b]. simpl.
  split; [intros (s & [= -> ->] & ? & ?); done|].
  intros (-> & ? & ?). by exists r.
Qed.

Lemma elem_of_tagged_present self quals x :
  x ∈ present (tagged_snapshot pg_qual self quals)
  ↔ x.1 ∈ snap_rows (snap self)
    ∧ initial_tag pg_qual self quals x.1 = Some x.2.
Proof.
  rewrite elem_of_present. unfold tagged_snapshot.
  rewrite list_elem_of_fmap. split.
  - by intros (s & [= -> ->] & Hs).
  - intros [Hs Htag]. exists x.1. by rewrite Htag.
Qed.

Lemma NoDup_tagged_present self quals :
  NoDup (snap_rows (snap self)) →
  NoDup (present (tagged_snapshot pg_qual self quals)).
Proof.
  unfold present, retag, tagged_snapshot.
  induction 1 as [|s l Hs Hl IH]; csimpl; [constructor|].
  destruct (initial_tag pg_qual self quals s) as [b|]; csimpl; [|done].
  apply NoDup_cons. split; [|done].
  intros Hin. apply Hs.
  apply list_elem_of_omap in Hin as ([r tag] & Hin & Hx).
  apply list_elem_of_fmap in Hin as (s' & [= -> ->] & Hs').
  simpl in Hx. destruct (initial_tag _ _ _ s') ; [|done].
  by injection Hx as -> _.
Qed.

(** The rows of the snapshot start out settled. *)
Lemma tagged_snapshot_settled self quals :
  Forall (settled pg_qual (get_change_key (snap self)).*1 quals
                  (diff_chain self))
         (tagged_snapshot pg_qual self quals).
Proof.
  unfold tagged_snapshot. apply Forall_fmap, Forall_forall.
  intros s _ Htag. simpl in *. unfold initial_tag in *.
  destruct (decide (pk_only_quals _ quals = false ∧ _)) as [|Hn]; [done|].
  destruct (decide (satisfies pg_qual quals s)); split; try done; tauto.
Qed.

(** Steps 1 and 2 put into the staging table the rows of the snapshot
    that are tagged as present, under their tags. *)
Lemma seeded_staging_present self quals :
  let pks := (primary_keys (snap self)).*1 in
  (pks ≠ [] → NoDup (row_key pks <$> snap_rows (snap self))) →
  (pk_only_quals (get_change_key (snap self)).*1 quals = false → pks ≠ []) →
  seeded_staging pg_qual self quals
    ≡ₚ present (tagged_snapshot pg_qual self quals).
Proof.
  intros pks Hunique Hmode.
  destruct (decide (pks = [])) as [Hnil|Hpks].
  - (* no primary key: step 1 is skipped, step 2 inserts every match *)
    assert (pk_only_quals (get_change_key (snap self)).*1 quals = true) as Hpk.
    { destruct (pk_only_quals _ quals); [done|]. by destruct Hmode. }
    unfold seeded_staging. fold pks. rewrite Hpk, Hnil, insert_select_no_pk.
    rewrite matching_snap_rows_filter. simpl.
    unfold present, retag, tagged_snapshot.
    induction (snap_rows (snap self)) as [|s l IH]; [done|].
    csimpl. rewrite filter_cons. unfold initial_tag at 1. rewrite Hpk.
    destruct (decide (true = false ∧ _)) as [[? _]|_]; [done|].
    destruct (decide (satisfies pg_qual quals s)); csimpl; by rewrite IH.
  - specialize (Hunique Hpks).
    assert ((get_change_key (snap self)).*1 = pks) as Hri.
    { unfold get_change_key, pks in *.
      by destruct (primary_keys (snap self)). }
    assert (∀ x y : Row value * bool,
              x.2 = y.2 → x.1 ∈ snap_rows (snap self) →
              y.1 ∈ snap_rows (snap self) →
              row_key pks x.1 = row_key pks y.1 → x = y) as Hinj.
    { intros [r b] [r' b'] Hb Hr Hr' Hk. simpl in *. subst b'. f_equal.
      by apply (NoDup_fmap_eq (row_key pks) (snap_rows (snap self))). }
    set (A := if pk_only_quals (get_change_key (snap self)).*1 quals
              then []
              else diff_chain self
                     ≫= updated_snap_rows (get_change_key (snap self)).*1
                                          (snap self)).
    assert (seeded_staging pg_qual self quals
            = insert_select pks (matching_snap_rows pg_qual quals (snap self))
                            (insert_select pks A [])) as ->.
    { unfold seeded_staging, A. fold pks.
      destruct (pk_only_quals _ quals); [done|]. by rewrite step1_fold. }
    assert (∀ x, x ∈ A ↔ pk_only_quals (get_change_key (snap self)).*1 quals
                         = false
                         ∧ x.2 = true ∧ x.1 ∈ snap_rows (snap self)
                         ∧ updated_by (get_change_key (snap self)).*1
                                      (diff_chain self) x.1) as HA.
    { intros x. unfold A. destruct (pk_only_quals _ quals).
      - rewrite elem_of_nil. naive_solver.
      - rewrite elem_of_updated_snap_rows. naive_solver. }
    assert (∀ x, x ∈ insert_select pks A [] ↔ x ∈ A) as HA'.
    { intros x. rewrite (elem_of_insert_select pks Hpks).
      - rewrite elem_of_nil, Exists_nil. naive_solver.
      - intros y z (_ & Hy & ? & _)%HA (_ & Hz & ? & _)%HA.
        apply Hinj; congruence. }
    apply NoDup_Permutation.
    + eapply NoDup_fmap_1.
      do 2 apply (insert_select_NoDup pks Hpks). constructor.
    + apply NoDup_tagged_present. by eapply NoDup_fmap_1.
    + intros x. rewrite (elem_of_insert_select pks Hpks).
      2:{ intros y z (Hy & ? & _)%elem_of_matching_snap_rows
                     (Hz & ? & _)%elem_of_matching_snap_rows.
          apply Hinj; congruence. }
      rewrite HA', elem_of_matching_snap_rows, elem_of_tagged_present, HA.
      assert (Exists (λ z : Row value * bool, row_key pks z.1 = row_key pks x.1)
                     (insert_select pks A [])
              ↔ pk_only_quals (get_change_key (snap self)).*1 quals = false
                ∧ ∃ s', s' ∈ snap_rows (snap self)
                        ∧ row_key pks s' = row_key pks x.1
                        ∧ updated_by (get_change_key (snap self)).*1
                                     (diff_chain self) s') as ->.
      { rewrite Exists_exists. split.
        - intros (z & (Hm & _ & Hz & Hu)%HA'%HA & Hk). eauto.
        - intros (Hm & s' & Hs' & Hk & Hu). exists (s', true).
          split; [|done]. apply HA', HA. done. }
      unfold initial_tag.
      destruct x as [r b]. simpl.
      destruct (decide (pk_only_quals _ quals = false ∧ _)) as [[Hm Hu]|Hn].
      * split.
        -- intros [(_ & -> & Hr & _)|[(-> & Hr & _) Hnex]]; [done|].
           destruct Hnex. split; [done|]. by exists r.
        -- intros [Hr [= <-]]. by left.
      * destruct (decide (satisfies pg_qual quals r)) as [Hs|Hs].
        -- split.
           ++ intros [(? & _ & _ & ?)|[(-> & Hr & _) _]];
                [by destruct Hn|done].
           ++ intros [Hr [= <-]]. right. split; [done|].
              intros (Hm & s' & Hs' & Hk & Hu). apply Hn. split; [done|].
              rewrite Hri in *.
              by apply (updated_by_key pks (diff_chain self) s' r).
        -- split; [|by intros [_ ?]].
           intros [(? & _ & _ & ?)|[(_ & _ & ?) _]]; [by destruct Hn|done].
Qed.
End Seeding.

(* ===================================================================== *)
(** * Properties: the layered query *)
(* ===================================================================== *)

Section LayeredQuery.
Import FDW.
Context {value : Type} `{EqDecision value}.
Variable pg_qual : Qual value → value → option bool.
Variable META : string.
Variable where_clause :
  string → string → list string → string → string → Composed.

Implicit Types (self : Wrapper value) (quals : list (Qual value))
               (eng : Engine value).

Local Notation ri_cols_of self := (get_change_key (snap self)).*1.
Local Notation pks_of self := (primary_keys (snap self)).*1.
Local Notation apply_tagged self :=
  (λ m d, apply_diff (ri_cols_of self) (Some true) d m).

(** The chain applied to the tagged snapshot. *)
Local Notation tagged_table self quals :=
  (foldl (apply_tagged self) (tagged_snapshot pg_qual self quals)
         (diff_chain self)).

Lemma fmap_pair_fst {X} (l : list X) : ((λ r, (r, ())) <$> l).*1 = l.
Proof. induction l as [|x l IH]; [done|]. csimpl. by f_equal. Qed.

Lemma retag_forget {A} (m : list (Row value * A)) :
  (retag (λ _, Some ()) m).*1 = m.*1.
Proof.
  induction m as [|x m IH]; [done|].
  change (retag (λ _ : A, Some ()) (x :: m))
    with ((x.1, ()) :: retag (λ _ : A, Some ()) m).
  csimpl. by rewrite IH.
Qed.

(** Forgetting the tags of the tagged table gives the materialized
    table. *)
Lemma materialize_tagged self quals :
  materialize (snap self) (diff_chain self) = (tagged_table self quals).*1.
Proof.
  unfold materialize.
  rewrite <- (retag_forget (tagged_table self quals)).
  rewrite (retag_apply_chain (λ _, Some ()) _ _ ()) by done.
  do 2 f_equal. unfold retag, tagged_snapshot.
  induction (snap_rows (snap self)) as [|s l IH]; [done|].
  csimpl. by rewrite IH.
Qed.

(** Quals on columns of a table that has no primary key are on its change
    key; so when they are not, there is a primary key. *)
Lemma not_pk_only_has_key self quals :
  (∀ q, q ∈ quals → field_name q ∈ get_column_names (snap self)) →
  pk_only_quals (ri_cols_of self) quals = false → pks_of self ≠ [].
Proof.
  intros Hcols Hmode Hnil. apply fmap_nil_inv in Hnil.
  by rewrite (pk_only_quals_no_pk self quals Hnil Hcols) in Hmode.
Qed.

Lemma chain_split (chain : list (DiffObject value)) :
  chain ≠ [] →
  ∃ dn, last chain = Some dn ∧ chain = removelast chain ++ [dn].
Proof.
  intros Hne. destruct (last chain) as [dn|] eqn:Hlast.
  - exists dn. split; [done|].
    apply last_Some in Hlast as [l' ->]. by rewrite removelast_last.
  - by apply last_None in Hlast.
Qed.

(** What [execute] leaves in the staging table is the part of the
    materialized table tagged as present, and the rows left out do not
    satisfy the quals. *)
Lemma layered_staging_present self quals :
  (pks_of self ≠ [] →
   NoDup (row_key (pks_of self) <$> snap_rows (snap self))) →
  key_preserving (ri_cols_of self) (diff_chain self) →
  (∀ q, q ∈ quals → field_name q ∈ get_column_names (snap self)) →
  layered_staging pg_qual self quals ≡ₚ present (tagged_table self quals)
  ∧ Forall (settled pg_qual (ri_cols_of self) quals [])
           (tagged_table self quals).
Proof.
  intros Hunique Hkey Hcols.
  pose proof (seeded_staging_present pg_qual self quals Hunique
                (not_pk_only_has_key self quals Hcols)) as Hseed.
  pose proof (tagged_snapshot_settled pg_qual self quals) as Hsettled.
  unfold layered_staging.
  destruct (decide (diff_chain self = [])) as [Hnil|Hne].
  { rewrite Hnil in *. simpl. done. }
  destruct (chain_split _ Hne) as (dn & Hlast & Hsplit).
  rewrite Hlast.
  remember (seeded_staging pg_qual self quals) as t0 eqn:Et0.
  remember (tagged_snapshot pg_qual self quals) as m0 eqn:Em0.
  remember (removelast (diff_chain self)) as init eqn:Einit.
  clear Et0 Em0 Einit Hlast.
  rewrite Hsplit in *. rewrite !foldl_snoc.
  destruct (apply_loop_present pg_qual (ri_cols_of self) quals
              init [dn] _ _ Hkey Hseed Hsettled)
    as [Hloop Hs].
  destruct (apply_then_filter_present pg_qual (ri_cols_of self) quals
              dn [] _ _ (λ c col Hc, Hkey dn c col ltac:(set_solver) Hc)
              Hloop Hs)
    as (_ & _ & Hs' & Hfinal).
  done.
Qed.

(** C1. For a snapshot with unique primary-key values, a chain whose
    UPDATE records leave the change key alone, and quals on columns of the
    table that are among the requested columns, iterating the stream
    [execute(Q, C)] returns ends, and the rows it yields, filtered by [Q]
    as the executor does, are the rows of [SELECT C FROM T WHERE Q] on the
    fully materialized table [T], as multisets.  This holds on the fast
    path and on the slow path. *)
Theorem layered_query_sound self staging_table quals columns eng :
  staging_table ≠ snap_id (snap self) →
  (pks_of self ≠ [] →
   NoDup (row_key (pks_of self) <$> snap_rows (snap self))) →
  key_preserving (ri_cols_of self) (diff_chain self) →
  (∀ q, q ∈ quals → field_name q ∈ get_column_names (snap self)) →
  (∀ q, q ∈ quals → field_name q ∈ columns) →
  ∃ n, ∀ fuel, n < fuel →
    ∃ rows g_end eng_end,
      iterate fuel self
        (execute pg_qual META where_clause self staging_table quals
                 columns eng).1
        (execute pg_qual META where_clause self staging_table quals
                 columns eng).2
      = Some (rows, g_end, eng_end)
      ∧ gen_state g_end = Finished
      ∧ filter (satisfies pg_qual quals) rows
        ≡ₚ project columns <$>
             filter (satisfies pg_qual quals)
                    (materialize (snap self) (diff_chain self)).
Proof.
  intros Hfresh Hunique Hkey Hcols Hreq.
  destruct (decide (diff_chain self = [])) as [Hnil|Hne].
  - (* fast path *)
    exists (length (snap_rows (snap self))). intros fuel Hfuel.
    rewrite (execute_fast_path pg_qual META where_clause) by done. simpl.
    rewrite (iterate_created self); simpl;
      [|done|unfold table_rows; by rewrite decide_True].
    do 3 eexists. split; [done|]. split; [done|].
    unfold table_rows. rewrite decide_True by done.
    rewrite (filter_satisfies_project pg_qual) by done.
    unfold materialize. rewrite Hnil. simpl.
    by rewrite fmap_pair_fst.
  - (* slow path *)
    exists (length (layered_staging pg_qual self quals)). intros fuel Hfuel.
    rewrite (execute_slow_path pg_qual META where_clause) by done. simpl.
    assert (∀ calls0,
              table_rows self
                (mkEngine (<[staging_table :=
                               layered_staging pg_qual self quals]>
                             (tables eng)) calls0) staging_table
              = (layered_staging pg_qual self quals).*1) as Hrows.
    { intros calls0. unfold table_rows. rewrite decide_False by done.
      simpl. by rewrite lookup_insert_eq. }
    rewrite (iterate_created self); simpl;
      [|done|by rewrite Hrows, length_fmap].
    do 3 eexists. split; [done|]. split; [done|].
    rewrite Hrows.
    destruct (layered_staging_present self quals Hunique Hkey Hcols)
      as [Hperm Hsettled].
    rewrite (filter_satisfies_project pg_qual) by done.
    rewrite Hperm.
    rewrite (filter_satisfies_present pg_qual (ri_cols_of self)) by done.
    by rewrite (materialize_tagged self quals).
Qed.

(** C4. On the slow path the calls after step 2 are, for each object of
    the chain but the last, [apply_diff_object] followed (when there are
    quals) by the DELETE of [_apply_qual_filter], then [apply_diff_object]
    for the last object and nothing after it; the staging table is left as
    the last object made it.  The DELETE removes exactly the rows with
    [sg_meta_keep_pk = FALSE] on which [NOT (Q)] holds, keeps every row
    with [sg_meta_keep_pk = TRUE], and on the staging tables an execution
    over a well-formed chain reaches, those are exactly the rows with
    [sg_meta_keep_pk = FALSE] that do not satisfy [Q]. *)
Theorem mid_chain_filtering self staging_table quals columns eng :
  diff_chain self ≠ [] →
  let out :=
    (execute pg_qual META where_clause self staging_table quals columns eng).2 in
  let before k :=
    foldl (apply_then_filter pg_qual (ri_cols_of self) quals)
          (seeded_staging pg_qual self quals)
          (take k (removelast (diff_chain self))) in
  (∃ prefix dn,
     last (diff_chain self) = Some dn
     ∧ calls out
       = prefix
           ++ step3_calls META staging_table quals
                          (removelast (diff_chain self))
           ++ [apply_call META staging_table dn]
     ∧ tables out !! staging_table
       = Some (apply_diff (ri_cols_of self) true dn
                 (before (length (removelast (diff_chain self))))))
  ∧ (∀ k d, removelast (diff_chain self) !! k = Some d →
       before (S k)
       = filter (λ x, ¬ (x.2 = false ∧ fails pg_qual quals x.1))
                (apply_diff (ri_cols_of self) true d (before k))
       ∧ filter (λ x, x.2 = true) (before (S k))
         = filter (λ x, x.2 = true)
                  (apply_diff (ri_cols_of self) true d (before k)))
  ∧ ((pks_of self ≠ [] →
      NoDup (row_key (pks_of self) <$> snap_rows (snap self))) →
     key_preserving (ri_cols_of self) (diff_chain self) →
     (∀ q, q ∈ quals → field_name q ∈ get_column_names (snap self)) →
     ∀ k d, removelast (diff_chain self) !! k = Some d →
       before (S k)
       = filter (λ x, ¬ (x.2 = false ∧ ¬ satisfies pg_qual quals x.1))
                (apply_diff (ri_cols_of self) true d (before k))).
Proof.
  intros Hne out before.
  destruct (chain_split _ Hne) as (dn & Hlast & Hsplit).
  assert (∀ k d, removelast (diff_chain self) !! k = Some d →
            before (S k)
            = apply_then_filter pg_qual (ri_cols_of self) quals (before k) d)
    as Hstep.
  { intros k d Hk. unfold before.
    rewrite (take_S_r _ _ _ Hk). by rewrite foldl_snoc. }
  split; [|split].
  - exists (calls eng ++ setup_calls META self staging_table
              ++ (if pk_only_quals (ri_cols_of self) quals then []
                  else step1_calls META where_clause self staging_table)
              ++ [step2_call META self staging_table quals]), dn.
    split; [done|]. unfold out.
    rewrite (execute_slow_path pg_qual META where_clause) by done.
    cbn [snd calls tables]. rewrite Hlast. split.
    + by rewrite <- !(assoc_L (++)).
    + rewrite lookup_insert_eq. unfold layered_staging, before.
      by rewrite Hlast, firstn_all.
  - intros k d Hk. rewrite (Hstep k d Hk). unfold apply_then_filter.
    destruct quals as [|q0 quals'] eqn:Hq.
    + split; [|done]. symmetry. apply filter_all, Forall_forall.
      intros x _ [_ Hfail]. done.
    + rewrite <- Hq. split; [done|]. unfold qual_filter_rows.
      rewrite list_filter_filter. apply list_filter_iff.
      intros x. split; [tauto|]. intros Hx. split; [done|].
      intros [Hflag _]. congruence.
  - intros Hunique Hkey Hcols k d Hk. rewrite (Hstep k d Hk).
    pose proof (seeded_staging_present pg_qual self quals Hunique
                  (not_pk_only_has_key self quals Hcols)) as Hseed.
    pose proof (tagged_snapshot_settled pg_qual self quals) as Hsettled.
    pose proof (take_drop_middle _ _ _ Hk) as Hmid.
    assert (diff_chain self
            = take k (removelast (diff_chain self))
                ++ d :: drop (S k) (removelast (diff_chain self)) ++ [dn])
      as Hchain.
    { rewrite Hsplit at 1. rewrite <- Hmid at 1.
      by rewrite <- (assoc_L (++)). }
    rewrite Hchain in Hkey, Hsettled.
    destruct (apply_loop_present pg_qual (ri_cols_of self) quals
                (take k (removelast (diff_chain self))) _ _ _
                Hkey Hseed Hsettled) as [Hloop Hs].
    eapply (apply_then_filter_present pg_qual (ri_cols_of self) quals d);
      [|exact Hloop|exact Hs].
    intros c col Hc. apply (Hkey d); [set_solver|done].
Qed.
End LayeredQuery.

(* ===================================================================== *)
(** * The theorems on the small repository *)
(* ===================================================================== *)

Lemma scenario_key_preserving :
  FDW.key_preserving ["id"] [Scenario.diff_update_3; Scenario.diff_insert_4].
Proof.
  intros d c col Hd Hc Hkind Hcol.
  apply list_elem_of_singleton in Hcol as ->.
  apply elem_of_cons in Hd as [->|Hd].
  - apply list_elem_of_singleton in Hc as ->. reflexivity.
  - apply list_elem_of_singleton in Hd as ->.
    apply list_elem_of_singleton in Hc as ->. discriminate.
Defined.

Lemma layered_query_sound_witness :
  let self := FDW.mkWrapper Scenario.snap_t
                [Scenario.diff_update_3; Scenario.diff_insert_4] in
  ∃ n, ∀ fuel, n < fuel →
    ∃ rows g_end eng_end,
      FDW.iterate fuel self
        (Scenario.run_execute self Scenario.quals_v_a ["id"; "v"]).1
        (Scenario.run_execute self Scenario.quals_v_a ["id"; "v"]).2
      = Some (rows, g_end, eng_end)
      ∧ FDW.gen_state g_end = FDW.Finished
      ∧ filter (FDW.satisfies Scenario.pg_qual Scenario.quals_v_a) rows
        ≡ₚ FDW.project ["id"; "v"] <$>
             filter (FDW.satisfies Scenario.pg_qual Scenario.quals_v_a)
                    (FDW.materialize (FDW.snap self) (FDW.diff_chain self)).
Proof.
  intros self.
  apply (layered_query_sound Scenario.pg_qual Scenario.META
           Scenario.where_clause self "o_staging" Scenario.quals_v_a
           ["id"; "v"] Scenario.empty_engine).
  - discriminate.
  - intros _. refine (bool_decide_unpack _ _). vm_compute. exact I.
  - exact scenario_key_preserving.
  - intros q Hq. apply list_elem_of_singleton in Hq as ->.
    refine (bool_decide_unpack _ _). vm_compute. exact I.
  - intros q Hq. apply list_elem_of_singleton in Hq as ->.
    refine (bool_decide_unpack _ _). vm_compute. exact I.
Defined.

Lemma mid_chain_filtering_witness :
  let self := FDW.mkWrapper Scenario.snap_t
                [Scenario.diff_update_3; Scenario.diff_insert_4] in
  let out := (Scenario.run_execute self Scenario.quals_v_a ["id"; "v"]).2 in
  ∃ prefix dn,
    last (FDW.diff_chain self) = Some dn
    ∧ FDW.calls out
      = prefix
          ++ FDW.step3_calls Scenario.META "o_staging" Scenario.quals_v_a
                             (removelast (FDW.diff_chain self))
          ++ [FDW.apply_call Scenario.META "o_staging" dn]
    ∧ FDW.tables out !! "o_staging"
      = Some (FDW.apply_diff ["id"] true dn
                (foldl (FDW.apply_then_filter Scenario.pg_qual ["id"]
                          Scenario.quals_v_a)
                       (FDW.seeded_staging Scenario.pg_qual self
                          Scenario.quals_v_a)
                       (take 1 (removelast (FDW.diff_chain self))))).
Proof.
  intros self out.
  destruct (mid_chain_filtering Scenario.pg_qual Scenario.META
              Scenario.where_clause self "o_staging" Scenario.quals_v_a
              ["id"; "v"] Scenario.empty_engine) as [Hcalls _].
  - discriminate.
  - exact Hcalls.
Defined.

(* ===================================================================== *)
(** * Properties: placeholders and bound arguments *)
(* ===================================================================== *)

Section PlaceholderProperties.
Import Params.

Lemma string_cons_app a (s t : string) :
  (String a s ++ t)%string = String a (s ++ t)%string.
Proof. reflexivity. Qed.

Lemma string_app_empty_r (s : string) : (s ++ EmptyString)%string = s.
Proof.
  induction s as [|a s IH]; [done|]. rewrite string_cons_app. by f_equal.
Qed.

Lemma scan_app (s t : string) : ∀ p,
  scan p (s ++ t)%string = scan p s + scan (pending_after p s) t.
Proof.
  induction s as [|a s IH]; intros p; [done|].
  rewrite string_cons_app. cbn [scan pending_after].
  destruct p; [destruct (Ascii.eqb a "s")|]; rewrite IH; done.
Qed.

Lemma pending_after_app (s t : string) : ∀ p,
  pending_after p (s ++ t)%string = pending_after (pending_after p s) t.
Proof.
  induction s as [|a s IH]; intros p; [done|].
  rewrite string_cons_app. cbn [pending_after]. destruct p; by rewrite IH.
Qed.

Lemma text_takes_app s t n m :
  text_takes s n → text_takes t m → text_takes (s ++ t)%string (n + m).
Proof.
  intros [Hs Hp] [Ht Hq]. split.
  - by rewrite scan_app, Hp, Hs, Ht.
  - by rewrite pending_after_app, Hp.
Qed.

Lemma text_takes_percent_free s : percent_free s = true → text_takes s 0.
Proof.
  induction s as [|a s IH]; [done|]. cbn [percent_free].
  intros [Ha Hs]%andb_prop. apply negb_true_iff in Ha.
  destruct (IH Hs) as [IH1 IH2].
  split; cbn [scan pending_after]; by rewrite Ha.
Qed.

Lemma percent_free_app s t :
  percent_free s = true → percent_free t = true →
  percent_free (s ++ t)%string = true.
Proof.
  induction s as [|a s IH]; [done|]. rewrite string_cons_app.
  cbn [percent_free]. intros [Ha Hs]%andb_prop Ht.
  rewrite Ha. by apply IH.
Qed.

Lemma percent_free_quote_ident name :
  percent_free name = true → percent_free (quote_ident name) = true.
Proof.
  intros Hname. unfold quote_ident. cbn [percent_free].
  change (Ascii.eqb dquote "%") with false. cbn [negb andb].
  apply percent_free_app; [|done].
  induction name as [|a name IH]; [done|].
  cbn [percent_free] in Hname. apply andb_prop in Hname as [Ha Hname].
  cbn [escape_ident]. destruct (Ascii.eqb a dquote); cbn [percent_free].
  - change (Ascii.eqb dquote "%") with false. by apply IH.
  - rewrite Ha. by apply IH.
Qed.

Lemma as_string_app q1 q2 :
  as_string (q1 ++ q2) = (as_string q1 ++ as_string q2)%string.
Proof.
  induction q1 as [|c q1 IH]; [done|].
  cbn [as_string app]. simpl. by rewrite IH, string_app_assoc.
Qed.

Lemma takes_nil : takes [] 0.
Proof. done. Qed.

Lemma takes_app q1 q2 n m : takes q1 n → takes q2 m → takes (q1 ++ q2) (n + m).
Proof. unfold takes. rewrite as_string_app. apply text_takes_app. Qed.

Lemma takes_SQL text n : text_takes text n → takes [SQL text] n.
Proof. unfold takes. cbn [as_string render]. by rewrite string_app_empty_r. Qed.

Lemma takes_Identifier name : percent_free name = true → takes [Identifier name] 0.
Proof.
  intros Hname. unfold takes. cbn [as_string render].
  rewrite string_app_empty_r.
  by apply text_takes_percent_free, percent_free_quote_ident.
Qed.

Lemma takes_cons c q n m : takes [c] n → takes q m → takes (c :: q) (n + m).
Proof. apply (takes_app [c] q). Qed.

(** A statement that starts with a name or with text holding no
    placeholder takes what the rest takes. *)
Lemma takes_cons_Identifier name q n :
  percent_free name = true → takes q n → takes (Identifier name :: q) n.
Proof. intros Hname Hq. by apply (takes_cons _ _ 0 n); [apply takes_Identifier|]. Qed.

Lemma takes_cons_SQL text q n :
  percent_free text = true → takes q n → takes (SQL text :: q) n.
Proof.
  intros Htext Hq.
  by apply (takes_cons _ _ 0 n); [apply takes_SQL, text_takes_percent_free|].
Qed.

Lemma takes_qualified schema table :
  percent_free schema = true → percent_free table = true →
  takes (qualified schema table) 0.
Proof.
  intros Hs Ht. unfold qualified.
  apply takes_cons_Identifier; [done|]. apply takes_cons_SQL; [done|].
  by apply takes_Identifier.
Qed.

Lemma text_takes_str_join sep parts ns :
  text_takes sep 0 → Forall2 text_takes parts ns →
  text_takes (str_join sep parts) (sum_list ns).
Proof.
  intros Hsep Hall. induction Hall as [|p n parts ns Hp Hall IH]; [done|].
  destruct Hall as [|p' n' parts ns Hp' Hall].
  - simpl. by rewrite Nat.add_0_r.
  - change (text_takes (p ++ sep ++ str_join sep (p' :: parts))%string
                       (n + sum_list (n' :: ns))).
    apply text_takes_app; [done|].
    by apply (text_takes_app sep _ 0).
Qed.

Lemma takes_SQL_join sep (seq : list Composed) ns :
  percent_free sep = true → Forall2 takes seq ns →
  takes (SQL_join sep seq) (sum_list ns).
Proof.
  intros Hsep Hall. induction Hall as [|c n seq ns Hc Hall IH]; [done|].
  destruct Hall as [|c' n' seq ns Hc' Hall].
  - simpl. by rewrite Nat.add_0_r.
  - change (takes (c ++ SQL sep :: SQL_join sep (c' :: seq))
                  (n + sum_list (n' :: ns))).
    apply takes_app; [done|]. by apply takes_cons_SQL.
Qed.

(** A comma-separated list of names takes no argument. *)
Lemma takes_identifiers {X} (f : X → string) (l : list X) :
  Forall (λ x, percent_free (f x) = true) l →
  takes (SQL_join "," ((λ x, [Identifier (f x)]) <$> l)) 0.
Proof.
  intros Hall.
  replace 0 with (sum_list (replicate (length l) 0)).
  2:{ clear. induction l; [done|]. simpl. done. }
  apply takes_SQL_join; [done|].
  induction Hall as [|x l Hx Hall IH]; [constructor|].
  constructor; [by apply takes_Identifier|done].
Qed.

(** [n] comma-separated [%s] take [n] arguments. *)
Lemma text_takes_placeholders n :
  text_takes (str_join "," (replicate n "%s")) n.
Proof.
  replace n with (sum_list (replicate n 1)) at 2.
  2:{ clear. induction n; [done|]. simpl. by f_equal. }
  apply text_takes_str_join; [done|].
  induction n; constructor; done.
Qed.
End PlaceholderProperties.

(* ===================================================================== *)
(** * Properties: the statements built from quals *)
(* ===================================================================== *)

Section QualStatements.
Import FDW Client Params.
Context {value : Type}.
Implicit Types (q : Qual value) (quals : list (Qual value)).

(** Quals whose column and operator hold no percent sign. *)
Lemma _quals_to_postgres_fst quals :
  (_quals_to_postgres quals).1
  = SQL_join " AND " ((λ q, (qual_fragment_spec q).1) <$> quals).
Proof. unfold _quals_to_postgres. by rewrite quals_loop. Qed.

Lemma _quals_to_postgres_snd quals :
  (_quals_to_postgres quals).2
  = concat ((λ q, (qual_fragment_spec q).2) <$> quals).
Proof. unfold _quals_to_postgres. by rewrite quals_loop. Qed.

Lemma takes_qual_fragment q :
  percent_free (field_name q) = true → percent_free (operator q) = true →
  takes (qual_fragment_spec q).1 (length (qual_fragment_spec q).2).
Proof.
  intros Hf Hop.
  destruct q as [field op v|field op any_or_all values]; cbn in Hf, Hop.
  - cbn [qual_fragment_spec fst snd length].
    apply takes_cons_Identifier; [done|]. apply takes_SQL.
    apply (text_takes_app " " _ 0 1); [done|].
    apply (text_takes_app op _ 0 1); [by apply text_takes_percent_free|done].
  - assert (∀ kw, percent_free kw = true →
              takes [Identifier field;
                     SQL (" " ++ op ++ kw ++ placeholders (length values) ++ "])")]
                    (length values)) as Hkw.
    { intros kw Hfree. apply takes_cons_Identifier; [done|]. apply takes_SQL.
      apply (text_takes_app " " _ 0); [done|].
      apply (text_takes_app op _ 0); [by apply text_takes_percent_free|].
      apply (text_takes_app kw _ 0); [by apply text_takes_percent_free|].
      pose proof (text_takes_app (placeholders (length values)) "])"
                    (length values) 0) as Happ.
      rewrite Nat.add_0_r in Happ.
      apply Happ; [apply text_takes_placeholders|done]. }
    destruct any_or_all; cbn [qual_fragment_spec fst snd]; by apply Hkw.
Qed.

Lemma takes_quals quals :
  Forall (λ q, percent_free (field_name q) = true
               ∧ percent_free (operator q) = true) quals →
  takes (_quals_to_postgres quals).1 (length (_quals_to_postgres quals).2).
Proof.
  intros Hall. rewrite _quals_to_postgres_fst, _quals_to_postgres_snd.
  replace (length (concat ((λ q, (qual_fragment_spec q).2) <$> quals)))
    with (sum_list ((λ q, length (qual_fragment_spec q).2) <$> quals)).
  2:{ clear. induction quals as [|q quals IH]; [done|].
      csimpl. rewrite length_app. by f_equal. }
  apply takes_SQL_join; [done|].
  induction Hall as [|q quals [Hf Hop] Hall IH]; [constructor|].
  csimpl. constructor; [by apply takes_qual_fragment|done].
Qed.

(** X1. When no column name and no operator of the quals holds a percent
    sign, the statement text [_quals_to_postgres] returns has exactly as
    many [%s] placeholders as the list of bound values it returns has
    elements. *)
Theorem quals_placeholders_match_values quals :
  Forall (λ q, percent_free (field_name q) = true
               ∧ percent_free (operator q) = true) quals →
  count_placeholders (_quals_to_postgres quals).1
  = length (_quals_to_postgres quals).2.
Proof. intros Hall. by destruct (takes_quals quals Hall). Qed.

Lemma qual_fragment_shape q q' :
  qual_shape q = qual_shape q' →
  (qual_fragment_spec q).1 = (qual_fragment_spec q').1.
Proof.
  destruct q as [f op v|f op aa vs], q' as [f' op' v'|f' op' aa' vs'];
    cbn [qual_shape]; intros [=]; subst; [done|].
  destruct aa'; cbn [qual_fragment_spec fst]; congruence.
Qed.

(** X2. The statement text [_quals_to_postgres] returns does not depend on
    the values of the quals: two lists of quals with the same columns,
    operators, ANY/ALL flags and numbers of elements give the same text.
    The columns appear in it as quoted identifiers, once per qual and in
    qual order. *)
Theorem quals_text_ignores_values quals :
  (∀ quals', qual_shape <$> quals = qual_shape <$> quals' →
             (_quals_to_postgres quals).1 = (_quals_to_postgres quals').1)
  ∧ identifiers (_quals_to_postgres quals).1 = field_name <$> quals.
Proof.
  split.
  - intros quals' Hshape. rewrite !_quals_to_postgres_fst. f_equal.
    revert quals' Hshape.
    induction quals as [|q quals IH]; intros [|q' quals'] [=]; [done|].
    csimpl. f_equal; [by apply qual_fragment_shape|by apply IH].
  - rewrite _quals_to_postgres_fst.
    induction quals as [|q [|q2 quals] IH].
    + done.
    + by destruct q as [f op v|f op [] vs].
    + change (identifiers ((qual_fragment_spec q).1 ++ SQL " AND " ::
                SQL_join " AND " ((λ q, (qual_fragment_spec q).1) <$> q2 :: quals))
              = field_name q :: (field_name <$> q2 :: quals)).
      rewrite identifiers_app.
      change (identifiers (SQL " AND " :: ?x)) with (identifiers x).
      rewrite IH.
      by destruct q as [f op v|f op [] vs].
Qed.
End QualStatements.

Lemma quals_placeholders_match_values_witness :
  Params.count_placeholders
    (FDW._quals_to_postgres
       [ScalarQual "id" ">" (Scenario.VInt 2);
        ListQual "v" "=" ANY [Scenario.VText "a"; Scenario.VText "b"]]).1
  = 3.
Proof.
  rewrite (quals_placeholders_match_values
             [ScalarQual "id" ">" (Scenario.VInt 2);
              ListQual "v" "=" ANY [Scenario.VText "a"; Scenario.VText "b"]]).
  - reflexivity.
  - repeat constructor.
Defined.

Lemma quals_text_ignores_values_witness :
  (FDW._quals_to_postgres
     [ScalarQual "id" ">" (Scenario.VInt 2);
      ListQual "v" "=" ANY [Scenario.VText "a"; Scenario.VText "b"]]).1
  = (FDW._quals_to_postgres
       [ScalarQual "id" ">" (Scenario.VInt 7);
        ListQual "v" "=" ANY [Scenario.VNull; Scenario.VText "%s"]]).1.
Proof.
  apply (quals_text_ignores_values
           [ScalarQual "id" ">" (Scenario.VInt 2);
            ListQual "v" "=" ANY [Scenario.VText "a"; Scenario.VText "b"]]).
  reflexivity.
Defined.

(* ===================================================================== *)
(** * Properties: [copy_table] *)
(* ===================================================================== *)

Section CopyTable.
Import Tables Params.
Context {Arg : Type}.
Variable int_arg : Z → Arg.

Lemma takes_chunk_sql (chunk_key : list (string * string)) :
  Forall (λ p, percent_free p.1 = true) chunk_key →
  takes (chunk_sql chunk_key) 0.
Proof.
  intros Hall. unfold chunk_sql.
  apply takes_cons_SQL; [done|].
  apply (takes_app _ _ 0 0); [by apply (takes_identifiers fst)|done].
Qed.

Lemma takes_chunk_bound n :
  takes [SQL (" > (" ++ str_join "," (replicate n "%s") ++ ")")] n.
Proof.
  apply takes_SQL. apply (text_takes_app " > (" _ 0); [done|].
  pose proof (text_takes_app (str_join "," (replicate n "%s")) ")" n 0) as Happ.
  rewrite Nat.add_0_r in Happ.
  apply Happ; [apply text_takes_placeholders|done].
Qed.

Ltac takes_tac :=
  repeat match goal with
  | |- takes [] _ => apply takes_nil
  | |- takes (Identifier _ :: _) _ =>
      apply takes_cons_Identifier; [assumption|]
  | |- takes [SQL (" > (" ++ _)] _ => apply takes_chunk_bound
  | |- takes [SQL " LIMIT %s"] _ => apply (takes_SQL _ 1); done
  | |- takes (SQL _ :: _) _ => apply takes_cons_SQL; [reflexivity|]
  | |- takes (qualified _ _) _ => apply takes_qualified; assumption
  | |- takes (chunk_sql _) _ => apply takes_chunk_sql; assumption
  | |- takes (SQL_join "," _) _ => apply (takes_identifiers fst); assumption
  | |- takes (_ ++ _) _ => eapply takes_app
  end.

(** X3. When no name involved holds a percent sign, the statement
    [copy_table] runs has as many [%s] placeholders as it is given
    arguments exactly when [after_pk] is falsy or has one value per
    column of the chunk key. *)
Theorem copy_table_placeholders
    source_schema source_table target_schema target_table
    with_pk_constraints limit (after_pk : option (list Arg))
    target_exists pks chunk_key :
  percent_free source_schema = true → percent_free source_table = true →
  percent_free target_schema = true → percent_free target_table = true →
  Forall (λ p, percent_free p.1 = true) pks →
  Forall (λ p, percent_free p.1 = true) chunk_key →
  let call :=
    copy_table_query int_arg source_schema source_table target_schema
      target_table with_pk_constraints limit after_pk target_exists pks
      chunk_key in
  count_placeholders call.1 = length call.2
  ↔ match after_pk with
    | Some (a :: rest) => length (a :: rest) = length chunk_key
    | _ => True
    end.
Proof.
  intros Hss Hst Hts Htt Hpks Hkey call. subst call.
  unfold copy_table_query.
  destruct target_exists, after_pk as [[|a rest]|], limit as [z|];
    try destruct (decide (z = 0%Z));
    destruct pks as [|pk pks'], with_pk_constraints;
    cbn [negb fst snd];
    match goal with
    | |- count_placeholders ?q = _ ↔ _ =>
        eassert (takes q _) as [Hn _] by takes_tac;
        unfold count_placeholders; rewrite Hn
    end;
    rewrite ?length_app; cbn [length app]; lia.
Qed.
End CopyTable.

Lemma copy_table_placeholders_witness :
  let call :=
    Tables.copy_table_query (λ z : Z, z) "src" "t" "dst" "t" true
      (Some 10%Z) (Some [5%Z]) false
      [("id", "integer")] [("id", "integer")] in
  Params.count_placeholders call.1 = length call.2.
Proof.
  intros call.
  apply (copy_table_placeholders (λ z : Z, z) "src" "t" "dst" "t" true
           (Some 10%Z) (Some [5%Z]) false
           [("id", "integer")] [("id", "integer")]);
    [reflexivity..| | |reflexivity]; repeat constructor.
Defined.

Section CopyTableLimit.
Import Tables.
Context {Arg : Type}.
Variable int_arg : Z → Arg.

Lemma elem_of_identifier_join {X} (f : X → string) (l : list X) c :
  c ∈ SQL_join "," ((λ x, [Identifier (f x)]) <$> l) →
  c = SQL "," ∨ ∃ name, c = Identifier name.
Proof.
  induction l as [|x [|x' l] IH].
  - by intros ?%elem_of_nil.
  - intros ->%list_elem_of_singleton. eauto.
  - intros Hc.
    change (c ∈ Identifier (f x) :: SQL "," ::
              SQL_join "," ((λ x, [Identifier (f x)]) <$> x' :: l)) in Hc.
    rewrite !elem_of_cons in Hc. destruct Hc as [->|[->|Hc]]; eauto.
Qed.

Lemma limit_not_in_chunk_sql chunk_key :
  SQL " LIMIT %s" ∉ chunk_sql chunk_key.
Proof.
  unfold chunk_sql. rewrite elem_of_cons, elem_of_app, list_elem_of_singleton.
  intros [|[[|[? ?]]%(elem_of_identifier_join fst)|]]; done.
Qed.

Lemma limit_not_chunk_bound n :
  SQL " LIMIT %s" ≠ SQL (" > (" ++ str_join "," (replicate n "%s") ++ ")").
Proof.
  change (" > (" ++ ?s)%string with (String " " (String ">" (" (" ++ s))).
  intros [=].
Qed.

(** X4. [copy_table] treats a limit of [0] like no limit: the statement
    and the arguments are those of a call without [limit]. The statement
    has a LIMIT clause exactly when [limit] is given and not [0], and the
    limit is then the last argument. *)
Theorem copy_table_limit
    source_schema source_table target_schema target_table
    with_pk_constraints (after_pk : option (list Arg))
    target_exists pks chunk_key :
  let call limit :=
    copy_table_query int_arg source_schema source_table target_schema
      target_table with_pk_constraints limit after_pk target_exists pks
      chunk_key in
  call (Some 0%Z) = call None
  ∧ (∀ limit, SQL " LIMIT %s" ∈ (call limit).1
              ↔ ∃ z, limit = Some z ∧ z ≠ 0%Z)
  ∧ (∀ z, z ≠ 0%Z → (call (Some z)).2 = (call None).2 ++ [int_arg z]).
Proof.
  intros call. subst call. cbn beta.
  pose proof (limit_not_in_chunk_sql chunk_key) as Hchunk.
  pose proof (limit_not_chunk_bound (length chunk_key)) as Hbound.
  assert (∀ l : list (string * string),
            SQL " LIMIT %s" ∉
              SQL_join "," ((λ p : string * string, [Identifier p.1]) <$> l))
    as Hjoin.
  { intros l [|[? ?]]%(elem_of_identifier_join fst); done. }
  split; [|split].
  - unfold copy_table_query.
    destruct target_exists, after_pk as [[|a rest]|], pks as [|pk pks'];
      done.
  - intros limit. unfold copy_table_query, qualified.
    destruct target_exists, after_pk as [[|a rest]|], limit as [z|];
      try destruct (decide (z = 0%Z));
      destruct pks as [|pk pks'], with_pk_constraints;
      cbn [negb fst snd];
      rewrite ?elem_of_app, ?elem_of_cons, ?elem_of_app, ?elem_of_cons,
              ?elem_of_nil;
      (split;
       [intros H;
        repeat match goal with H : _ ∨ _ |- _ => destruct H as [H|H] end;
        first [ discriminate H
              | done
              | by destruct (Hchunk H)
              | by destruct (Hjoin _ H)
              | by destruct (Hbound H)
              | by eauto ]
       |intros (z' & Hz & Hne); first [done | naive_solver]]).
  - intros z Hz. unfold copy_table_query.
    destruct target_exists, after_pk as [[|a rest]|];
      destruct (decide (z = 0%Z)); try done;
      destruct pks as [|pk pks'], with_pk_constraints; done.
Qed.
End CopyTableLimit.

Lemma copy_table_limit_witness :
  (Tables.copy_table_query (λ z : Z, z) "src" "t" "dst" "t" true
     (Some 10%Z) (Some [5%Z]) false [("id", "integer")] [("id", "integer")]).2
  = [5%Z; 10%Z].
Proof.
  destruct (copy_table_limit (λ z : Z, z) "src" "t" "dst" "t" true
              (Some [5%Z]) false [("id", "integer")] [("id", "integer")])
    as (_ & _ & Hargs).
  rewrite (Hargs 10%Z); [reflexivity|discriminate].
Defined.

(* ===================================================================== *)
(** * Properties: [run_sql_in] and [create_table] *)
(* ===================================================================== *)

Section RunSqlIn.
Import SQLEngine Tables.
Context {Backend Exn Arg Result : Type}.
Variable run_sql_impl :
  Composed → option (list Arg) → ResultShape → Eff Backend Exn Result.
Variable text_arg : string → Arg.
Variable dump_error : DumpError → Exn.
Implicit Types (eng : Engine Backend).

Lemma run_sql_unfold statement arguments return_shape eng :
  run_sql run_sql_impl statement arguments return_shape eng
  = (mkEngine (_savepoint_stack eng) (statements eng ++ [statement])
              (run_sql_impl statement arguments return_shape (backend eng)).1,
     (run_sql_impl statement arguments return_shape (backend eng)).2).
Proof. unfold run_sql. by destruct (run_sql_impl _ _ _ _). Qed.

(** X5. [run_sql_in] resets the search path only when the query returns:
    once the search path is set, a query that raises leaves [run_sql_in]
    with that exception after two statements, the reset not being run; a
    query that returns is followed by the reset, and its result is the
    result of [run_sql_in]. *)
Theorem run_sql_in_search_path schema sql arguments return_shape eng b1 r1 :
  run_sql_impl SET_search_path (Some [text_arg schema]) NONE (backend eng)
    = (b1, Returned r1) →
  (∀ b2 e,
     run_sql_impl sql arguments return_shape b1 = (b2, Raised e) →
     run_sql_in run_sql_impl text_arg schema sql arguments return_shape eng
     = (mkEngine (_savepoint_stack eng)
                 (statements eng ++ [SET_search_path; sql]) b2,
        Raised e))
  ∧ (∀ b2 result b3 r3,
       run_sql_impl sql arguments return_shape b1 = (b2, Returned result) →
       run_sql_impl RESET_search_path (Some [text_arg schema]) NONE b2
         = (b3, Returned r3) →
       run_sql_in run_sql_impl text_arg schema sql arguments return_shape eng
       = (mkEngine (_savepoint_stack eng)
                   (statements eng ++ [SET_search_path; sql; RESET_search_path])
                   b3,
          Returned result)).
Proof.
  intros Hset. split.
  - intros b2 e Hsql. unfold run_sql_in, mbind, Eff_bind.
    rewrite run_sql_unfold, Hset. cbn [fst snd].
    rewrite run_sql_unfold. cbn [backend _savepoint_stack statements].
    rewrite Hsql. cbn [fst snd]. by rewrite <- (assoc_L (++)).
  - intros b2 result b3 r3 Hsql Hreset. unfold run_sql_in, mbind, Eff_bind.
    rewrite run_sql_unfold, Hset. cbn [fst snd].
    rewrite run_sql_unfold. cbn [backend _savepoint_stack statements].
    rewrite Hsql. cbn [fst snd].
    rewrite run_sql_unfold. cbn [backend _savepoint_stack statements].
    rewrite Hreset. cbn [fst snd]. unfold mret, Eff_ret.
    by rewrite <- !(assoc_L (++)).
Qed.

(** X6. [create_table] on a table that is not temporary and has no schema
    raises [TypeError] before any statement is run. For a temporary table
    the schema is ignored: whatever is passed, [create_table] does what it
    does without one. When the type names can stand in the template it
    runs one statement, which starts with CREATE TEMPORARY TABLE also when
    [unlogged] is set; when they cannot, it raises without running
    anything. *)
Theorem create_table_schema table schema_spec unlogged eng :
  create_table run_sql_impl dump_error None table schema_spec unlogged false
               eng
  = (eng, Raised (dump_error TypeError))
  ∧ (∀ schema,
       create_table run_sql_impl dump_error schema table schema_spec
                    unlogged true eng
       = create_table run_sql_impl dump_error None table schema_spec
                      unlogged true eng)
  ∧ (Forall (λ e, format_safe e.1.2) schema_spec →
     ∃ q,
       dump_table_creation None table schema_spec unlogged true = inr q
       ∧ head q = Some (SQL "CREATE TEMPORARY TABLE ")
       ∧ statements
           (create_table run_sql_impl dump_error None table schema_spec
                         unlogged true eng).1
         = statements eng ++ [q])
  ∧ (¬ Forall (λ e, format_safe e.1.2) schema_spec →
     create_table run_sql_impl dump_error None table schema_spec unlogged
                  true eng
     = (eng, Raised (dump_error FormatError))).
Proof.
  split; [done|]. split; [done|]. split.
  - intros Hsafe.
    destruct (proj1 (dump_table_creation_is_inr None table schema_spec
                       unlogged true)) as [q Hq]; [by split; [left|]|].
    exists q. split; [done|]. split.
    + apply dump_table_creation_inr in Hq
        as (target & defs & [= <-] & _ & ->). reflexivity.
    + unfold create_table. rewrite Hq. unfold mbind, Eff_bind.
      rewrite run_sql_unfold. by destruct (run_sql_impl _ _ _ _).2.
  - intros Hunsafe. unfold create_table, dump_table_creation.
    destruct (column_defs (sorted schema_spec)) as [defs|] eqn:Hdefs; [|done].
    destruct Hunsafe.
    assert (is_Some (column_defs (sorted schema_spec))) as Hsome by eauto.
    apply column_defs_is_Some in Hsome. unfold sorted in Hsome.
    by rewrite merge_sort_Permutation in Hsome.
Qed.
End RunSqlIn.

Lemma run_sql_in_search_path_witness :
  let impl : Composed → option (list string) → Tables.ResultShape
             → Eff nat string nat :=
    λ statement _ _ n,
      if decide (statement = [SQL "SELECT 1/0"])
      then (n, Raised "division by zero") else (S n, Returned n) in
  let eng := SQLEngine.mkEngine [] [] 0 in
  Tables.run_sql_in impl (λ s, s) "app" [SQL "SELECT 1/0"] None
                    Tables.MANY_MANY eng
  = (SQLEngine.mkEngine []
       [Tables.SET_search_path; [SQL "SELECT 1/0"]] 1,
     Raised "division by zero").
Proof.
  intros impl eng.
  destruct (run_sql_in_search_path impl (λ s, s) "app" [SQL "SELECT 1/0"]
              None Tables.MANY_MANY eng 1 0 eq_refl) as [Hraise _].
  apply (Hraise 1 "division by zero"). reflexivity.
Defined.

(* ===================================================================== *)
(** * Properties: recreating a table from its full schema *)
(* ===================================================================== *)

Section FullTableSchema.
Import SQLEngine Tables.
Implicit Types (results : list (Z * string * string))
               (primary_keys : list (string * string)).

Lemma entry_le_of_ordinal_lt a b :
  (ordinal_position a < ordinal_position b)%Z → entry_le a b.
Proof.
  destruct a as [[[o n] t] p], b as [[[o' n'] t'] p'].
  unfold entry_le, entry_compare, pair_compare, lex, ordinal_position; simpl.
  intros Hlt. apply Z.compare_lt_iff in Hlt. by rewrite Hlt.
Qed.

(** Sorting a sorted schema spec changes nothing. *)
Lemma sorted_already spec : Sorted entry_le spec → sorted spec = spec.
Proof.
  intros Hs. unfold sorted.
  pose proof entry_le_trans. pose proof entry_le_antisymm.
  pose proof entry_le_total.
  apply (Sorted_unique entry_le);
    [apply Sorted_merge_sort, _|done|apply merge_sort_Permutation].
Qed.

Lemma get_full_table_schema_Sorted results primary_keys :
  Sorted (λ a b, (a.1.1 < b.1.1)%Z) results →
  Sorted entry_le (get_full_table_schema results primary_keys).
Proof.
  unfold get_full_table_schema.
  induction 1 as [|[[o n] dt] results Hs IH Hhd]; [constructor|].
  csimpl. constructor; [done|].
  destruct Hhd as [|[[o' n'] dt'] results' Hlt]; constructor.
  by apply entry_le_of_ordinal_lt.
Qed.

Lemma get_full_table_schema_names results primary_keys :
  column_name <$> get_full_table_schema results primary_keys
  = results.*1.*2.
Proof.
  unfold get_full_table_schema.
  induction results as [|[[o n] dt] results IH]; [done|].
  csimpl. by f_equal.
Qed.

Lemma get_full_table_schema_pk_names results primary_keys :
  column_name <$> filter (λ e, is_pk e = true)
                    (get_full_table_schema results primary_keys)
  = filter (λ n, n ∈ primary_keys.*1) results.*1.*2.
Proof.
  unfold get_full_table_schema.
  induction results as [|[[o n] dt] results IH]; [done|].
  csimpl. rewrite !filter_cons. cbn [is_pk snd fst].
  destruct (decide (n ∈ primary_keys.*1)) as [Hin|Hin].
  - rewrite (bool_decide_eq_true_2 _ Hin).
    rewrite decide_True by done. csimpl. by f_equal.
  - rewrite (bool_decide_eq_false_2 _ Hin).
    rewrite decide_False by done. done.
Qed.

Lemma dump_table_creation_identifiers schema table spec unlogged temporary q :
  dump_table_creation schema table spec unlogged temporary = inr q →
  identifiers q
  = target_names schema table temporary
      ++ (column_name <$> sorted spec)
      ++ (column_name <$> filter (λ e, is_pk e = true) (sorted spec)).
Proof.
  intros (target & defs & Htarget & Hdefs & ->)%dump_table_creation_inr.
  set (pk_cols := column_name <$> filter _ _).
  pose proof (pk_clause_identifiers pk_cols) as Hpk.
  rewrite !identifiers_app.
  change (identifiers (SQL ?t :: ?l)) with (identifiers l).
  rewrite identifiers_app.
  change (identifiers (SQL ?t :: ?l)) with (identifiers l).
  rewrite (identifiers_column_defs _ _ Hdefs).
  assert (identifiers target = target_names schema table temporary) as ->.
  { unfold target_names.
    destruct temporary; [|destruct schema as [s|]; [|done]];
      by injection Htarget as <-. }
  rewrite <- !(assoc_L (++)). do 2 f_equal.
  destruct pk_cols as [|pk pk_cols'];
    [|rewrite Hpk]; destruct unlogged; cbn; by rewrite ?app_nil_r.
Qed.

Lemma brace_free_app text suffix :
  brace_free text = true → brace_free suffix = true →
  brace_free (text ++ suffix) = true.
Proof.
  induction text as [|c text IH]; [done|].
  change (String c text ++ suffix)%string with (String c (text ++ suffix)).
  cbn [brace_free]. intros [Hc Htext]%andb_prop Hsuffix.
  rewrite Hc. by apply IH.
Qed.

Lemma brace_free_format_safe text : brace_free text = true → format_safe text.
Proof.
  intros Hfree. unfold format_safe.
  rewrite (literal_pieces_brace_free _ Hfree). by eexists.
Qed.

Lemma not_character_type (t s1 s2 : string) :
  t ≠ "character" → s1 = " " ∨ s1 = " ," → s2 = " " ∨ s2 = " ," →
  (" " ++ t ++ s1)%string ≠ (" character" ++ s2)%string.
Proof.
  intros Ht Hs1 Hs2 Heq. apply Ht. clear Ht.
  change (String " " (t ++ s1) = String " " ("character" ++ s2))%string
    in Heq.
  injection Heq as Heq.
  do 9 (destruct t as [|? t];
        [destruct Hs1 as [-> | ->]; discriminate Heq|];
        change (String ?c t ++ s1)%string with (String c (t ++ s1)) in Heq;
        injection Heq as -> Heq).
  destruct t as [|a t]; [done|]. exfalso.
  change (String a t ++ s1)%string with (String a (t ++ s1)) in Heq.
  change ("" ++ s2)%string with s2 in Heq.
  destruct Hs2 as [-> | ->]; injection Heq as -> Heq.
  - destruct t, Hs1 as [-> | ->]; discriminate Heq.
  - destruct t as [|b t]; [destruct Hs1 as [-> | ->]; discriminate Heq|].
    change (String b t ++ s1)%string with (String b (t ++ s1)) in Heq.
    injection Heq as -> Heq.
    destruct t, Hs1 as [-> | ->]; discriminate Heq.
Qed.

Lemma not_character_piece (t s1 s2 : string) :
  t ≠ "character" → s1 = " " ∨ s1 = " ," → s2 = " " ∨ s2 = " ," →
  SQL (" character" ++ s2) ≠ SQL (" " ++ t ++ s1).
Proof.
  intros Ht Hs1 Hs2 Heq.
  apply (not_character_type t s1 s2 Ht Hs1 Hs2). congruence.
Qed.

(** X7. A table is recreated from what [get_full_table_schema] reports
    (its query returning the columns in increasing ordinal position, with
    type names that hold no braces): [dump_table_creation] builds a
    CREATE TABLE statement that lists the columns in that order, then as
    primary key the columns that are in the primary key, in column order
    whatever the order of the key; no column is declared with the type
    [character]. *)
Theorem recreate_table_schema schema table results primary_keys unlogged :
  Sorted (λ a b, (a.1.1 < b.1.1)%Z) results →
  Forall (λ r, brace_free r.2 = true) results →
  ∃ q,
    dump_table_creation (Some schema) table
      (get_full_table_schema results primary_keys) unlogged false = inr q
    ∧ identifiers q
      = [schema; table] ++ results.*1.*2
          ++ filter (λ n, n ∈ primary_keys.*1) results.*1.*2
    ∧ SQL " character " ∉ q ∧ SQL " character ," ∉ q.
Proof.
  intros Hsorted Hfree.
  set (spec := get_full_table_schema results primary_keys).
  assert (Forall (λ e, brace_free e.1.2 = true ∧ e.1.2 ≠ "character") spec)
    as Htypes.
  { unfold spec, get_full_table_schema. apply Forall_fmap.
    eapply Forall_impl; [exact Hfree|]. intros [[o n] dt] Hdt.
    cbn [compose fst snd] in *. unfold _convert_type.
    destruct (decide (dt ≠ "character")); by split. }
  destruct (proj1 (dump_table_creation_is_inr (Some schema) table spec
                     unlogged false)) as [q Hq].
  { split; [right; by eexists|].
    eapply Forall_impl; [exact Htypes|].
    intros e [He _]. by apply brace_free_format_safe. }
  exists q. split; [done|].
  pose proof (sorted_already _
                (get_full_table_schema_Sorted results primary_keys Hsorted))
    as Hsame. fold spec in Hsame.
  split.
  { rewrite (dump_table_creation_identifiers _ _ _ _ _ _ Hq), Hsame.
    unfold spec.
    by rewrite get_full_table_schema_names, get_full_table_schema_pk_names. }
  apply dump_table_creation_inr in Hq as (target & defs & Htarget & Hdefs & ->).
  rewrite Hsame in Hdefs. rewrite Hsame. cbn in Htarget.
  injection Htarget as <-.
  assert (∀ suffix, suffix = " " ∨ suffix = " ," →
            SQL (" character" ++ suffix) ∉ defs) as Hnot.
  { intros suffix Hsuf Hin.
    destruct (elem_of_column_defs _ _ _ Hdefs Hin)
      as [[name [=]]|(e & s1 & ps & piece & He & Hs1 & Hps & Hp & Hc)].
    rewrite Forall_forall in Htypes. destruct (Htypes e He) as [Hbf Hne].
    rewrite literal_pieces_brace_free in Hps.
    2:{ change (" " ++ e.1.2 ++ s1)%string with (String " " (e.1.2 ++ s1)).
        cbn [brace_free]. change (is_brace " ") with false. cbn [negb andb].
        apply brace_free_app; [done|]. by destruct Hs1 as [-> | ->]. }
    change (" " ++ e.1.2 ++ s1)%string with (String " " (e.1.2 ++ s1)) in Hps.
    injection Hps as <-. apply list_elem_of_singleton in Hp as ->.
    by apply (not_character_piece e.1.2 s1 suffix Hne Hs1 Hsuf). }
  set (pk_cols := column_name <$> filter _ _).
  assert (∀ suffix, suffix = " " ∨ suffix = " ," →
            SQL (" character" ++ suffix) ∉ pk_clause pk_cols) as Hpk.
  { intros suffix Hsuf. unfold pk_clause.
    rewrite elem_of_cons, elem_of_app, list_elem_of_singleton.
    intros [[= Hc]|[[Hc|[? Hc]]%(elem_of_identifier_join id)|[= Hc]]];
      destruct Hsuf as [-> | ->]; discriminate Hc. }
  split.
  - specialize (Hnot " " (or_introl eq_refl)).
    specialize (Hpk " " (or_introl eq_refl)).
    destruct unlogged, pk_cols as [|pk pk_cols']; unfold qualified;
      rewrite ?elem_of_app, ?elem_of_cons, ?elem_of_app, ?elem_of_cons,
              ?elem_of_nil; naive_solver.
  - specialize (Hnot " ," (or_intror eq_refl)).
    specialize (Hpk " ," (or_intror eq_refl)).
    destruct unlogged, pk_cols as [|pk pk_cols']; unfold qualified;
      rewrite ?elem_of_app, ?elem_of_cons, ?elem_of_app, ?elem_of_cons,
              ?elem_of_nil; naive_solver.
Qed.
End FullTableSchema.

Lemma recreate_table_schema_witness :
  ∃ q,
    SQLEngine.dump_table_creation (Some "public") "people"
      (Tables.get_full_table_schema
         [(1%Z, "id", "integer"); (2%Z, "name", "character")]
         [("name", "character"); ("id", "integer")]) false false = inr q
    ∧ identifiers q = ["public"; "people"; "id"; "name"; "id"; "name"].
Proof.
  destruct (recreate_table_schema "public" "people"
              [(1%Z, "id", "integer"); (2%Z, "name", "character")]
              [("name", "character"); ("id", "integer")] false)
    as (q & Hq & Hids & _).
  - repeat constructor.
  - repeat constructor.
  - exists q. split; [exact Hq|]. rewrite Hids. reflexivity.
Defined.

(* ===================================================================== *)
(** * Properties: the registry of engines *)
(* ===================================================================== *)

Section GetEngineProperties.
Import Config GlobalEngine Registry.
Context {PostgresEngine : Type}.
Variable new_engine :
  gmap string (option string) → string → bool → PostgresEngine.
Implicit Types (p : Process PostgresEngine (Globals PostgresEngine))
               (name : option string).

Ltac eff :=
  unfold mbind, Eff_bind, mret, Eff_ret, gets, modify, raise, lift in *.

Lemma bind_state {St E A B} (m : Eff St E A) (k : A → Eff St E B) :
  (∀ s, (m s).1 = s) → (∀ a s, (k a s).1 = s) → ∀ s, ((m ≫= k) s).1 = s.
Proof.
  intros Hm Hk s. unfold mbind, Eff_bind. specialize (Hm s).
  destruct (m s) as [s' [a|e]]; cbn in *; subst; [apply Hk|done].
Qed.

Ltac keeps_state :=
  repeat match goal with
  | |- ∀ s, ((_ ≫= _) s).1 = s => apply bind_state; [|intros ?]
  | |- ∀ s, (lift ?r s).1 = s => by destruct r
  | |- ∀ s, ((if ?b then _ else _) s).1 = s => destruct b
  | |- ∀ s, _ = s => by intros ?
  | |- _ => progress cbn zeta
  end.

(** Working out connection parameters leaves the globals alone. *)
Lemma conn_params_of_state n use_socket use_fdw_params p :
  (conn_params_of n use_socket use_fdw_params p).1 = p.
Proof. revert p. unfold conn_params_of. keeps_state. Qed.

(** [get_engine] by cases: the engine held in [_ENGINE], a registered
    engine, or a new one that is registered. *)
Lemma get_engine_unfold name use_socket use_fdw_params autocommit p :
  get_engine new_engine name use_socket use_fdw_params autocommit p
  = match
      match name with
      | None | Some EmptyString =>
          match _ENGINE p with
          | EngineObject engine => inl engine
          | EngineName n => inr n
          end
      | Some n => inr n
      end
    with
    | inl engine => (p, Returned engine)
    | inr n =>
        match _ENGINES (world p) !! n with
        | Some engine => (p, Returned engine)
        | None =>
            match (conn_params_of n use_socket
                     (default (IN_FDW (world p)) use_fdw_params) p).2 with
            | Returned conn_params =>
                (set_ENGINES (<[n := new_engine conn_params n autocommit]>) p,
                 Returned (new_engine conn_params n autocommit))
            | Raised e => (p, Raised e)
            end
        end
    end.
Proof.
  unfold get_engine.
  assert (∀ b n,
    (engines ← gets (λ p, _ENGINES (world p));
     match engines !! n with
     | Some engine => mret engine
     | None =>
         conn_params ← conn_params_of n use_socket b;
         modify (set_ENGINES (<[n := new_engine conn_params n autocommit]>));;
         mret (new_engine conn_params n autocommit)
     end) p
    = match _ENGINES (world p) !! n with
      | Some engine => (p, Returned engine)
      | None =>
          match (conn_params_of n use_socket b p).2 with
          | Returned conn_params =>
              (set_ENGINES (<[n := new_engine conn_params n autocommit]>) p,
               Returned (new_engine conn_params n autocommit))
          | Raised e => (p, Raised e)
          end
      end) as Hreg.
  { intros b n. unfold mbind at 1, Eff_bind at 1, gets. cbn beta iota.
    destruct (_ENGINES (world p) !! n) as [engine|]; [done|].
    pose proof (conn_params_of_state n use_socket b p) as Hst.
    unfold mbind at 1, Eff_bind at 1.
    destruct (conn_params_of n use_socket b p) as [p1 [cp|e]];
      cbn [fst snd] in *; subst p1; done. }
  destruct use_fdw_params as [b|]; eff; cbn beta iota;
    destruct name as [[|a n]|]; try destruct (_ENGINE p); cbn beta iota;
    try done; apply Hreg.
Qed.

(** X8. A second [get_engine] call with the same name returns the engine
    the first call returned and changes nothing, whatever [use_socket],
    [use_fdw_params] and [autocommit] it is given: these only matter for
    the call that creates the engine. *)
Theorem get_engine_reuses name use_socket use_fdw_params autocommit
    p p' engine :
  get_engine new_engine name use_socket use_fdw_params autocommit p
    = (p', Returned engine) →
  ∀ use_socket' use_fdw_params' autocommit',
    get_engine new_engine name use_socket' use_fdw_params' autocommit' p'
    = (p', Returned engine).
Proof.
  intros Hfirst use_socket' use_fdw_params' autocommit'.
  rewrite get_engine_unfold in Hfirst. rewrite get_engine_unfold.
  assert (_ENGINE p' = _ENGINE p
          ∧ ∀ n,
              match name with
              | None | Some EmptyString =>
                  match _ENGINE p with
                  | EngineObject engine => inl engine
                  | EngineName n => inr n
                  end
              | Some n => inr n
              end = inr n →
              _ENGINES (world p') !! n = Some engine) as [HE Hreg].
  { destruct (match name with
              | None | Some EmptyString =>
                  match _ENGINE p with
                  | EngineObject engine => inl engine
                  | EngineName n => inr n
                  end
              | Some n => inr n
              end) as [e0|n0] eqn:Hres.
    - injection Hfirst as <- <-. done.
    - destruct (_ENGINES (world p) !! n0) as [e0|] eqn:Hlook.
      + injection Hfirst as <- <-. split; [done|]. by intros n [= <-].
      + destruct (conn_params_of n0 _ _ p).2 as [cp|e]; [|done].
        injection Hfirst as <- <-. split; [done|]. intros n [= <-].
        cbn. apply lookup_insert_eq. }
  rewrite HE.
  destruct (match name with
            | None | Some EmptyString =>
                match _ENGINE p with
                | EngineObject engine => inl engine
                | EngineName n => inr n
                end
            | Some n => inr n
            end) as [e0|n0] eqn:Hres.
  - by injection Hfirst as <- <-.
  - by rewrite (Hreg n0 eq_refl).
Qed.

(** X9. Inside [with switch_engine(e)], [get_engine()] returns [e]: it
    neither consults the registry nor the configuration and creates
    nothing, and once the block is left the process is as it was. *)
Theorem get_engine_inside_switch_engine engine use_socket use_fdw_params
    autocommit p :
  switch_engine engine
    (get_engine new_engine None use_socket use_fdw_params autocommit) p
  = (p, Returned engine).
Proof.
  rewrite switch_engine_unfold, get_engine_unfold. cbn. by destruct p.
Qed.

(** X10. A failing [get_engine] changes nothing, and a name that is
    neither registered nor LOCAL nor among the remotes of the
    configuration fails with [KeyError]; a call that returns leaves
    [_ENGINE] and the configuration as they were and replaces no
    registered engine. *)
Theorem get_engine_frame name use_socket use_fdw_params autocommit p :
  let out :=
    get_engine new_engine name use_socket use_fdw_params autocommit p in
  (∀ e, out.2 = Raised e → out.1 = p)
  ∧ _ENGINE out.1 = _ENGINE p
  ∧ CONFIG (world out.1) = CONFIG (world p)
  ∧ CONFIG_remotes (world out.1) = CONFIG_remotes (world p)
  ∧ _ENGINES (world p) ⊆ _ENGINES (world out.1)
  ∧ (∀ n remotes,
       name = Some n → n ≠ EmptyString → n ≠ "LOCAL" →
       _ENGINES (world p) !! n = None →
       CONFIG_remotes (world p) = Some remotes → remotes !! n = None →
       out = (p, Raised (KeyError n))).
Proof.
  intros out. subst out. rewrite get_engine_unfold.
  split; [|split; [|split; [|split; [|split]]]].
  1-5: destruct (match name with
                 | None | Some EmptyString =>
                     match _ENGINE p with
                     | EngineObject engine => inl engine
                     | EngineName n => inr n
                     end
                 | Some n => inr n
                 end) as [e0|n0]; try done;
       destruct (_ENGINES (world p) !! n0) as [e0|] eqn:Hlook; try done;
       destruct (conn_params_of n0 _ _ p).2 as [cp|e']; try done.
  - cbn. by apply insert_subseteq.
  - intros n remotes -> Hne Hlocal Hreg Hrem Hn.
    destruct n as [|a n]; [done|]. rewrite Hreg.
    unfold conn_params_of, lift, item. eff. rewrite decide_False by done.
    rewrite Hrem. cbn beta iota. by rewrite Hn.
Qed.
End GetEngineProperties.

(* ===================================================================== *)
(** * Properties: a stream in the hands of its caller *)
(* ===================================================================== *)

Section StreamClient.
Import FDW Client.
Context {value : Type} `{EqDecision value}.
Variable pg_qual : Qual value → value → option bool.
Variable META : string.
Variable where_clause :
  string → string → list string → string → string → Composed.
Implicit Types (self : Wrapper value) (g : Generator value)
               (eng : Engine value).

Lemma count_calls_more p (t : gmap string (list (Row value * bool))) eng l :
  count_calls p (mkEngine t (calls eng ++ l))
  = count_calls p eng + length (filter (λ c, p c = true) l).
Proof. unfold count_calls. cbn [calls]. by rewrite filter_app, length_app. Qed.

Lemma count_cons (p : EngineCall value → bool) c l :
  length (filter (λ c, p c = true) (c :: l))
  = (if p c then 1 else 0) + length (filter (λ c, p c = true) l).
Proof.
  rewrite filter_cons.
  destruct (p c); [rewrite decide_True by done|rewrite decide_False by done];
    done.
Qed.

(** The clean-up calls of one kind made so far, plus one as long as the
    stream can still need cleaning up, never grow. *)
Lemma run_op_cleanup p self op g eng :
  p = is_rollback ∨ p = is_delete_table ∨ p = is_cursor_close →
  (count_calls p (run_op self (g, eng) op).2
     + match gen_state (run_op self (g, eng) op).1 with
       | Finished => 0
       | _ => 1
       end
   ≤ count_calls p eng + match gen_state g with Finished => 0 | _ => 1 end)%nat.
Proof.
  intros Hp. destruct op; cbn [run_op fst snd]; [|by destruct (gen_state g); cbn; lia].
  unfold next.
  destruct (gen_state g) as [|cur|] eqn:Hst; [| |cbn; rewrite Hst; lia].
  - match goal with
    | |- context [loop_turn g ?rows ?e] => destruct rows as [|r rest]
    end; cbn [loop_turn fst snd].
    + unfold on_exhausted, rollback, delete_table, log.
      destruct (gen_drop_table g); cbn [calls tables set_state gen_state];
        rewrite <- ?(assoc_L (++)), count_calls_more;
        destruct Hp as [-> | [-> | ->]]; cbn [app]; rewrite ?count_cons; cbn; lia.
    + unfold log. cbn [set_state gen_state].
      rewrite count_calls_more.
      destruct Hp as [-> | [-> | ->]]; cbn [app]; rewrite ?count_cons; cbn; lia.
  - destruct cur as [|r rest]; cbn [loop_turn fst snd].
    + unfold on_exhausted, rollback, delete_table, log.
      destruct (gen_drop_table g); cbn [calls tables set_state gen_state];
        rewrite <- ?(assoc_L (++)), count_calls_more;
        destruct Hp as [-> | [-> | ->]]; cbn [app]; rewrite ?count_cons; cbn; lia.
    + cbn [set_state gen_state]. lia.
Qed.

(** Nothing happens to a finished stream, nor to the engine through it. *)
Lemma run_ops_finished self ops : ∀ g eng,
  gen_state g = Finished → run_ops self ops g eng = (g, eng).
Proof.
  unfold run_ops.
  induction ops as [|op ops IH]; intros g eng Hst; [done|].
  cbn [foldl].
  assert (run_op self (g, eng) op = (g, eng)) as ->.
  { destruct op; cbn [run_op fst snd].
    - unfold next. by rewrite Hst.
    - unfold close, set_state. destruct g. cbn in Hst. by subst. }
  by apply IH.
Qed.

(** X11. Whatever sequence of [next] and [close] calls the holder of a
    stream makes, the stream rolls the transaction back at most once,
    deletes a table at most once and closes its cursor at most once; once
    it has finished it no longer touches the engine. *)
Theorem stream_cleans_up_at_most_once self ops g eng :
  let out := run_ops self ops g eng in
  (count_calls is_rollback out.2 ≤ count_calls is_rollback eng + 1)%nat
  ∧ (count_calls is_delete_table out.2
     ≤ count_calls is_delete_table eng + 1)%nat
  ∧ (count_calls is_cursor_close out.2
     ≤ count_calls is_cursor_close eng + 1)%nat
  ∧ (gen_state g = Finished → out = (g, eng)).
Proof.
  intros out. subst out.
  assert (∀ p, p = is_rollback ∨ p = is_delete_table ∨ p = is_cursor_close →
               ∀ ops g eng,
                 (count_calls p (run_ops self ops g eng).2
                    + match gen_state (run_ops self ops g eng).1 with
                      | Finished => 0
                      | _ => 1
                      end
                  ≤ count_calls p eng
                    + match gen_state g with Finished => 0 | _ => 1 end)%nat)
    as Hmeasure.
  { intros p Hp. clear ops g eng. unfold run_ops.
    induction ops as [|op ops IH]; intros g eng; [done|].
    cbn [foldl]. pose proof (run_op_cleanup p self op g eng Hp) as Hstep.
    destruct (run_op self (g, eng) op) as [g1 eng1].
    specialize (IH g1 eng1). cbn [fst snd] in Hstep. lia. }
  repeat split.
  - specialize (Hmeasure is_rollback (or_introl eq_refl) ops g eng).
    destruct (gen_state g), (gen_state _); lia.
  - specialize (Hmeasure is_delete_table (or_intror (or_introl eq_refl))
                  ops g eng).
    destruct (gen_state g), (gen_state _); lia.
  - specialize (Hmeasure is_cursor_close (or_intror (or_intror eq_refl))
                  ops g eng).
    destruct (gen_state g), (gen_state _); lia.
  - apply run_ops_finished.
Qed.

(** The rows of a stream are restricted to its columns. *)
Lemma iterate_columns self fuel : ∀ g eng rows g' eng',
  iterate fuel self g eng = Some (rows, g', eng') →
  Forall (λ row : Row value, ∀ c, is_Some (row !! c) → c ∈ gen_columns g) rows.
Proof.
  induction fuel as [|fuel IH]; intros g eng rows g' eng' Hit; [done|].
  cbn [iterate] in Hit.
  destruct (next self g eng) as [[[row| |] g1] eng1] eqn:Hnext.
  - destruct (iterate fuel self g1 eng1) as [[[rows1 g2] eng2]|] eqn:Hrest;
      [|done].
    cbn in Hit. injection Hit as <- <- <-.
    assert (gen_columns g1 = gen_columns g
            ∧ ∃ r, row = project (gen_columns g) r) as [Hcols [r ->]].
    { unfold next in Hnext.
      destruct (gen_state g) as [|cur|]; [| |done].
      - match type of Hnext with
        | loop_turn g ?rows ?e = _ => destruct rows as [|r rest]
        end; [done|].
        cbn in Hnext. injection Hnext as <- <- <-. eauto.
      - destruct cur as [|r rest]; [done|].
        cbn in Hnext. injection Hnext as <- <- <-. eauto. }
    constructor.
    + intros c [x Hx]. unfold project in Hx.
      apply map_lookup_filter_Some in Hx as [_ Hx]. done.
    + rewrite <- Hcols. by eapply IH.
  - injection Hit as <- <- <-. constructor.
  - injection Hit as <- <- <-. constructor.
Qed.

(** X12. The rows [execute] streams have no other columns than the ones
    asked for, on the fast path and on the slow path, however far the
    caller iterates. *)
Theorem execute_rows_columns self staging_table quals columns eng fuel
    rows g' eng' :
  iterate fuel self
    (execute pg_qual META where_clause self staging_table quals columns eng).1
    (execute pg_qual META where_clause self staging_table quals columns eng).2
  = Some (rows, g', eng') →
  Forall (λ row : Row value, ∀ c, is_Some (row !! c) → c ∈ columns) rows.
Proof.
  intros Hit. apply iterate_columns in Hit.
  destruct (decide (diff_chain self = [])) as [Hnil|Hne].
  - by rewrite (execute_fast_path pg_qual META where_clause _ _ _ _ _ Hnil)
      in Hit.
  - by rewrite (execute_slow_path pg_qual META where_clause _ _ _ _ _ Hne)
      in Hit.
Qed.

(** X13. [execute] only adds to the calls made on the engine, and what
    it adds are statements and applications of objects: it opens no
    cursor, deletes no table and does not roll back. Of the staging
    tables it touches the one it was given a name for, and with an empty
    chain it does not touch the engine at all. *)
Theorem execute_frame self staging_table quals columns eng :
  let out :=
    (execute pg_qual META where_clause self staging_table quals columns eng).2
  in
  (∃ new, calls out = calls eng ++ new
          ∧ Forall (λ c, match c with
                         | RunSql _ _ | ApplyDiffObject _ _ _ _ => True
                         | _ => False
                         end) new)
  ∧ (∀ name, name ≠ staging_table → tables out !! name = tables eng !! name)
  ∧ (diff_chain self = [] → out = eng).
Proof.
  intros out. subst out.
  destruct (decide (diff_chain self = [])) as [Hnil|Hne].
  { rewrite (execute_fast_path pg_qual META where_clause _ _ _ _ _ Hnil).
    cbn [snd]. repeat split; [|done..].
    exists []. by rewrite app_nil_r. }
  rewrite (execute_slow_path pg_qual META where_clause _ _ _ _ _ Hne).
  cbn [snd calls tables]. split; [|split; [|done]].
  - eexists. split; [reflexivity|].
    match goal with |- Forall ?P _ => set (ok := P) end.
    assert (Forall ok (step3_calls META staging_table quals
                         (removelast (diff_chain self)))) as H3.
    { unfold step3_calls.
      induction (removelast (diff_chain self)) as [|d l IH]; [constructor|].
      csimpl. constructor; [done|].
      destruct quals; [done|]. by constructor. }
    assert (Forall ok (step1_calls META where_clause self staging_table))
      as H1.
    { unfold step1_calls. apply Forall_fmap, Forall_true. done. }
    unfold setup_calls.
    repeat apply Forall_app_2;
      repeat match goal with
             | |- Forall _ (match ?x with _ => _ end) => destruct x
             end;
      try done; repeat constructor.
  - intros name Hname. by rewrite lookup_insert_ne.
Qed.
End StreamClient.

(* ===================================================================== *)
(** * Properties: how a stream ends *)
(* ===================================================================== *)

Section StreamEnd.
Import FDW.
Context {value : Type} `{EqDecision value}.
Implicit Types (self : Wrapper value) (eng : Engine value)
               (g : Generator value) (cur : list (Row value)).

Lemma ending_suspended self cur : ∀ g eng fuel,
  gen_state g = Suspended cur →
  length cur < fuel →
  ending fuel self g eng = Some RuntimeError.
Proof.
  induction cur as [|r cur IH]; intros g eng fuel Hst Hfuel;
    (destruct fuel as [|fuel]; [simpl in Hfuel; lia|]);
    simpl; unfold next; rewrite Hst; simpl.
  - done.
  - apply (IH (set_state g (Suspended cur)) eng fuel);
      [done|simpl in Hfuel; lia].
Qed.

(** X14. A stream that has not finished and is iterated to the end does
    not end with [StopIteration]: the [raise StopIteration] that closes
    the clean-up sits in the body of the generator, so what the caller
    gets from the [next] that finds the cursor exhausted is
    [RuntimeError]. A [next] after that, or after [close], gets
    [StopIteration]. *)
Theorem stream_ends_with_RuntimeError self g eng fuel :
  gen_state g ≠ Finished →
  length (pending self g eng) < fuel →
  ending fuel self g eng = Some RuntimeError
  ∧ (∀ eng', (next self (set_state g Finished) eng').1.1 = StopIteration)
  ∧ (next self (close g eng).1 (close g eng).2).1.1 = StopIteration.
Proof.
  intros Hst Hfuel. split; [|done].
  unfold pending in Hfuel.
  destruct (gen_state g) as [|cur|] eqn:Hg; [| |done].
  - destruct fuel as [|fuel]; [lia|].
    cbn [ending]. unfold next. rewrite Hg.
    set (eng1 := log _ eng).
    assert (table_rows self eng1 (gen_table g)
            = table_rows self eng (gen_table g)) as -> by done.
    destruct (table_rows self eng (gen_table g)) as [|r cur]; [done|].
    cbn [loop_turn].
    apply (ending_suspended self cur); [done|simpl in Hfuel; lia].
  - by apply (ending_suspended self cur).
Qed.
End StreamEnd.

Lemma stream_ends_with_RuntimeError_witness :
  let self := FDW.mkWrapper Scenario.snap_t [] in
  let started := Scenario.run_execute self [] ["id"] in
  FDW.ending 4 self started.1 started.2 = Some FDW.RuntimeError.
Proof.
  intros self started.
  apply (stream_ends_with_RuntimeError self started.1 started.2 4).
  - discriminate.
  - vm_compute. lia.
Defined.

(* ===================================================================== *)
(** * Properties: merging project files *)
(* ===================================================================== *)

Section MergeProperties.
Import Project.
Context {Credential Metadata External MField EField : Type}.
Variable Metadata_dict : Metadata → gmap string MField.
Variable Metadata_parse_obj :
  gmap string MField → Project.ValidationError + Metadata.
Variable External_items : External → list (string * EField).
Variable External_parse_obj :
  gmap string EField → Project.ValidationError + External.
Variable spread : option EField → EField → EField.
Implicit Types (creds : option (gmap string Credential))
               (repos : list (@Repository Metadata External)).

Lemma nonempty_true {V} (d : gmap string V) : nonempty d = true ↔ d ≠ ∅.
Proof. unfold nonempty. by rewrite bool_decide_eq_true. Qed.

Lemma nonempty_false {V} (d : gmap string V) : nonempty d = false ↔ d = ∅.
Proof.
  unfold nonempty. rewrite bool_decide_eq_false.
  split; [apply dec_stable|by intros -> ?].
Qed.

(** X15. A credential of the merged file is the right file's when the
    right file has one under that name, the left file's otherwise. A
    missing dictionary and an empty one are both passed over, so that
    merging an empty left dictionary with a missing right one gives a
    missing dictionary; this is the only way to get none. *)
Theorem merge_credentials_lookup
    (creds_left creds_right : option (gmap string Credential)) :
  (∀ k, default ∅ (merge_credentials creds_left creds_right) !! k
        = match default ∅ creds_right !! k with
          | Some c => Some c
          | None => default ∅ creds_left !! k
          end)
  ∧ (merge_credentials creds_left creds_right = None
     ↔ creds_right = None ∧ (creds_left = None ∨ creds_left = Some ∅)).
Proof.
  unfold merge_credentials, resolve_optional.
  destruct creds_left as [l|], creds_right as [r|]; cbn [default from_option id].
  - destruct (nonempty l) eqn:Hl; [destruct (nonempty r) eqn:Hr|].
    + split; [|split; [done|by intros [? _]]].
      intros k. cbn [default from_option id]. rewrite lookup_union.
      by destruct (r !! k), (l !! k).
    + apply nonempty_false in Hr as ->.
      split; [|split; [done|by intros [? _]]].
      intros k. cbn [default from_option id]. by rewrite lookup_empty.
    + apply nonempty_false in Hl as ->.
      split; [|split; [done|by intros [? _]]].
      intros k. cbn [default from_option id]. rewrite lookup_empty. by destruct (r !! k).
  - destruct (nonempty l) eqn:Hl.
    + split; [intros k; cbn [default from_option id]; by rewrite lookup_empty|].
      apply nonempty_true in Hl. split; [done|].
      intros [_ [?|[= ->]]]; done.
    + apply nonempty_false in Hl as ->.
      split; [intros k; cbn [default from_option id]; by rewrite lookup_empty|].
      split; [eauto|done].
  - split; [|split; [done|by intros [? _]]].
    intros k. cbn [default from_option id]. rewrite lookup_empty. by destruct (r !! k).
  - split; [done|]. split; [eauto|done].
Qed.

(** X16. Merging credentials is associative, so project files can be
    merged one after the other in any grouping, and merging a dictionary
    with itself gives it back. *)
Theorem merge_credentials_assoc
    (creds1 creds2 creds3 : option (gmap string Credential)) :
  merge_credentials (merge_credentials creds1 creds2) creds3
  = merge_credentials creds1 (merge_credentials creds2 creds3)
  ∧ merge_credentials creds1 creds1 = creds1.
Proof.
  unfold merge_credentials, resolve_optional.
  assert (∀ a b : gmap string Credential, nonempty a = true →
            nonempty (a ∪ b) = true) as Hunion.
  { intros a b Ha. apply nonempty_true. apply nonempty_true in Ha.
    intros Hab. by apply map_positive_l in Hab. }
  split.
  - destruct creds1 as [a|], creds2 as [b|], creds3 as [c|]; try done;
      repeat match goal with
             | |- context [nonempty ?d] =>
                 lazymatch d with
                 | _ ∪ _ => fail
                 | _ => destruct (nonempty d) eqn:?
                 end
             end;
      rewrite ?Hunion by done; try done;
      repeat match goal with
             | H : nonempty _ = _ |- _ => rewrite H
             end;
      rewrite ?Hunion by done; try done.
    by rewrite (assoc_L (∪)).
  - destruct creds1 as [a|]; [|done].
    destruct (nonempty a); [|done]. by rewrite (idemp (∪) a).
Qed.



Lemma dict_repo_NoDup repos r :
  NoDup (repo_key <$> repos) → r ∈ repos →
  dict ((λ r, (repo_key r, r)) <$> repos) !! repo_key r = Some r.
Proof.
  intros Hnd Hr. unfold dict. apply elem_of_list_to_map_1.
  - by rewrite fmap_reverse, reverse_Permutation, <- list_fmap_compose.
  - apply elem_of_reverse, list_elem_of_fmap. eauto.
Qed.

Lemma collect_inr {A B} (f : A → ValidationError + B) (g : A → B)
    (l : list A) :
  Forall (λ x, f x = inr (g x)) l → collect f l = inr (g <$> l).
Proof.
  induction 1 as [|x l Hx Hl IH]; [done|]. cbn [collect].
  by rewrite Hx, IH.
Qed.







(** X18. Merging with an empty list, on either side, gives the other
    list back when no two of its repositories have the same namespace and
    name. *)
Theorem merge_repository_lists_empty repos :
  NoDup (repo_key <$> repos) →
  merge_repository_lists Metadata_dict Metadata_parse_obj External_items
    External_parse_obj spread repos [] = inr repos
  ∧ merge_repository_lists Metadata_dict Metadata_parse_obj External_items
      External_parse_obj spread [] repos = inr repos.
Proof.
  intros Hnd. unfold merge_repository_lists.
  set (D := dict ((λ r, (repo_key r, r)) <$> repos)).
  assert (omap id ((λ k, D !! k) <$> (repo_key <$> repos)) = repos) as Hsome.
  { assert (Forall (λ r, D !! repo_key r = Some r) repos) as Hlook.
    { apply Forall_forall. intros r Hr. by apply dict_repo_NoDup. }
    assert (∀ (g : string * string → option (@Repository Metadata External)) l,
              Forall (λ r, g (repo_key r) = Some r) l →
              omap id (g <$> (repo_key <$> l)) = l) as Hgen.
    { clear. intros g l. induction 1 as [|r l Hr Hl IH]; [done|].
      csimpl. rewrite Hr. cbn. by f_equal. }
    by apply Hgen. }
  split.
  - cbn [fmap list_fmap filter list_filter]. rewrite app_nil_r.
    rewrite (collect_inr _ (λ k, D !! k)); [by rewrite Hsome|].
    apply Forall_true. intros k.
    unfold merge_repository, resolve_optional, always.
    by destruct (D !! k).
  - cbn [fmap list_fmap app].
    rewrite filter_all by (apply Forall_true; intros r; reflexivity).
    rewrite (collect_inr _ (λ k, D !! k)); [by rewrite Hsome|].
    apply Forall_true. intros k.
    unfold merge_repository, resolve_optional, always.
    replace (dict [] !! k) with (@None (@Repository Metadata External));
      [done|].
    symmetry. apply lookup_empty.
Qed.


End MergeProperties.

(* ===================================================================== *)
(** * The further theorems on small inputs *)
(* ===================================================================== *)

Lemma get_engine_reuses_witness :
  let new_engine : gmap string (option string) → string → bool → nat :=
    λ _ _ _, 0 in
  let p : GlobalEngine.Process nat (Registry.Globals nat) :=
    GlobalEngine.mkProcess (GlobalEngine.EngineName "LOCAL")
      (Registry.mkGlobals (<["origin" := 7]> ∅) ∅ None false) in
  Registry.get_engine new_engine (Some "origin") true (Some true) true p
  = (p, Returned 7).
Proof.
  intros new_engine p.
  apply (get_engine_reuses new_engine (Some "origin") false None false p p 7).
  vm_compute. reflexivity.
Defined.

Lemma execute_rows_columns_witness :
  let self := FDW.mkWrapper Scenario.snap_t [Scenario.diff_update_3] in
  ∃ rows g' eng',
    FDW.iterate 10 self
      (Scenario.run_execute self Scenario.quals_v_a ["id"]).1
      (Scenario.run_execute self Scenario.quals_v_a ["id"]).2
    = Some (rows, g', eng')
    ∧ Forall (λ row : Row Scenario.Val,
                ∀ c, is_Some (row !! c) → c ∈ ["id"]) rows.
Proof.
  intros self.
  destruct (FDW.iterate 10 self
              (Scenario.run_execute self Scenario.quals_v_a ["id"]).1
              (Scenario.run_execute self Scenario.quals_v_a ["id"]).2)
    as [[[rows g'] eng']|] eqn:Hit.
  - exists rows, g', eng'. split; [reflexivity|].
    exact (execute_rows_columns Scenario.pg_qual Scenario.META
             Scenario.where_clause self "o_staging" Scenario.quals_v_a
             ["id"] Scenario.empty_engine 10 rows g' eng' Hit).
  - vm_compute in Hit. discriminate Hit.
Defined.

Lemma merge_repository_lists_empty_witness :
  let repos : list (@Project.Repository unit unit) :=
    [Project.mkRepository "acme" "sales" None None;
     Project.mkRepository "acme" "stock" (Some tt) None] in
  Project.merge_repository_lists
    (λ _ : unit, (∅ : gmap string unit)) (λ _, inr tt)
    (λ _ : unit, ([] : list (string * unit))) (λ _, inr tt) (λ _ v, v)
    repos [] = inr repos.
Proof.
  intros repos.
  apply (merge_repository_lists_empty
           (λ _ : unit, (∅ : gmap string unit)) (λ _, inr tt)
           (λ _ : unit, ([] : list (string * unit))) (λ _, inr tt) (λ _ v, v)
           repos).
  refine (bool_decide_unpack _ _). vm_compute. exact I.
Defined.
